(** * DIA Voice API: session lifecycle and audio relay engine

    A shallow embedding of [src/app.py]: the WAV framer
    ([create_wav_header]), the audio relay engine ([AudioLoop]) and the
    Flask handlers that manage the process-wide session
    ([audio_stream_socket], [start_voice], [terminate_voice]).

    Conventions.
    - Python integers are [Z]; byte strings are [list byte].
    - A Python exception is a value of [exn]; a call that may raise returns
      [PyResult].
    - Whatever the program asks of the outside world (the upstream service,
      a WebSocket peer, the thread scheduler, the process environment) is
      read from an explicit oracle.
    - Every externally visible action (a sleep, an upstream call, a message
      to a client, a write of the running flag) is recorded, in program
      order, in an event trace returned next to the new state.
    - Calls to [logger] change no state and are left out. *)

From Stdlib Require Import ZArith List String Ascii Lia Bool.
From Stdlib.Strings Require Import Byte.
From stdpp Require Import gmap sets list strings.
Import ListNotations.
Open Scope Z_scope.

(** ** Python primitives *)

Module Py.

Inductive exn : Type :=
| OverflowError                 (* int.to_bytes: negative or too big *)
| ValueError (msg : string)
| Exception (msg : string).     (* any other subclass of Exception *)

Definition PyResult (A : Type) : Type := exn + A.

Definition ret {A} (a : A) : PyResult A := inr a.
Definition raise {A} (e : exn) : PyResult A := inl e.

Definition bind {A B} (m : PyResult A) (k : A -> PyResult B) : PyResult B :=
  match m with
  | inl e => inl e
  | inr a => k a
  end.

(** [str(e)] *)
Definition str (e : exn) : string :=
  match e with
  | OverflowError => "int too big to convert"
  | ValueError msg => msg
  | Exception msg => msg
  end.

Definition byte_of_Z (v : Z) : byte :=
  match Byte.of_N (Z.to_N v) with
  | Some b => b
  | None => x00
  end.

Definition Z_of_byte (b : byte) : Z := Z.of_N (Byte.to_N b).

(** The [length] low bytes of [v], least significant first. *)
Fixpoint le_bytes (length : nat) (v : Z) : list byte :=
  match length with
  | O => []
  | S n => byte_of_Z (v mod 256) :: le_bytes n (v / 256)
  end.

(** [v.to_bytes(length, 'little')]: unsigned, raises [OverflowError] on a
    negative [v] and on a [v] that does not fit in [length] bytes. *)
Definition to_bytes (v : Z) (length : nat) : PyResult (list byte) :=
  if v <? 0 then raise OverflowError
  else if 256 ^ Z.of_nat length <=? v then raise OverflowError
  else ret (le_bytes length v).

(** [int.from_bytes(bs, 'little')], used to read a header back. *)
Fixpoint from_bytes (bs : list byte) : Z :=
  match bs with
  | [] => 0
  | b :: rest => Z_of_byte b + 256 * from_bytes rest
  end.

(** [s.lower()] on ASCII text. *)
Definition lower_ascii (c : ascii) : ascii :=
  let n := nat_of_ascii c in
  if ((65 <=? n)%nat && (n <=? 90)%nat)%bool then ascii_of_nat (n + 32) else c.

Fixpoint lower (s : string) : string :=
  match s with
  | EmptyString => EmptyString
  | String c rest => String (lower_ascii c) (lower rest)
  end.

(** [sub in s] *)
Fixpoint contains (sub s : string) : bool :=
  (String.prefix sub s ||
   match s with
   | EmptyString => false
   | String _ rest => contains sub rest
   end)%bool.

End Py.

Declare Scope py_scope.
Notation "'let*' x ':=' m 'in' k" := (Py.bind m (fun x => k))
  (at level 10, x name, m at level 100, k at level 200) : py_scope.
Open Scope py_scope.

(** ** The WAV framer *)

Module Wav.
Import Py.

Definition RECEIVE_SAMPLE_RATE : Z := 24000.

(** [b'RIFF'] and the like. *)
Definition lit (s : string) : list byte := list_byte_of_string s.

(** [create_wav_header(data_length, sample_rate=24000, channels=1,
    sample_width=2)]; each [header.extend] appends, each [to_bytes] may
    raise, in the order of the source. *)
Definition create_wav_header (data_length sample_rate channels sample_width : Z)
  : PyResult (list byte) :=
  let header := [] in
  let header := header ++ lit "RIFF" in
  let* b := to_bytes (data_length + 36) 4 in
  let header := header ++ b in
  let header := header ++ lit "WAVE" in
  let header := header ++ lit "fmt " in
  let* b := to_bytes 16 4 in
  let header := header ++ b in
  let* b := to_bytes 1 2 in
  let header := header ++ b in
  let* b := to_bytes channels 2 in
  let header := header ++ b in
  let* b := to_bytes sample_rate 4 in
  let header := header ++ b in
  let byte_rate := sample_rate * channels * sample_width in
  let* b := to_bytes byte_rate 4 in
  let header := header ++ b in
  let block_align := channels * sample_width in
  let* b := to_bytes block_align 2 in
  let header := header ++ b in
  let bits_per_sample := sample_width * 8 in
  let* b := to_bytes bits_per_sample 2 in
  let header := header ++ b in
  let header := header ++ lit "data" in
  let* b := to_bytes data_length 4 in
  let header := header ++ b in
  ret header.

(** The call made by [AudioLoop.play_audio], followed by
    [wav_data = wav_header + audio_data]. *)
Definition frame_pcm (audio_data : list byte) : PyResult (list byte) :=
  let sample_rate := RECEIVE_SAMPLE_RATE in
  let channels := 1 in
  let sample_width := 2 in
  let* wav_header :=
    create_wav_header (Z.of_nat (length audio_data)) sample_rate channels sample_width in
  ret (wav_header ++ audio_data).

(** *** Reading a header back

    The reader is not part of the program: it is the canonical 44-byte
    RIFF/WAVE/fmt/data layout of the specification, against which the
    framer is checked. *)

Record WavInfo : Type := {
  riff_size : Z;
  audio_format : Z;
  channels : Z;
  sample_rate : Z;
  byte_rate : Z;
  block_align : Z;
  bits_per_sample : Z;
  data_length : Z;
}.

Definition slice (off len : nat) (bs : list byte) : list byte :=
  firstn len (skipn off bs).

#[global] Instance byte_eq_decision : EqDecision byte := Byte.byte_eq_dec.

Fixpoint bytes_eqb (a b : list byte) : bool :=
  match a, b with
  | [], [] => true
  | x :: a', y :: b' => (Byte.eqb x y && bytes_eqb a' b')%bool
  | _, _ => false
  end.

Definition parse_wav_header (bs : list byte) : option WavInfo :=
  if (bytes_eqb (slice 0 4 bs) (lit "RIFF")
      && bytes_eqb (slice 8 4 bs) (lit "WAVE")
      && bytes_eqb (slice 12 4 bs) (lit "fmt ")
      && (from_bytes (slice 16 4 bs) =? 16)
      && bytes_eqb (slice 36 4 bs) (lit "data")
      && (44 <=? length bs)%nat)%bool
  then Some {| riff_size := from_bytes (slice 4 4 bs);
               audio_format := from_bytes (slice 20 2 bs);
               channels := from_bytes (slice 22 2 bs);
               sample_rate := from_bytes (slice 24 4 bs);
               byte_rate := from_bytes (slice 28 4 bs);
               block_align := from_bytes (slice 32 2 bs);
               bits_per_sample := from_bytes (slice 34 2 bs);
               data_length := from_bytes (slice 40 4 bs) |}
  else None.

(** The 44 bytes expected of the framer at 24000 Hz, mono, 16 bits: what
    the properties below compare [create_wav_header] with. *)
Definition header_24k_mono16 (data_length : Z) : list byte :=
  lit "RIFF" ++ le_bytes 4 (data_length + 36) ++ lit "WAVE" ++ lit "fmt "
  ++ le_bytes 4 16 ++ le_bytes 2 1 ++ le_bytes 2 1 ++ le_bytes 4 24000
  ++ le_bytes 4 48000 ++ le_bytes 2 2 ++ le_bytes 2 16
  ++ lit "data" ++ le_bytes 4 data_length.

(** The 44 bytes [create_wav_header] lays out when every [to_bytes] returns,
    for any parameters. *)
Definition header_layout (data_length sample_rate channels sample_width : Z)
  : list byte :=
  lit "RIFF" ++ le_bytes 4 (data_length + 36) ++ lit "WAVE" ++ lit "fmt "
  ++ le_bytes 4 16 ++ le_bytes 2 1 ++ le_bytes 2 channels
  ++ le_bytes 4 sample_rate
  ++ le_bytes 4 (sample_rate * channels * sample_width)
  ++ le_bytes 2 (channels * sample_width)
  ++ le_bytes 2 (sample_width * 8)
  ++ lit "data" ++ le_bytes 4 data_length.

(** Every integer handed to [to_bytes] fits the width it is given. *)
Definition fields_fit (data_length sample_rate channels sample_width : Z) : Prop :=
  0 <= data_length + 36 < 2 ^ 32
  /\ 0 <= channels < 2 ^ 16
  /\ 0 <= sample_rate < 2 ^ 32
  /\ 0 <= sample_rate * channels * sample_width < 2 ^ 32
  /\ 0 <= channels * sample_width < 2 ^ 16
  /\ 0 <= sample_width * 8 < 2 ^ 16
  /\ 0 <= data_length < 2 ^ 32.

End Wav.

(** ** The audio relay engine: [class AudioLoop] *)

Module Engine.
Import Py.

Definition Handle := nat.   (* the upstream session object *)
Definition Ctx := nat.      (* the context manager of [client.aio.live.connect] *)
Definition Client := nat.   (* the [genai.Client] *)

(** An entry of [out_queue]: the dict [{"data": ..., "mime_type": ...}]. *)
Record Frame : Type := {
  data : list byte;
  mime_type : string;
}.

(** [bool(content)]: a dict with two keys is never empty. *)
Definition truthy_frame (content : Frame) : bool := true.

(** [bool(data)] for a byte string. *)
Definition truthy_bytes (b : list byte) : bool :=
  match b with
  | [] => false
  | _ :: _ => true
  end.

(** The text sent to a WebSocket client by [play_audio]:
    [json.dumps({"type": "audio", "format": "audio/wav",
    "data": base64.b64encode(wav_data).decode('utf-8')})]; the two codecs
    are injective and are kept symbolic. *)
Inductive WsMessage : Type :=
| AudioEnvelope (wav_data : list byte).

#[global] Instance WsMessage_eq_decision : EqDecision WsMessage.
Proof. solve_decision. Defined.

Inductive Event : Type :=
| EvSetRunning (b : bool)                    (* self.is_running = b *)
| EvSleep (ms : Z)                           (* await asyncio.sleep *)
| EvConnect (attempt : Z)                    (* live.connect + __aenter__ *)
| EvClose (ctx : Ctx)                        (* __aexit__ returned *)
| EvCloseFailed (ctx : Ctx)                  (* __aexit__ raised *)
| EvEnqueue (content : Frame)                (* out_queue.put, by a client *)
| EvSend (content : Frame)                   (* session.send returned *)
| EvSendFailed (content : Frame)             (* session.send raised *)
| EvReceive                                  (* session.receive() *)
| EvWsSend (ws : nat) (message : WsMessage)        (* ws.send returned *)
| EvWsSendFailed (ws : nat) (message : WsMessage). (* ws.send raised *)

Record AudioLoop : Type := {
  client : Client;
  session : option Handle;
  (* [None] also stands for "attribute not set yet": [stop] tests
     [hasattr(self, '_session_ctx') and self._session_ctx]. *)
  _session_ctx : option Ctx;
  is_running : bool;
  audio_in_queue : list (list byte);
  out_queue : list Frame;
  is_serverless : bool;
}.

Definition set_session (v : option Handle) (self : AudioLoop) : AudioLoop :=
  {| client := client self; session := v; _session_ctx := _session_ctx self;
     is_running := is_running self; audio_in_queue := audio_in_queue self;
     out_queue := out_queue self; is_serverless := is_serverless self |}.

Definition set_session_ctx (v : option Ctx) (self : AudioLoop) : AudioLoop :=
  {| client := client self; session := session self; _session_ctx := v;
     is_running := is_running self; audio_in_queue := audio_in_queue self;
     out_queue := out_queue self; is_serverless := is_serverless self |}.

Definition set_is_running (v : bool) (self : AudioLoop) : AudioLoop :=
  {| client := client self; session := session self; _session_ctx := _session_ctx self;
     is_running := v; audio_in_queue := audio_in_queue self;
     out_queue := out_queue self; is_serverless := is_serverless self |}.

Definition set_audio_in_queue (v : list (list byte)) (self : AudioLoop) : AudioLoop :=
  {| client := client self; session := session self; _session_ctx := _session_ctx self;
     is_running := is_running self; audio_in_queue := v;
     out_queue := out_queue self; is_serverless := is_serverless self |}.

Definition set_out_queue (v : list Frame) (self : AudioLoop) : AudioLoop :=
  {| client := client self; session := session self; _session_ctx := _session_ctx self;
     is_running := is_running self; audio_in_queue := audio_in_queue self;
     out_queue := v; is_serverless := is_serverless self |}.

(** [AudioLoop.__init__(client)]; [vercel_is_1] is
    [os.environ.get('VERCEL') == '1']. *)
Definition __init__ (client : Client) (vercel_is_1 : bool) : AudioLoop :=
  {| client := client; session := None; _session_ctx := None;
     is_running := false; audio_in_queue := []; out_queue := [];
     is_serverless := vercel_is_1 |}.

(** [bool(self.session)], [bool(self._session_ctx)]: both objects are
    truthy when present. *)
Definition present {A} (o : option A) : bool :=
  match o with
  | Some _ => true
  | None => false
  end.

(** *** [connect_with_retry] *)

(** What one pass through the [try] block meets. *)
Inductive ConnectOutcome : Type :=
| ConnectRaises (e : exn)              (* live.connect(...) raises *)
| EnterRaises (ctx : Ctx) (e : exn)    (* __aenter__() raises *)
| Entered (ctx : Ctx) (h : Handle).    (* __aenter__() returns h *)

(** The [while retry_count < max_retries] loop. [stub] answers the attempt
    made with the given [retry_count]. [fuel] bounds the passes. *)
Fixpoint connect_loop (fuel : nat) (stub : Z -> ConnectOutcome)
    (max_retries retry_count : Z) (self : AudioLoop)
  : option (bool * AudioLoop * list Event) :=
  if retry_count <? max_retries then
    match fuel with
    | O => None
    | S fuel' =>
        match stub retry_count with
        | Entered ctx h =>
            let self := set_session_ctx (Some ctx) self in
            let self := set_session (Some h) self in
            let self := set_is_running true self in
            Some (true, self, [EvConnect (retry_count + 1); EvSetRunning true])
        | EnterRaises ctx _ =>
            let self := set_session_ctx (Some ctx) self in
            let retry_count' := retry_count + 1 in
            match connect_loop fuel' stub max_retries retry_count' self with
            | Some (r, self', tr) =>
                Some (r, self', EvConnect (retry_count + 1) :: EvSleep 1000 :: tr)
            | None => None
            end
        | ConnectRaises _ =>
            let retry_count' := retry_count + 1 in
            match connect_loop fuel' stub max_retries retry_count' self with
            | Some (r, self', tr) =>
                Some (r, self', EvConnect (retry_count + 1) :: EvSleep 1000 :: tr)
            | None => None
            end
        end
    end
  else Some (false, self, []).

Definition connect_with_retry (stub : Z -> ConnectOutcome) (max_retries : Z)
    (self : AudioLoop) : option (bool * AudioLoop * list Event) :=
  let retry_count := 0 in
  connect_loop (Z.to_nat max_retries) stub max_retries retry_count self.

(** An attempt that raised. *)
Definition failed (o : ConnectOutcome) : bool :=
  match o with
  | Entered _ _ => false
  | _ => true
  end.

(** The attempts recorded in a trace. *)
Definition attempts (tr : list Event) : list Z :=
  omap (fun e => match e with EvConnect n => Some n | _ => None end) tr.

(** Every state the methods produce keeps the context manager for as long
    as it holds a session: [connect_with_retry] stores the context first,
    [stop] drops both. *)
Definition consistent (self : AudioLoop) : Prop :=
  is_Some (session self) -> is_Some (_session_ctx self).

(** *** [stop] and [_clear_queues] *)

(** [while not queue.empty(): queue.get_nowait()] *)
Fixpoint drain {A} (queue : list A) : list A :=
  match queue with
  | [] => []
  | _ :: rest => drain rest
  end.

(** [for queue in [self.audio_in_queue, self.out_queue]: if queue: ...];
    an [asyncio.Queue] defines neither [__bool__] nor [__len__], so the test
    always passes. *)
Definition _clear_queues (self : AudioLoop) : AudioLoop :=
  let self := set_audio_in_queue (drain (audio_in_queue self)) self in
  set_out_queue (drain (out_queue self)) self.

(** [close_raises ctx] tells whether [ctx.__aexit__(None, None, None)]
    raises an [Exception], which the handler swallows; a cancellation, which
    is no [Exception], is not part of the model. *)
Definition stop (close_raises : Ctx -> option exn) (self : AudioLoop)
  : AudioLoop * list Event :=
  let self := set_is_running false self in
  let tr := [EvSetRunning false; EvSleep 500] in
  let '(self, tr) :=
    match _session_ctx self, session self with
    | Some ctx, Some _ =>
        (* try: __aexit__  except Exception: log  finally: release *)
        let tr :=
          match close_raises ctx with
          | None => tr ++ [EvClose ctx]
          | Some _ => tr ++ [EvCloseFailed ctx]
          end in
        let self := set_session None self in
        let self := set_session_ctx None self in
        (self, tr)
    | _, _ => (self, tr)
    end in
  (_clear_queues self, tr).

(** *** Duty cycles

    Each duty cycle is a coroutine around [while self.is_running]. Other
    coroutines and the request handlers run between two passes of such a
    loop, so a cycle is given by its entry check and by what one pass
    does: the test of the flag, the body, and the exception handlers
    around it. *)

Inductive Status : Type :=
| Looping      (* back at the loop test *)
| Exited.      (* the coroutine has returned *)

(** The guard that opens [send_realtime] and [receive_audio]: the
    [ValueError] it raises reaches the outer handler, which clears the
    flag. *)
Definition enter (self : AudioLoop) : AudioLoop * list Event * Status :=
  if (negb (present (session self)) || negb (is_running self))%bool
  then (set_is_running false self, [EvSetRunning false], Exited)
  else (self, [], Looping).

(** One pass of [send_realtime]; [outcome] is what [session.send] does if
    it is called. *)
Definition send_realtime_pass (outcome : option exn) (self : AudioLoop)
  : AudioLoop * list Event * Status :=
  if is_running self then
    match out_queue self with
    | content :: rest =>
        let self := set_out_queue rest self in
        if truthy_frame content then
          match outcome with
          | None => (self, [EvSend content; EvSleep 10], Looping)
          | Some _ =>
              (set_is_running false self,
               [EvSendFailed content; EvSetRunning false], Exited)
          end
        else (self, [EvSleep 10], Looping)
    | [] => (self, [EvSleep 10], Looping)
    end
  else (self, [], Exited).

(** [send_realtime] run on its own against the given outcomes of
    [session.send], one per pass. *)
Fixpoint send_realtime_passes (outcomes : list (option exn)) (self : AudioLoop)
  : AudioLoop * list Event * Status :=
  match outcomes with
  | [] => (self, [], Looping)
  | outcome :: rest =>
      match send_realtime_pass outcome self with
      | (self, tr, Looping) =>
          let '(self, tr', status) := send_realtime_passes rest self in
          (self, tr ++ tr', status)
      | (self, tr, Exited) => (self, tr, Exited)
      end
  end.

Definition send_realtime (outcomes : list (option exn)) (self : AudioLoop)
  : AudioLoop * list Event * Status :=
  match enter self with
  | (self, tr, Looping) =>
      let '(self, tr', status) := send_realtime_passes outcomes self in
      (self, tr ++ tr', status)
  | (self, tr, Exited) => (self, tr, Exited)
  end.

(** What the WebSocket handler does with a decoded frame:
    [if audio_loop.is_running: out_queue.put(frame)]. *)
Definition offer (content : Frame) (self : AudioLoop) : AudioLoop * list Event :=
  if is_running self
  then (set_out_queue (out_queue self ++ [content]) self, [EvEnqueue content])
  else (self, []).

(** A schedule interleaves the passes of the send loop with the frames
    offered by clients. *)
Inductive Slot : Type :=
| ClientPut (content : Frame)
| SendPass (outcome : option exn).

Fixpoint relay (sched : list Slot) (st : AudioLoop * Status)
  : AudioLoop * Status * list Event :=
  match sched with
  | [] => (st, [])
  | ClientPut content :: rest =>
      let '(self, tr) := offer content (fst st) in
      let '(st', tr') := relay rest (self, snd st) in
      (st', tr ++ tr')
  | SendPass outcome :: rest =>
      match snd st with
      | Looping =>
          let '(self, tr, status) := send_realtime_pass outcome (fst st) in
          let '(st', tr') := relay rest (self, status) in
          (st', tr ++ tr')
      | Exited => relay rest st
      end
  end.

Definition enqueued (tr : list Event) : list Frame :=
  omap (fun e => match e with EvEnqueue c => Some c | _ => None end) tr.

Definition forwarded (tr : list Event) : list Frame :=
  omap (fun e => match e with EvSend c => Some c | _ => None end) tr.

Definition all_sends_succeed (sched : list Slot) : bool :=
  forallb (fun s => match s with SendPass (Some _) => false | _ => true end) sched.

(** *** [receive_audio] *)

(** How the iteration over a turn ends. *)
Inductive TurnEnd : Type :=
| TurnComplete                 (* the async iterator is exhausted *)
| TurnCancelled                (* asyncio.CancelledError *)
| TurnRaises (e : exn).        (* an Exception, from receive() or the iterator *)

(** A turn: [response.data] of every response it yields ([None] when the
    response carries no audio), then its end. *)
Record Turn : Type := {
  responses : list (option (list byte));
  ending : TurnEnd;
}.

(** [if data := response.data: await self.audio_in_queue.put(data)] *)
Fixpoint put_responses (rs : list (option (list byte))) (self : AudioLoop) : AudioLoop :=
  match rs with
  | [] => self
  | Some data :: rest =>
      if truthy_bytes data
      then put_responses rest (set_audio_in_queue (audio_in_queue self ++ [data]) self)
      else put_responses rest self
  | None :: rest => put_responses rest self
  end.

(** ["timeout" in str(e).lower()] *)
Definition is_timeout (e : exn) : bool := contains "timeout" (lower (str e)).

(** One pass of [receive_audio] over the turn that [session.receive()]
    hands out. *)
Definition receive_audio_pass (turn : Turn) (self : AudioLoop)
  : AudioLoop * list Event * Status :=
  if is_running self then
    let self := put_responses (responses turn) self in
    match ending turn with
    | TurnComplete => (self, [EvReceive; EvSleep 10], Looping)
    | TurnCancelled => (self, [EvReceive], Exited)                 (* break *)
    | TurnRaises e =>
        if is_timeout e
        then (self, [EvReceive; EvSleep 1000], Looping)             (* continue *)
        else (self, [EvReceive], Exited)                            (* break *)
    end
  else (self, [], Exited).

Fixpoint receive_audio_passes (turns : list Turn) (self : AudioLoop)
  : AudioLoop * list Event * Status :=
  match turns with
  | [] => (self, [], Looping)
  | turn :: rest =>
      match receive_audio_pass turn self with
      | (self, tr, Looping) =>
          let '(self, tr', status) := receive_audio_passes rest self in
          (self, tr ++ tr', status)
      | (self, tr, Exited) => (self, tr, Exited)
      end
  end.

(** [receive_audio] against the turns the upstream hands out, in order. *)
Definition receive_audio (turns : list Turn) (self : AudioLoop)
  : AudioLoop * list Event * Status :=
  match enter self with
  | (self, tr, Looping) =>
      let '(self, tr', status) := receive_audio_passes turns self in
      (self, tr ++ tr', status)
  | (self, tr, Exited) => (self, tr, Exited)
  end.

(** *** [listen_audio]: both branches only sleep while the flag is set. *)
Definition listen_audio_pass (self : AudioLoop) : AudioLoop * list Event * Status :=
  if is_running self then (self, [EvSleep 500], Looping) else (self, [], Exited).

(** *** [play_audio] *)

(** [for ws in list(ws_clients): try: ws.send(message) except Exception: log] *)
Fixpoint broadcast (ws_send : nat -> option exn) (clients : list nat)
    (message : WsMessage) : list Event :=
  match clients with
  | [] => []
  | ws :: rest =>
      match ws_send ws with
      | None => EvWsSend ws message :: broadcast ws_send rest message
      | Some _ => EvWsSendFailed ws message :: broadcast ws_send rest message
      end
  end.

(** One pass of [play_audio]. The registry [ws_clients] is the global set;
    the pass returns it as it leaves it. *)
Definition play_audio_pass (ws_send : nat -> option exn) (ws_clients : gset nat)
    (self : AudioLoop) : AudioLoop * gset nat * list Event * Status :=
  if is_running self then
    match audio_in_queue self with
    | audio_data :: rest =>
        let self := set_audio_in_queue rest self in
        if (truthy_bytes audio_data && negb (bool_decide (ws_clients = ∅)))%bool then
          match Wav.frame_pcm audio_data with
          | inr wav_data =>
              let message := AudioEnvelope wav_data in
              (self, ws_clients,
               broadcast ws_send (elements ws_clients) message ++ [EvSleep 10],
               Looping)
          | inl _ =>                       (* "Error preparing audio data" *)
              (self, ws_clients, [EvSleep 10], Looping)
          end
        else (self, ws_clients, [EvSleep 10], Looping)
    | [] => (self, ws_clients, [EvSleep 10], Looping)
    end
  else (self, ws_clients, [], Exited).

(** The clients a trace shows a message delivered to. *)
Definition delivered (message : WsMessage) (tr : list Event) : list nat :=
  omap (fun e => match e with
                 | EvWsSend ws m => if bool_decide (m = message) then Some ws else None
                 | _ => None
                 end) tr.

(** What can still happen to a loop once [connect_with_retry] has returned
    [True]: the passes of its four duty cycles and their entry checks, a
    frame offered by a client, and [stop]. *)
Inductive serving_step : AudioLoop -> AudioLoop -> Prop :=
| step_enter (self : AudioLoop) :
    serving_step self (enter self).1.1
| step_send (outcome : option exn) (self : AudioLoop) :
    serving_step self (send_realtime_pass outcome self).1.1
| step_receive (turn : Turn) (self : AudioLoop) :
    serving_step self (receive_audio_pass turn self).1.1
| step_listen (self : AudioLoop) :
    serving_step self (listen_audio_pass self).1.1
| step_play (ws_send : nat -> option exn) (ws_clients : gset nat) (self : AudioLoop) :
    serving_step self (play_audio_pass ws_send ws_clients self).1.1.1
| step_offer (content : Frame) (self : AudioLoop) :
    serving_step self (offer content self).1
| step_stop (close_raises : Ctx -> option exn) (self : AudioLoop) :
    serving_step self (stop close_raises self).1.

(** *** [run], up to the point where the duty cycles are created

    [connect_with_retry(config)] with the default [max_retries = 3]; when
    no session came out of it the [Exception] raised lands in [finally],
    which clears the flag and calls [stop]. *)
Definition run_startup (stub : Z -> ConnectOutcome) (close_raises : Ctx -> option exn)
    (self : AudioLoop) : option (AudioLoop * list Event * Status) :=
  match connect_with_retry stub 3 self with
  | Some (_, self, tr) =>
      if present (session self) then Some (self, tr, Looping)
      else
        let self := set_is_running false self in
        let '(self, tr') := stop close_raises self in
        Some (self, tr ++ [EvSetRunning false] ++ tr', Exited)
  | None => None
  end.

(** *** Whole runs of the inbound loops, for the properties below *)

(** The chunks a turn puts on [audio_in_queue], in order. *)
Definition turn_chunks (turn : Turn) : list (list byte) :=
  omap (fun r => match r with
                 | Some data => if truthy_bytes data then Some data else None
                 | None => None
                 end) (responses turn).

(** The turn ends the receive loop: a cancellation, or an exception that
    names no timeout. *)
Definition turn_exits (turn : Turn) : bool :=
  match ending turn with
  | TurnComplete => false
  | TurnCancelled => true
  | TurnRaises e => negb (is_timeout e)
  end.

(** The turns up to and including the first that ends the loop. *)
Fixpoint consumed (turns : list Turn) : list Turn :=
  match turns with
  | [] => []
  | turn :: rest => if turn_exits turn then [turn] else turn :: consumed rest
  end.

(** [play_audio] run on its own for [n] passes over a registry nobody
    changes meanwhile. *)
Fixpoint play_audio_passes (n : nat) (ws_send : nat -> option exn)
    (ws_clients : gset nat) (self : AudioLoop) : AudioLoop * list Event * Status :=
  match n with
  | O => (self, [], Looping)
  | S n' =>
      match play_audio_pass ws_send ws_clients self with
      | (self, _, tr, Looping) =>
          let '(self, tr', status) := play_audio_passes n' ws_send ws_clients self in
          (self, tr ++ tr', status)
      | (self, _, tr, Exited) => (self, tr, Exited)
      end
  end.

(** The messages a trace shows delivered to the client [ws], in order. *)
Definition received_by (ws : nat) (tr : list Event) : list WsMessage :=
  omap (fun e => match e with
                 | EvWsSend w m => if bool_decide (w = ws) then Some m else None
                 | _ => None
                 end) tr.

(** What [play_audio] makes of a chunk it dequeues while clients are
    registered: the envelope of its WAV framing, or nothing for an empty
    chunk and for one the framer refuses. *)
Definition envelope_of (audio_data : list byte) : option WsMessage :=
  if truthy_bytes audio_data then
    match Wav.frame_pcm audio_data with
    | inr wav_data => Some (AudioEnvelope wav_data)
    | inl _ => None
    end
  else None.

(** The one-second sleeps of a trace. *)
Definition retry_sleeps (tr : list Event) : nat :=
  length (omap (fun e => match e with EvSleep 1000 => Some tt | _ => None end) tr).

(** The upstream contexts a trace shows closed, successfully or not. *)
Definition closes (tr : list Event) : list Ctx :=
  omap (fun e => match e with
                 | EvClose ctx => Some ctx
                 | EvCloseFailed ctx => Some ctx
                 | _ => None
                 end) tr.

End Engine.


(** ** The Flask application: globals and handlers *)

Module Server.
Import Py Engine.

(** A [threading.Thread] whose target is
    [lambda: run_async_task(audio_loop.run, config)]; [target] is the loop the
    global [audio_loop] named when the thread was started ([None]: the global
    was [None], the target dies on [None.run]). *)
Inductive Thread : Type :=
| ThreadObj (target : option nat).

(** What the handlers read from outside the program. *)
Record Env : Type := {
  IN_VERCEL : bool;                  (* 'VERCEL' or 'AWS_LAMBDA_FUNCTION_NAME' in os.environ *)
  VERCEL_is_1 : bool;                (* os.environ.get('VERCEL') == '1' *)
  genai_Client : PyResult Client;    (* create_gemini_client() *)
  close_raises : Ctx -> option exn;  (* __aexit__ of an upstream context *)
  thread_is_alive : Thread -> bool;  (* Thread.is_alive() *)
}.

(** The module globals. [AudioLoop] objects live in [heap]; the global
    [audio_loop] and the threads refer to them by address. *)
Record State : Type := {
  heap : gmap nat AudioLoop;
  audio_loop : option nat;
  audio_thread : option Thread;
  ws_clients : gset nat;
}.

Definition set_heap (v : gmap nat AudioLoop) (st : State) : State :=
  {| heap := v; audio_loop := audio_loop st;
     audio_thread := audio_thread st; ws_clients := ws_clients st |}.

Definition set_audio_loop (v : option nat) (st : State) : State :=
  {| heap := heap st; audio_loop := v;
     audio_thread := audio_thread st; ws_clients := ws_clients st |}.

Definition set_audio_thread (v : option Thread) (st : State) : State :=
  {| heap := heap st; audio_loop := audio_loop st;
     audio_thread := v; ws_clients := ws_clients st |}.

Definition set_ws_clients (v : gset nat) (st : State) : State :=
  {| heap := heap st; audio_loop := audio_loop st;
     audio_thread := audio_thread st; ws_clients := v |}.

(** The globals when [create_app] returns. *)
Definition initial : State :=
  {| heap := ∅; audio_loop := None; audio_thread := None; ws_clients := ∅ |}.

Inductive Event : Type :=
| EvLockAcquire                          (* entering [with session_lock] *)
| EvLockRelease                          (* leaving it *)
| EvLoop (id : nat) (e : Engine.Event)   (* an action of the loop at [id] *)
| EvCreate (id : nat)                    (* AudioLoop(client) allocated at [id] *)
| EvThreadStart (t : Thread)             (* audio_thread.start() *)
| EvJoin (t : Thread) (timeout_ms : Z)   (* audio_thread.join(timeout=...) *)
| EvTimeSleep (ms : Z)                   (* time.sleep *)
| EvWsClose (ws : nat).                  (* ws.close(), whether or not it raises *)

Inductive Method : Type := POST | OPTIONS.

Record Request : Type := {
  method : Method;
  host : string;
  is_secure : bool;
}.

#[warnings="-register-all"]
Inductive Json : Type :=
| JStr (s : string)
| JBool (b : bool)
| JObj (fields : list (string * Json)).

Inductive Response : Type :=
| OptionsResponse (allow_methods : string)   (* make_default_options_response *)
| Jsonify (body : Json).

(** [bool(audio_loop)] *)
Definition has_loop (st : State) : bool := present (audio_loop st).

(** [audio_loop.is_running], read where [audio_loop] is known to be set. *)
Definition loop_is_running (st : State) : bool :=
  match audio_loop st with
  | Some id =>
      match heap st !! id with
      | Some obj => is_running obj
      | None => false
      end
  | None => false
  end.

(** The loop at [id] is Running. *)
Definition running (st : State) (id : nat) : Prop :=
  exists obj, heap st !! id = Some obj /\ is_running obj = true.

(** No loop is Running in [st'] that was not Running in [st]. *)
Definition quiet (st st' : State) : Prop :=
  forall id, running st' id -> running st id.

(** What holds of the globals in every state the handlers produce. *)
Record well_formed (env : Env) (st : State) : Prop := {
  wf_allocated : forall id, audio_loop st = Some id -> is_Some (heap st !! id);
  wf_serverless : IN_VERCEL env = true -> audio_loop st = None;
  wf_consistent : forall id obj, heap st !! id = Some obj -> consistent obj;
}.

(** [create_audio_loop()] *)
Definition create_audio_loop (env : Env) : PyResult (option AudioLoop) :=
  if IN_VERCEL env then ret None
  else
    let* client := genai_Client env in
    ret (Some (__init__ client (VERCEL_is_1 env))).

(** [audio_loop = <created>]: a new object gets a fresh address. *)
Definition assign_audio_loop (created : option AudioLoop) (st : State)
  : State * list Event :=
  match created with
  | Some obj =>
      let id := fresh (dom (heap st)) in
      (set_audio_loop (Some id) (set_heap (<[id := obj]> (heap st)) st), [EvCreate id])
  | None => (set_audio_loop None st, [])
  end.

(** [audio_thread = Thread(target=..., daemon=True); audio_thread.start()] *)
Definition start_thread (st : State) : State * list Event :=
  let t := ThreadObj (audio_loop st) in
  (set_audio_thread (Some t) st, [EvThreadStart t]).

(** [run_async_task(audio_loop.stop)] / [asyncio.run(audio_loop.stop())] on
    the loop at [id]. *)
Definition stop_loop (env : Env) (id : nat) (st : State) : State * list Event :=
  match heap st !! id with
  | Some obj =>
      let '(obj, tr) := stop (close_raises env) obj in
      (set_heap (<[id := obj]> (heap st)) st, EvLoop id <$> tr)
  | None => (st, [])
  end.

(** [if audio_thread and audio_thread.is_alive(): audio_thread.join(timeout=2.0)] *)
Definition join_thread (env : Env) (st : State) : list Event :=
  match audio_thread st with
  | Some t => if thread_is_alive env t then [EvJoin t 2000] else []
  | None => []
  end.

(** The teardown that opens [start_voice] when a session object exists:
    [try: stop, join  except: log  finally: forget both globals, sleep]. *)
Definition teardown_existing (env : Env) (st : State) : State * list Event :=
  match audio_loop st with
  | Some id =>
      let '(st, tr) := stop_loop env id st in
      let tr := tr ++ join_thread env st in
      let st := set_audio_loop None st in
      let st := set_audio_thread None st in
      (st, tr ++ [EvTimeSleep 500])
  | None => (st, [])
  end.

Definition websocket_url (request : Request) : string :=
  if is_secure request
  then String.append "wss://" (String.append (host request) "/audio-stream")
  else String.append "ws://" (String.append (host request) "/audio-stream").

(** The second [try] of [start_voice]. *)
Definition launch (env : Env) (request : Request) (st : State)
  : Response * State * list Event :=
  match create_audio_loop env with
  | inr created =>
      let '(st, tr) := assign_audio_loop created st in
      let '(st, tr') := start_thread st in
      (Jsonify (JObj [("status", JStr "started");
                      ("websocket", JObj [("url", JStr (websocket_url request));
                                          ("protocol", JStr "audio-stream")])]),
       st, tr ++ tr')
  | inl e =>
      (Jsonify (JObj [("status", JStr "error"); ("message", JStr (str e))]), st, [])
  end.

(** [POST|OPTIONS /start_voice] *)
Definition start_voice (env : Env) (request : Request) (st : State)
  : Response * State * list Event :=
  match method request with
  | OPTIONS => (OptionsResponse "POST", st, [])
  | POST =>
      if IN_VERCEL env then
        (Jsonify (JObj [("status", JStr "started"); ("vercel", JBool true);
                        ("info", JStr "Limited functionality in serverless environment.")]),
         st, [])
      else
        let '(st, tr) := teardown_existing env st in
        let '(response, st, tr') := launch env request st in
        (response, st, [EvLockAcquire] ++ tr ++ tr' ++ [EvLockRelease])
  end.

(** [POST|OPTIONS /terminate_voice] *)
Definition terminate_voice (env : Env) (request : Request) (st : State)
  : Response * State * list Event :=
  match method request with
  | OPTIONS => (OptionsResponse "POST", st, [])
  | POST =>
      if IN_VERCEL env then
        (Jsonify (JObj [("status", JStr "terminated"); ("vercel", JBool true)]), st, [])
      else
        let '(st, tr) :=
          match audio_loop st with
          | Some id =>
              let '(st, tr) := stop_loop env id st in
              let tr := tr ++ join_thread env st in
              let tr := tr ++ (EvWsClose <$> elements (ws_clients st)) in
              let st := set_ws_clients ∅ st in
              let st := set_audio_loop None st in
              let st := set_audio_thread None st in
              (st, tr)
          | None => (st, [])
          end in
        (Jsonify (JObj [("status", JStr "terminated")]), st,
         [EvLockAcquire] ++ tr ++ [EvLockRelease])
  end.

(** *** The WebSocket endpoint [/audio-stream] *)

(** [json.loads(message)], when it returns. An object is seen through the
    keys the handler reads: ["type"], ["data"] (absent, or what
    [base64.b64decode] makes of it), ["format"] and ["command"]. *)
Inductive Parsed : Type :=
| JsonObject (type_ : option string) (data_ : option (PyResult (list byte)))
    (format_ : option string) (command_ : option string)
| JsonOther.               (* not an object: [data.get] raises *)

(** What [ws.receive()] returns, with what [json.loads] makes of it. *)
Inductive Received : Type :=
| Falsy                            (* [if message:] fails *)
| Loads (data : Parsed)
| NotJson (message : list byte)    (* json.JSONDecodeError *)
| LoadsRaises (e : exn).           (* any other exception of json.loads *)

(** [if audio_loop and audio_loop.is_running: out_queue.put(frame)] *)
Definition offer_frame (content : Frame) (st : State) : State * list Event :=
  match audio_loop st with
  | Some id =>
      match heap st !! id with
      | Some obj =>
          let '(obj, tr) := offer content obj in
          (set_heap (<[id := obj]> (heap st)) st, EvLoop id <$> tr)
      | None => (st, [])
      end
  | None => (st, [])
  end.

(** The body of [if message:]. An exception other than [JSONDecodeError]
    leaves the [while] loop; none is raised after a global was changed. *)
Definition on_message (env : Env) (message : Received) (st : State)
  : PyResult (State * list Event) :=
  match message with
  | Falsy => ret (st, [])
  | LoadsRaises e => raise e
  | NotJson raw => ret (offer_frame {| data := raw; mime_type := "audio/pcm" |} st)
  | Loads JsonOther => raise (Exception "object has no attribute 'get'")
  | Loads (JsonObject type_ data_ format_ command_) =>
      if bool_decide (type_ = Some "audio") then
        match data_ with
        | None => raise (Exception "'data'")                  (* KeyError *)
        | Some (inl e) => raise e                             (* b64decode *)
        | Some (inr audio_bytes) =>
            ret (offer_frame {| data := audio_bytes;
                                mime_type := default "audio/pcm" format_ |} st)
        end
      else if bool_decide (type_ = Some "control") then
        if bool_decide (command_ = Some "stop") then
          match audio_loop st with
          | Some id => ret (stop_loop env id st)
          | None => ret (st, [])
          end
        else ret (st, [])
      else ret (st, [])
  end.



(** [while True: message = ws.receive(); ...] over the messages the peer
    sends; after the last one the peer is gone and [ws.receive()] raises. *)
Fixpoint receive_messages (env : Env) (script : list Received) (st : State)
  : State * list Event :=
  match script with
  | [] => (st, [])
  | message :: rest =>
      match on_message env message st with
      | inr (st, tr) =>
          let '(st, tr') := receive_messages env rest st in
          (st, tr ++ tr')
      | inl _ => (st, [])
      end
  end.

(** [ws_clients.add(ws)] *)
Definition register (ws : nat) (st : State) : State :=
  set_ws_clients ({[ws]} ∪ ws_clients st) st.

(** [if ws in ws_clients: ws_clients.remove(ws)] *)
Definition unregister (ws : nat) (st : State) : State :=
  if bool_decide (ws ∈ ws_clients st)
  then set_ws_clients (ws_clients st ∖ {[ws]}) st
  else st.

(** The check that opens the handler's [try]. *)
Definition implicit_start (env : Env) (st : State) : PyResult (State * list Event) :=
  if (negb (has_loop st) || negb (loop_is_running st))%bool then
    if negb (has_loop st) then
      let* created := create_audio_loop env in
      let '(st, tr) := assign_audio_loop created st in
      let '(st, tr') := start_thread st in
      ret (st, tr ++ tr')
    else ret (st, [])
  else ret (st, []).

(** [audio_stream_socket(ws)], from accept to return. *)
Definition audio_stream_socket (env : Env) (ws : nat) (script : list Received)
    (st : State) : State * list Event :=
  let st := register ws st in
  let '(st, tr) :=
    match implicit_start env st with
    | inr (st, tr) =>
        let '(st, tr') := receive_messages env script st in
        (st, tr ++ tr')
    | inl _ => (st, [])
    end in
  (unregister ws st, tr).

(** The messages on which the body of the [while] loop raises: [json.loads]
    fails with something else than [JSONDecodeError], the JSON value is no
    object, or an audio message has no ["data"] or one that
    [base64.b64decode] refuses. *)
Definition message_raises (message : Received) : bool :=
  match message with
  | LoadsRaises _ => true
  | Loads JsonOther => true
  | Loads (JsonObject type_ data_ _ _) =>
      (bool_decide (type_ = Some "audio")
       && match data_ with
          | Some (inr _) => false
          | _ => true
          end)%bool
  | _ => false
  end.

(** *** Sequences of requests *)

(** One request served from start to end. *)
Inductive Call : Type :=
| CallStartVoice (request : Request)
| CallTerminateVoice (request : Request)
| CallSocket (ws : nat) (script : list Received).

Definition handle (env : Env) (call : Call) (st : State) : State * list Event :=
  match call with
  | CallStartVoice request =>
      let '(_, st, tr) := start_voice env request st in (st, tr)
  | CallTerminateVoice request =>
      let '(_, st, tr) := terminate_voice env request st in (st, tr)
  | CallSocket ws script => audio_stream_socket env ws script st
  end.

(** Requests served one after the other. *)
Fixpoint serve (env : Env) (calls : list Call) (st : State) : State :=
  match calls with
  | [] => st
  | call :: rest => serve env rest (handle env call st).1
  end.

(** The connect phase of the thread that runs the loop at [id]:
    [await self.connect_with_retry(config)] in [run], on the heap object the
    thread holds, whatever the global [audio_loop] names by then. *)
Definition thread_connect (stub : Z -> ConnectOutcome) (id : nat) (st : State) : State :=
  match heap st !! id with
  | Some obj =>
      match connect_with_retry stub 3 obj with
      | Some (_, obj, _) => set_heap (<[id := obj]> (heap st)) st
      | None => st
      end
  | None => st
  end.

(** *** Requests and threads interleaved *)

(** What the thread started on the loop at [id] can do between two
    requests: the connect phase of [run], the entry check or one pass of a
    duty cycle, and the [finally] of [run]. The order [run] imposes on them
    is not enforced, so that every interleaving the program has is among
    those described here. *)
Inductive Background : Type :=
| BgConnect (stub : Z -> ConnectOutcome)     (* await self.connect_with_retry(config) *)
| BgEnter                                    (* the guard of send_realtime, receive_audio *)
| BgSend (outcome : option exn)              (* one pass of send_realtime *)
| BgReceive (turn : Turn)                    (* one pass of receive_audio *)
| BgListen                                   (* one pass of listen_audio *)
| BgPlay (ws_send : nat -> option exn)       (* one pass of play_audio *)
| BgFinally.                                 (* self.is_running = False; await self.stop() *)

(** A thread acts on the heap object it was started on, whatever the global
    [audio_loop] names by then; [play_audio] reads the global registry. *)
Definition background (env : Env) (b : Background) (id : nat) (st : State) : State :=
  match b with
  | BgConnect stub => thread_connect stub id st
  | _ =>
      match heap st !! id with
      | Some obj =>
          let obj' :=
            match b with
            | BgConnect _ => obj
            | BgEnter => (enter obj).1.1
            | BgSend outcome => (send_realtime_pass outcome obj).1.1
            | BgReceive turn => (receive_audio_pass turn obj).1.1
            | BgListen => (listen_audio_pass obj).1.1
            | BgPlay ws_send => (play_audio_pass ws_send (ws_clients st) obj).1.1.1
            | BgFinally => (stop (close_raises env) (set_is_running false obj)).1
            end in
          set_heap (<[id := obj']> (heap st)) st
      | None => st
      end
  end.

(** One thing that happens in the process: a request served from start to
    end, or a step of the thread of the loop at [id]. *)
Inductive Activity : Type :=
| Req (call : Call)
| Bg (id : nat) (b : Background).

Fixpoint perform (env : Env) (history : list Activity) (st : State) : State :=
  match history with
  | [] => st
  | Req call :: rest => perform env rest (handle env call st).1
  | Bg id b :: rest => perform env rest (background env b id st)
  end.

End Server.


(** * Properties *)

(** ** The WAV framer *)

Section WavFacts.
Import Py Wav.

Lemma Z_of_byte_of_Z (v : Z) : 0 <= v < 256 -> Z_of_byte (byte_of_Z v) = v.
Proof.
  intros Hv. unfold Z_of_byte, byte_of_Z.
  destruct (Byte.of_N (Z.to_N v)) as [b|] eqn:Hb.
  - apply Byte.to_of_N in Hb. rewrite Hb. lia.
  - apply Byte.of_N_None_iff in Hb. lia.
Qed.

Lemma le_bytes_length (n : nat) (v : Z) : length (le_bytes n v) = n.
Proof.
  revert v. induction n as [|n IH]; intros v; simpl; [reflexivity|].
  now rewrite IH.
Qed.

Lemma from_bytes_le_bytes (n : nat) (v : Z) :
  0 <= v -> from_bytes (le_bytes n v) = v mod 256 ^ Z.of_nat n.
Proof.
  revert v. induction n as [|n IH]; intros v Hv.
  - simpl. now rewrite Z.mod_1_r.
  - cbn [le_bytes from_bytes].
    rewrite Z_of_byte_of_Z by (apply Z.mod_pos_bound; lia).
    rewrite IH by (apply Z.div_pos; lia).
    rewrite Nat2Z.inj_succ, Z.pow_succ_r by lia.
    rewrite Z.rem_mul_r by lia. lia.
Qed.

Lemma from_bytes_le_bytes_fits (n : nat) (v : Z) :
  0 <= v < 256 ^ Z.of_nat n -> from_bytes (le_bytes n v) = v.
Proof.
  intros Hv. rewrite from_bytes_le_bytes by lia. now apply Z.mod_small.
Qed.

Lemma to_bytes_fits (v : Z) (n : nat) :
  0 <= v < 256 ^ Z.of_nat n -> to_bytes v n = inr (le_bytes n v).
Proof.
  intros Hv. unfold to_bytes.
  destruct (Z.ltb_spec v 0); [lia|].
  destruct (Z.leb_spec (256 ^ Z.of_nat n) v); [lia|]. reflexivity.
Qed.

Lemma to_bytes_too_big (v : Z) (n : nat) :
  256 ^ Z.of_nat n <= v -> to_bytes v n = inl OverflowError.
Proof.
  intros Hv. unfold to_bytes.
  assert (0 < 256 ^ Z.of_nat n) by (apply Z.pow_pos_nonneg; lia).
  destruct (Z.ltb_spec v 0); [lia|].
  destruct (Z.leb_spec (256 ^ Z.of_nat n) v); [reflexivity|lia].
Qed.

Lemma to_bytes_negative (v : Z) (n : nat) :
  v < 0 -> to_bytes v n = inl OverflowError.
Proof.
  intros Hv. unfold to_bytes. destruct (Z.ltb_spec v 0); [reflexivity|lia].
Qed.

Lemma create_wav_header_fits (data_length : Z) :
  0 <= data_length <= 4294967259 ->
  create_wav_header data_length 24000 1 2 = inr (header_24k_mono16 data_length).
Proof.
  intros Hd. unfold create_wav_header.
  rewrite (to_bytes_fits (data_length + 36) 4) by (change (256 ^ Z.of_nat 4) with 4294967296; lia).
  rewrite (to_bytes_fits data_length 4) by (change (256 ^ Z.of_nat 4) with 4294967296; lia).
  cbn [bind]. unfold header_24k_mono16.
  change (to_bytes 16 4) with (@inr exn _ (le_bytes 4 16)).
  change (to_bytes 1 2) with (@inr exn _ (le_bytes 2 1)).
  change (to_bytes 24000 4) with (@inr exn _ (le_bytes 4 24000)).
  change (to_bytes (24000 * 1 * 2) 4) with (@inr exn _ (le_bytes 4 48000)).
  change (to_bytes (1 * 2) 2) with (@inr exn _ (le_bytes 2 2)).
  change (to_bytes (2 * 8) 2) with (@inr exn _ (le_bytes 2 16)).
  cbn [bind ret app]. now rewrite <- !app_assoc.
Qed.

Lemma create_wav_header_too_long (data_length sample_rate channels sample_width : Z) :
  4294967260 <= data_length ->
  create_wav_header data_length sample_rate channels sample_width = inl OverflowError.
Proof.
  intros Hd. unfold create_wav_header.
  rewrite (to_bytes_too_big (data_length + 36) 4)
    by (change (256 ^ Z.of_nat 4) with 4294967296; lia).
  reflexivity.
Qed.

Lemma header_24k_mono16_length (data_length : Z) :
  length (header_24k_mono16 data_length) = 44%nat.
Proof.
  unfold header_24k_mono16. rewrite !length_app, !le_bytes_length. reflexivity.
Qed.

(** The reader on any 44 bytes of the canonical shape, whatever follows. *)
Lemma parse_canonical (a0 a1 a2 a3 d0 d1 d2 d3 : byte) (payload : list byte) :
  parse_wav_header
    (lit "RIFF" ++ [a0; a1; a2; a3] ++ lit "WAVE" ++ lit "fmt "
     ++ le_bytes 4 16 ++ le_bytes 2 1 ++ le_bytes 2 1 ++ le_bytes 4 24000
     ++ le_bytes 4 48000 ++ le_bytes 2 2 ++ le_bytes 2 16
     ++ lit "data" ++ [d0; d1; d2; d3] ++ payload)
  = Some {| riff_size := from_bytes [a0; a1; a2; a3];
            audio_format := 1; channels := 1; sample_rate := 24000;
            byte_rate := 48000; block_align := 2; bits_per_sample := 16;
            data_length := from_bytes [d0; d1; d2; d3] |}.
Proof. reflexivity. Qed.

Lemma frame_pcm_fits (audio_data : list byte) :
  Z.of_nat (length audio_data) <= 4294967259 ->
  frame_pcm audio_data
  = inr (header_24k_mono16 (Z.of_nat (length audio_data)) ++ audio_data).
Proof.
  intros HL. unfold frame_pcm, RECEIVE_SAMPLE_RATE.
  rewrite create_wav_header_fits by lia. reflexivity.
Qed.

Lemma frame_pcm_too_long (audio_data : list byte) :
  4294967260 <= Z.of_nat (length audio_data) ->
  frame_pcm audio_data = inl OverflowError.
Proof.
  intros HL. unfold frame_pcm.
  rewrite create_wav_header_too_long by lia. reflexivity.
Qed.

Lemma parse_header_24k_mono16 (L : Z) (payload : list byte) :
  0 <= L <= 4294967259 ->
  parse_wav_header (header_24k_mono16 L ++ payload)
  = Some {| riff_size := L + 36; audio_format := 1; channels := 1;
            sample_rate := 24000; byte_rate := 48000; block_align := 2;
            bits_per_sample := 16; data_length := L |}.
Proof.
  intros HL.
  pose proof (from_bytes_le_bytes_fits 4 (L + 36)) as Hriff.
  pose proof (from_bytes_le_bytes_fits 4 L) as Hdata.
  change (256 ^ Z.of_nat 4) with 4294967296 in Hriff, Hdata.
  specialize (Hriff ltac:(lia)). specialize (Hdata ltac:(lia)).
  unfold header_24k_mono16. rewrite <- !app_assoc.
  cbn [le_bytes] in Hriff, Hdata |- *.
  etransitivity; [apply parse_canonical|].
  now rewrite Hriff, Hdata.
Qed.

(** C4, as amended: for every raw PCM payload whose length [L] is at most
    [2^32 - 37], the framer returns a 44-byte header; header followed by
    payload is [L + 44] bytes long, and reading the header back gives
    [data_length = L], RIFF chunk size [L + 36], sample rate 24000, one
    channel, 16 bits per sample, byte rate
    [sample_rate * channels * sample_width] and block align
    [channels * sample_width]. *)
Theorem wav_framing_roundtrip (payload : list byte) :
  Z.of_nat (length payload) <= 2 ^ 32 - 37 ->
  exists header,
    create_wav_header (Z.of_nat (length payload)) 24000 1 2 = inr header
    /\ length header = 44%nat
    /\ frame_pcm payload = inr (header ++ payload)
    /\ length (header ++ payload) = (length payload + 44)%nat
    /\ parse_wav_header (header ++ payload)
       = Some {| riff_size := Z.of_nat (length payload) + 36;
                 audio_format := 1;
                 channels := 1;
                 sample_rate := 24000;
                 byte_rate := 24000 * 1 * 2;
                 block_align := 1 * 2;
                 bits_per_sample := 16;
                 data_length := Z.of_nat (length payload) |}.
Proof.
  change (2 ^ 32 - 37) with 4294967259. intros HL.
  exists (header_24k_mono16 (Z.of_nat (length payload))).
  split; [apply create_wav_header_fits; lia|].
  split; [apply header_24k_mono16_length|].
  split; [apply frame_pcm_fits; lia|].
  split; [rewrite length_app, header_24k_mono16_length; lia|].
  apply parse_header_24k_mono16. lia.
Qed.

Lemma wav_framing_roundtrip_witness :
  exists header,
    create_wav_header 3 24000 1 2 = inr header
    /\ length header = 44%nat
    /\ frame_pcm [x01; x02; x03] = inr (header ++ [x01; x02; x03])
    /\ length (header ++ [x01; x02; x03]) = 47%nat
    /\ parse_wav_header (header ++ [x01; x02; x03])
       = Some {| riff_size := 39; audio_format := 1; channels := 1;
                 sample_rate := 24000; byte_rate := 48000; block_align := 2;
                 bits_per_sample := 16; data_length := 3 |}.
Proof.
  apply (wav_framing_roundtrip [x01; x02; x03]). vm_compute. discriminate.
Defined.

(** C4, as stated, fails on a payload of [2^32 - 36] bytes: the framer
    raises [OverflowError] and there is no header. *)
Lemma wav_framing_overflow :
  frame_pcm (repeat x00 (Z.to_nat (2 ^ 32 - 36))) = inl OverflowError
  /\ create_wav_header (2 ^ 32 - 36) 24000 1 2 = inl OverflowError.
Proof.
  split.
  - apply frame_pcm_too_long. rewrite repeat_length. lia.
  - apply create_wav_header_too_long. lia.
Qed.

(** C10: with the default sample rate, channels and sample width, the
    framer returns a header of exactly 44 bytes for every [data_length] from
    0 to [2^32 - 37], and raises (the 4-byte encoding of [data_length + 36]
    overflows) for every [data_length] from [2^32 - 36] on. *)
Theorem create_wav_header_partial (data_length : Z) :
  (0 <= data_length <= 2 ^ 32 - 37 ->
   exists header,
     create_wav_header data_length 24000 1 2 = inr header
     /\ length header = 44%nat)
  /\ (2 ^ 32 - 36 <= data_length ->
      create_wav_header data_length 24000 1 2 = inl OverflowError).
Proof.
  change (2 ^ 32 - 37) with 4294967259. change (2 ^ 32 - 36) with 4294967260.
  split; intros Hd.
  - exists (header_24k_mono16 data_length).
    split; [now apply create_wav_header_fits | apply header_24k_mono16_length].
  - now apply create_wav_header_too_long.
Qed.

Lemma create_wav_header_partial_witness :
  (exists header,
     create_wav_header 1024 24000 1 2 = inr header /\ length header = 44%nat)
  /\ create_wav_header 4294967260 24000 1 2 = inl OverflowError.
Proof.
  split.
  - apply (proj1 (create_wav_header_partial 1024)). vm_compute.
    split; discriminate.
  - apply (proj2 (create_wav_header_partial 4294967260)). vm_compute.
    discriminate.
Defined.

End WavFacts.

(** ** The upstream connection *)

Section ConnectFacts.
Import Py Engine.

Lemma connect_loop_returns (stub : Z -> ConnectOutcome) (max_retries : Z) :
  forall (fuel : nat) (retry_count : Z) (self : AudioLoop),
    (Z.to_nat (max_retries - retry_count) <= fuel)%nat ->
    exists r self' tr,
      connect_loop fuel stub max_retries retry_count self = Some (r, self', tr)
      /\ (length (attempts tr) <= Z.to_nat (max_retries - retry_count))%nat.
Proof.
  induction fuel as [|fuel IH]; intros retry_count self Hfuel.
  - cbn [connect_loop].
    destruct (Z.ltb_spec retry_count max_retries); [lia|].
    exists false, self, []. split; [reflexivity | simpl; lia].
  - cbn [connect_loop].
    destruct (Z.ltb_spec retry_count max_retries) as [Hlt|Hge].
    + destruct (stub retry_count) as [e|ctx e|ctx h].
      * destruct (IH (retry_count + 1) self) as (r & self' & tr & Heq & Hlen); [lia|].
        rewrite Heq. eexists _, _, _. split; [reflexivity|]. simpl. lia.
      * destruct (IH (retry_count + 1) (set_session_ctx (Some ctx) self))
          as (r & self' & tr & Heq & Hlen); [lia|].
        rewrite Heq. eexists _, _, _. split; [reflexivity|]. simpl. lia.
      * eexists _, _, _. split; [reflexivity|]. simpl. lia.
    + exists false, self, []. split; [reflexivity | simpl; lia].
Qed.

(** [connect_with_retry] always returns, after at most [max_retries]
    attempts. *)
Lemma connect_with_retry_returns (stub : Z -> ConnectOutcome) (max_retries : Z)
    (self : AudioLoop) :
  exists r self' tr,
    connect_with_retry stub max_retries self = Some (r, self', tr)
    /\ (length (attempts tr) <= Z.to_nat max_retries)%nat.
Proof.
  unfold connect_with_retry.
  destruct (connect_loop_returns stub max_retries (Z.to_nat max_retries) 0 self)
    as (r & self' & tr & Heq & Hlen); [lia|].
  exists r, self', tr. split; [exact Heq|]. now rewrite Z.sub_0_r in Hlen.
Qed.

(** A failed attempt leaves the session and the flag as they were. *)
Lemma connect_loop_failure_keeps (stub : Z -> ConnectOutcome) (max_retries : Z) :
  forall (fuel : nat) (retry_count : Z) (self self' : AudioLoop) (tr : list Event),
    connect_loop fuel stub max_retries retry_count self = Some (false, self', tr) ->
    session self' = session self /\ is_running self' = is_running self
    /\ audio_in_queue self' = audio_in_queue self /\ out_queue self' = out_queue self.
Proof.
  induction fuel as [|fuel IH]; intros retry_count self self' tr; cbn [connect_loop].
  - destruct (retry_count <? max_retries); [discriminate|].
    intros [= <- <-]. auto.
  - destruct (retry_count <? max_retries); [|intros [= <- <-]; auto].
    destruct (stub retry_count) as [e|ctx e|ctx h]; [| |discriminate].
    + destruct (connect_loop fuel stub max_retries (retry_count + 1) self)
        as [[[r s0] t0]|] eqn:Heq; [|discriminate].
      intros [= -> -> <-]. now apply IH in Heq.
    + destruct (connect_loop fuel stub max_retries (retry_count + 1)
                  (set_session_ctx (Some ctx) self))
        as [[[r s0] t0]|] eqn:Heq; [|discriminate].
      intros [= -> -> <-]. now apply IH in Heq.
Qed.

(** A successful call leaves the flag set and a session stored. *)
Lemma connect_loop_success (stub : Z -> ConnectOutcome) (max_retries : Z) :
  forall (fuel : nat) (retry_count : Z) (self self' : AudioLoop) (tr : list Event),
    connect_loop fuel stub max_retries retry_count self = Some (true, self', tr) ->
    is_running self' = true /\ present (session self') = true.
Proof.
  induction fuel as [|fuel IH]; intros retry_count self self' tr; cbn [connect_loop].
  - destruct (retry_count <? max_retries); discriminate.
  - destruct (retry_count <? max_retries); [|discriminate].
    destruct (stub retry_count) as [e|ctx e|ctx h].
    + destruct (connect_loop fuel stub max_retries (retry_count + 1) self)
        as [[[r s0] t0]|] eqn:Heq; [|discriminate].
      intros [= -> -> <-]. now apply IH in Heq.
    + destruct (connect_loop fuel stub max_retries (retry_count + 1)
                  (set_session_ctx (Some ctx) self))
        as [[[r s0] t0]|] eqn:Heq; [|discriminate].
      intros [= -> -> <-]. now apply IH in Heq.
    + intros [= <- <-]. auto.
Qed.

Lemma connect_loop_consistent (stub : Z -> ConnectOutcome) (max_retries : Z) :
  forall (fuel : nat) (retry_count : Z) (self self' : AudioLoop) (r : bool)
         (tr : list Event),
    consistent self ->
    connect_loop fuel stub max_retries retry_count self = Some (r, self', tr) ->
    consistent self'.
Proof.
  induction fuel as [|fuel IH]; intros retry_count self self' r tr Hc; cbn [connect_loop].
  - destruct (retry_count <? max_retries); [discriminate|]. now intros [= <- <- <-].
  - destruct (retry_count <? max_retries); [|now intros [= <- <- <-]].
    destruct (stub retry_count) as [e|ctx e|ctx h].
    + destruct (connect_loop fuel stub max_retries (retry_count + 1) self)
        as [[[r0 s0] t0]|] eqn:Heq; [|discriminate].
      intros [= <- <- <-]. eapply IH; eauto.
    + destruct (connect_loop fuel stub max_retries (retry_count + 1)
                  (set_session_ctx (Some ctx) self))
        as [[[r0 s0] t0]|] eqn:Heq; [|discriminate].
      intros [= <- <- <-]. eapply IH; [|exact Heq].
      intros _. simpl. eauto.
    + intros [= <- <- <-]. intros _. simpl. eauto.
Qed.

(** C3: with [max_retries = 3] the call returns after at most 3 attempts.
    If the first two attempts fail and the third succeeds, exactly the
    attempts 1, 2 and 3 are made, one second apart, the call returns [True]
    and the flag is set, the session being the handle obtained. If every
    attempt fails, exactly the attempts 1, 2 and 3 are made, each followed by
    a one-second sleep, the call returns [False], and the session and the
    flag are what they were before the call (absent and false on a new
    loop). *)
Theorem connect_with_retry_three (stub : Z -> ConnectOutcome) (self : AudioLoop) :
  (exists r self' tr,
     connect_with_retry stub 3 self = Some (r, self', tr)
     /\ (length (attempts tr) <= 3)%nat)
  /\ (forall ctx h,
       failed (stub 0) = true -> failed (stub 1) = true -> stub 2 = Entered ctx h ->
       exists self',
         connect_with_retry stub 3 self
         = Some (true, self',
                 [EvConnect 1; EvSleep 1000; EvConnect 2; EvSleep 1000;
                  EvConnect 3; EvSetRunning true])
         /\ is_running self' = true
         /\ session self' = Some h)
  /\ ((forall n, failed (stub n) = true) ->
      exists self',
        connect_with_retry stub 3 self
        = Some (false, self',
                [EvConnect 1; EvSleep 1000; EvConnect 2; EvSleep 1000;
                 EvConnect 3; EvSleep 1000])
        /\ session self' = session self
        /\ is_running self' = is_running self).
Proof.
  split; [apply (connect_with_retry_returns stub 3 self)|].
  unfold connect_with_retry. change (Z.to_nat 3) with 3%nat. split.
  - intros ctx h H0 H1 H2.
    destruct (stub 0) as [e0|c0 e0|c0 h0] eqn:E0; [| |discriminate];
      destruct (stub 1) as [e1|c1 e1|c1 h1] eqn:E1; try discriminate;
      cbv; rewrite E0, E1, H2;
      eexists; (split; [reflexivity|]); split; reflexivity.
  - intros Hall.
    pose proof (Hall 0) as H0. pose proof (Hall 1) as H1. pose proof (Hall 2) as H2.
    destruct (stub 0) as [e0|c0 e0|c0 h0] eqn:E0; [| |discriminate];
      destruct (stub 1) as [e1|c1 e1|c1 h1] eqn:E1; try discriminate;
      destruct (stub 2) as [e2|c2 e2|c2 h2] eqn:E2; try discriminate;
      cbv; rewrite E0, E1, E2;
      eexists; (split; [reflexivity|]); split; reflexivity.
Qed.

Lemma connect_with_retry_three_witness :
  let self := __init__ 0%nat false in
  let flaky := fun n : Z => if n <? 2 then EnterRaises 7%nat (Exception "unavailable")
                            else Entered 7%nat 9%nat in
  let dead := fun _ : Z => ConnectRaises (Exception "unreachable") in
  (exists self',
     connect_with_retry flaky 3 self
     = Some (true, self',
             [EvConnect 1; EvSleep 1000; EvConnect 2; EvSleep 1000;
              EvConnect 3; EvSetRunning true])
     /\ is_running self' = true /\ session self' = Some 9%nat)
  /\ (exists self',
        connect_with_retry dead 3 self
        = Some (false, self',
                [EvConnect 1; EvSleep 1000; EvConnect 2; EvSleep 1000;
                 EvConnect 3; EvSleep 1000])
        /\ session self' = None /\ is_running self' = false).
Proof.
  intros self flaky dead. split.
  - apply (proj1 (proj2 (connect_with_retry_three flaky self)) 7%nat 9%nat);
      reflexivity.
  - apply (proj2 (proj2 (connect_with_retry_three dead self))).
    intros n. reflexivity.
Defined.

End ConnectFacts.

(** ** Stopping the engine *)

Section StopFacts.
Import Py Engine.

Lemma drain_empty {A} (queue : list A) : drain queue = [].
Proof. induction queue as [|x queue IH]; [reflexivity | exact IH]. Qed.

Lemma consistent_init (client : Client) (vercel_is_1 : bool) :
  consistent (__init__ client vercel_is_1).
Proof. intros [h Hh]. discriminate. Qed.

Lemma stop_session_released (close_raises : Ctx -> option exn) (self : AudioLoop) :
  consistent self -> session (stop close_raises self).1 = None.
Proof.
  intros Hc. unfold stop, consistent in *.
  destruct self as [cl [h|] [ctx|] run inq outq sl]; simpl in *; try reflexivity.
  destruct Hc as [c Hc]; [eauto | discriminate].
Qed.

Lemma stop_flag_cleared (close_raises : Ctx -> option exn) (self : AudioLoop) :
  is_running (stop close_raises self).1 = false.
Proof.
  unfold stop.
  destruct self as [cl [h|] [ctx|] run inq outq sl]; reflexivity.
Qed.

Lemma stop_consistent (close_raises : Ctx -> option exn) (self : AudioLoop) :
  consistent self -> consistent (stop close_raises self).1.
Proof.
  intros Hc. unfold consistent. rewrite stop_session_released by exact Hc.
  intros [h Hh]. discriminate.
Qed.

Lemma stop_completes_aux (close_raises : Ctx -> option exn) (self : AudioLoop) :
  consistent self ->
  exists self' tr,
    stop close_raises self = (self', tr)
    /\ is_running self' = false
    /\ session self' = None
    /\ audio_in_queue self' = []
    /\ out_queue self' = [].
Proof.
  intros Hc.
  pose proof (stop_flag_cleared close_raises self) as Hflag.
  pose proof (stop_session_released close_raises self Hc) as Hsess.
  assert (audio_in_queue (stop close_raises self).1 = []
          /\ out_queue (stop close_raises self).1 = []) as [Hin Hout].
  { unfold stop.
    destruct self as [cl [h|] [ctx|] run inq outq sl]; simpl;
      split; apply drain_empty. }
  destruct (stop close_raises self) as [self' tr]. simpl in *.
  exists self', tr. auto.
Qed.

(** C6: on every loop the methods can produce, [stop] first clears the
    running flag, then sleeps 500 ms, then closes the upstream context if a
    session is held; whether or not the close raises, it returns with the
    flag false, the session absent and both queues empty. *)
Theorem stop_completes (close_raises : Ctx -> option exn) (self : AudioLoop) :
  consistent self ->
  exists self' tail,
    stop close_raises self = (self', EvSetRunning false :: EvSleep 500 :: tail)
    /\ tail = match session self, _session_ctx self with
              | Some _, Some ctx =>
                  [match close_raises ctx with
                   | None => EvClose ctx
                   | Some _ => EvCloseFailed ctx
                   end]
              | _, _ => []
              end
    /\ is_running self' = false
    /\ session self' = None
    /\ audio_in_queue self' = []
    /\ out_queue self' = [].
Proof.
  intros Hc. unfold consistent in Hc.
  destruct self as [cl [h|] [ctx|] run inq outq sl]; simpl in Hc.
  - unfold stop; simpl. destruct (close_raises ctx);
      eexists _, _; repeat split; simpl; apply drain_empty.
  - destruct Hc as [c Hc]; [eauto | discriminate].
  - unfold stop; simpl. eexists _, _; repeat split; simpl; apply drain_empty.
  - unfold stop; simpl. eexists _, _; repeat split; simpl; apply drain_empty.
Qed.

Lemma stop_completes_witness :
  let self := {| client := 0%nat; session := Some 4%nat; _session_ctx := Some 5%nat;
                 is_running := true; audio_in_queue := [[x01; x02]];
                 out_queue := [{| data := [x03]; mime_type := "audio/pcm" |}];
                 is_serverless := false |} in
  let close_raises := fun _ : Ctx => Some (Exception "different event loop") in
  exists self' tail,
    stop close_raises self = (self', EvSetRunning false :: EvSleep 500 :: tail)
    /\ tail = [EvCloseFailed 5%nat]
    /\ is_running self' = false
    /\ session self' = None
    /\ audio_in_queue self' = []
    /\ out_queue self' = [].
Proof.
  intros self close_raises.
  apply (stop_completes close_raises self).
  intros _. simpl. exists 5%nat. reflexivity.
Defined.

(** [run] on a loop whose three connect attempts all fail: the thread ends
    with the loop Idle (flag false, no session, queues empty). *)
Lemma run_startup_exhausted (stub : Z -> ConnectOutcome)
    (close_raises : Ctx -> option exn) (self : AudioLoop) :
  session self = None ->
  (forall n, failed (stub n) = true) ->
  exists self' tr,
    run_startup stub close_raises self = Some (self', tr, Exited)
    /\ is_running self' = false
    /\ session self' = None
    /\ audio_in_queue self' = []
    /\ out_queue self' = [].
Proof.
  intros Hnone Hall. unfold run_startup.
  destruct (connect_with_retry_returns stub 3 self) as (r & self1 & tr1 & Heq & _).
  rewrite Heq. destruct r.
  - exfalso. clear -Heq Hall. unfold connect_with_retry in Heq.
    change (Z.to_nat 3) with 3%nat in Heq.
    pose proof (Hall 0) as H0. pose proof (Hall 1) as H1. pose proof (Hall 2) as H2.
    destruct (stub 0) eqn:E0; try discriminate;
      destruct (stub 1) eqn:E1; try discriminate;
      destruct (stub 2) eqn:E2; try discriminate;
      cbv in Heq; rewrite E0, E1, E2 in Heq; discriminate.
  - apply connect_loop_failure_keeps in Heq as (Hs & _).
    rewrite Hs, Hnone. cbn [present].
    assert (Hc : consistent (set_is_running false self1)).
    { intros [h Hh]. simpl in Hh. congruence. }
    destruct (stop_completes_aux close_raises (set_is_running false self1) Hc)
      as (self' & tr' & Hstop & Hrun & Hsess & Hin & Hout).
    rewrite Hstop. eexists _, _. split; [reflexivity|]. auto.
Qed.

(** [run] on a loop whose connection succeeds: the loop is Running and the
    duty cycles are created. *)
Lemma run_startup_connected (stub : Z -> ConnectOutcome)
    (close_raises : Ctx -> option exn) (self self' : AudioLoop) (tr : list Event) :
  connect_with_retry stub 3 self = Some (true, self', tr) ->
  run_startup stub close_raises self = Some (self', tr, Looping)
  /\ is_running self' = true.
Proof.
  intros Heq. unfold run_startup. rewrite Heq.
  destruct (connect_loop_success stub 3 _ _ _ _ _ Heq) as [Hrun Hs].
  rewrite Hs. auto.
Qed.

End StopFacts.

(** ** The send loop *)

Section SendFacts.
Import Py Engine.

Lemma enqueued_app (tr1 tr2 : list Event) :
  enqueued (tr1 ++ tr2) = enqueued tr1 ++ enqueued tr2.
Proof. apply omap_app. Qed.

Lemma forwarded_app (tr1 tr2 : list Event) :
  forwarded (tr1 ++ tr2) = forwarded tr1 ++ forwarded tr2.
Proof. apply omap_app. Qed.

Lemma enqueued_offer (content : Frame) (self : AudioLoop) :
  out_queue (offer content self).1 = out_queue self ++ enqueued (offer content self).2
  /\ forwarded (offer content self).2 = []
  /\ is_running (offer content self).1 = is_running self.
Proof.
  unfold offer. destruct (is_running self) eqn:Hr; simpl.
  - auto.
  - rewrite app_nil_r. auto.
Qed.

(** Once the coroutine has returned nothing is forwarded any more. *)
Lemma relay_exited (sched : list Slot) :
  forall self : AudioLoop,
    forwarded (relay sched (self, Exited)).2 = []
    /\ out_queue self ++ enqueued (relay sched (self, Exited)).2
       = out_queue (relay sched (self, Exited)).1.1.
Proof.
  induction sched as [|[content|outcome] sched IH]; intros self.
  - simpl. now rewrite app_nil_r.
  - cbn [relay fst snd].
    destruct (enqueued_offer content self) as (Hq & Hf & _).
    destruct (offer content self) as [self1 tr1]; simpl in Hq, Hf.
    specialize (IH self1).
    destruct (relay sched (self1, Exited)) as [[self2 st2] tr2]; simpl in *.
    rewrite forwarded_app, enqueued_app, Hf. destruct IH as [-> <-].
    rewrite Hq. now rewrite app_assoc.
  - cbn [relay fst snd]. apply IH.
Qed.

(** The invariant of the relay: the frames forwarded so far, the frame a
    failed send took with it, and the frames still queued make up, in this
    order, the frames that entered the queue. *)
Lemma relay_accounting (sched : list Slot) :
  forall (self : AudioLoop) (status : Status),
    exists lost,
      out_queue self ++ enqueued (relay sched (self, status)).2
      = forwarded (relay sched (self, status)).2 ++ lost
        ++ out_queue (relay sched (self, status)).1.1
      /\ (all_sends_succeed sched = true -> lost = []).
Proof.
  induction sched as [|[content|outcome] sched IH]; intros self status.
  - exists []. simpl. now rewrite app_nil_r.
  - cbn [relay fst snd].
    destruct (enqueued_offer content self) as (Hq & Hf & _).
    destruct (offer content self) as [self1 tr1]; simpl in Hq, Hf.
    destruct (IH self1 status) as (lost & Hacc & Hlost).
    destruct (relay sched (self1, status)) as [[self2 st2] tr2]; simpl in *.
    exists lost. split; [|exact Hlost].
    rewrite forwarded_app, enqueued_app, Hf. simpl.
    rewrite app_assoc, <- Hq. exact Hacc.
  - destruct status.
    + cbn [relay fst snd]. unfold send_realtime_pass.
      destruct (is_running self) eqn:Hrun.
      * destruct (out_queue self) as [|content rest] eqn:Hqueue.
        -- destruct (IH self Looping) as (lost & Hacc & Hlost).
           destruct (relay sched (self, Looping)) as [[self2 st2] tr2]; simpl in *.
           exists lost. split; [|intros Hs; apply Hlost; now destruct outcome].
           now rewrite Hqueue in Hacc.
        -- cbn [truthy_frame]. destruct outcome as [e|].
           ++ pose proof (relay_exited sched (set_is_running false (set_out_queue rest self)))
                as [Hf Hq].
              destruct (relay sched (set_is_running false (set_out_queue rest self), Exited))
                as [[self2 st2] tr2]; simpl in *.
              exists [content]. split; [|discriminate].
              rewrite Hf. simpl. now rewrite <- Hq.
           ++ destruct (IH (set_out_queue rest self) Looping) as (lost & Hacc & Hlost).
              destruct (relay sched (set_out_queue rest self, Looping))
                as [[self2 st2] tr2]; simpl in *.
              exists lost. split; [|exact Hlost]. now rewrite Hacc.
      * pose proof (relay_exited sched self) as [Hf Hq].
        destruct (relay sched (self, Exited)) as [[self2 st2] tr2]; simpl in *.
        exists []. split; [|reflexivity]. rewrite Hf. simpl. now rewrite <- Hq.
    + cbn [relay fst snd].
      pose proof (relay_exited sched self) as [Hf Hq].
      exists []. split; [|reflexivity]. rewrite Hf. simpl. exact Hq.
Qed.

Lemma relay_app (s1 s2 : list Slot) :
  forall st : AudioLoop * Status,
    relay (s1 ++ s2) st
    = (let '(st1, tr1) := relay s1 st in
       let '(st2, tr2) := relay s2 st1 in
       (st2, tr1 ++ tr2)).
Proof.
  induction s1 as [|[content|outcome] s1 IH]; intros [self status].
  - simpl. now destruct (relay s2 (self, status)).
  - cbn [app relay fst snd]. destruct (offer content self) as [self1 tr1].
    rewrite IH. destruct (relay s1 (self1, status)) as [st1 tr1'].
    destruct (relay s2 st1) as [st2 tr2]. now rewrite app_assoc.
  - cbn [app relay fst snd]. destruct status.
    + destruct (send_realtime_pass outcome self) as [[self1 tr1] status1].
      rewrite IH. destruct (relay s1 (self1, status1)) as [st1 tr1'].
      destruct (relay s2 st1) as [st2 tr2]. now rewrite app_assoc.
    + apply IH.
Qed.

(** While no send fails the loop stays alive and the flag stays set. *)
Lemma relay_stays_running (sched : list Slot) :
  forall self : AudioLoop,
    all_sends_succeed sched = true -> is_running self = true ->
    (relay sched (self, Looping)).1.2 = Looping
    /\ is_running (relay sched (self, Looping)).1.1 = true.
Proof.
  induction sched as [|[content|outcome] sched IH]; intros self Hs Hrun.
  - auto.
  - cbn [relay fst snd].
    destruct (enqueued_offer content self) as (_ & _ & Hr).
    destruct (offer content self) as [self1 tr1]; simpl in Hr.
    specialize (IH self1 Hs ltac:(congruence)).
    now destruct (relay sched (self1, Looping)) as [[self2 st2] tr2].
  - destruct outcome as [e|]; [discriminate|].
    cbn [relay fst snd]. unfold send_realtime_pass. rewrite Hrun.
    destruct (out_queue self) as [|content rest]; cbn [truthy_frame].
    + specialize (IH self Hs Hrun).
      now destruct (relay sched (self, Looping)) as [[self2 st2] tr2].
    + specialize (IH (set_out_queue rest self) Hs Hrun).
      now destruct (relay sched (set_out_queue rest self, Looping)) as [[self2 st2] tr2].
Qed.

(** As many successful passes as there are frames queued forward them all. *)
Lemma relay_flush :
  forall (queue : list Frame) (self : AudioLoop),
    is_running self = true -> out_queue self = queue ->
    forwarded (relay (replicate (length queue) (SendPass None)) (self, Looping)).2 = queue
    /\ enqueued (relay (replicate (length queue) (SendPass None)) (self, Looping)).2 = [].
Proof.
  induction queue as [|content rest IH]; intros self Hrun Hqueue.
  - auto.
  - cbn [length replicate relay fst snd]. unfold send_realtime_pass.
    rewrite Hrun, Hqueue. cbn [truthy_frame].
    destruct (IH (set_out_queue rest self) Hrun eq_refl) as [Hf He].
    destruct (relay (replicate (length rest) (SendPass None))
                (set_out_queue rest self, Looping)) as [[self2 st2] tr2].
    simpl in *. now rewrite Hf, He.
Qed.

(** [send_realtime] run on its own is the relay with no client put: same
    final loop, same trace. *)
Lemma send_realtime_passes_relay (outcomes : list (option exn)) :
  forall self : AudioLoop,
    (send_realtime_passes outcomes self).1
    = ((relay (SendPass <$> outcomes) (self, Looping)).1.1,
       (relay (SendPass <$> outcomes) (self, Looping)).2).
Proof.
  assert (Hex : forall l s, relay (SendPass <$> l) (s, Exited) = ((s, Exited), [])).
  { induction l as [|o l IHl]; intros s; [reflexivity | apply IHl]. }
  induction outcomes as [|outcome rest IH]; intros self; [reflexivity|].
  cbn [send_realtime_passes fmap list_fmap relay fst snd].
  destruct (send_realtime_pass outcome self) as [[self1 tr1] [|]].
  - specialize (IH self1).
    destruct (send_realtime_passes rest self1) as [[self2 tr2] status2].
    destruct (relay (SendPass <$> rest) (self1, Looping)) as [[self3 status3] tr3].
    simpl in *. congruence.
  - rewrite Hex. simpl. now rewrite app_nil_r.
Qed.

(** C7: whatever the interleaving of client puts and passes of the send
    loop, the frames forwarded upstream are an initial segment of the frames
    that entered the outbound queue, in the order they entered it, so none is
    forwarded twice or out of turn. While no send fails, the frames that
    entered are exactly those forwarded followed by those still queued, and
    one more pass per queued frame forwards them all. *)
Theorem send_loop_fifo (sched : list Slot) (self : AudioLoop) (status : Status) :
  let result := relay sched (self, status) in
  let accepted := out_queue self ++ enqueued result.2 in
  forwarded result.2 `prefix_of` accepted
  /\ (all_sends_succeed sched = true ->
      accepted = forwarded result.2 ++ out_queue result.1.1)
  /\ (all_sends_succeed sched = true -> is_running self = true -> status = Looping ->
      let flushed :=
        relay (sched ++ replicate (length (out_queue result.1.1)) (SendPass None))
              (self, status) in
      forwarded flushed.2 = out_queue self ++ enqueued flushed.2).
Proof.
  cbv zeta.
  destruct (relay_accounting sched self status) as (lost & Hacc & Hlost).
  split; [|split].
  - rewrite Hacc. now exists (lost ++ out_queue (relay sched (self, status)).1.1).
  - intros Hs. rewrite Hacc, (Hlost Hs). reflexivity.
  - intros Hs Hrun ->. rewrite (Hlost Hs) in Hacc. simpl in Hacc.
    destruct (relay_stays_running sched self Hs Hrun) as [Hst Hrun'].
    rewrite relay_app.
    destruct (relay sched (self, Looping)) as [[self1 status1] tr1].
    simpl in Hacc, Hst, Hrun' |- *. subst status1.
    destruct (relay_flush (out_queue self1) self1 Hrun' eq_refl) as [Hf He].
    destruct (relay (replicate (length (out_queue self1)) (SendPass None))
                (self1, Looping)) as [st2 tr2].
    simpl in Hf, He |- *.
    now rewrite forwarded_app, enqueued_app, Hf, He, app_nil_r.
Qed.

Lemma send_loop_fifo_witness :
  let f1 := {| data := [x01]; mime_type := "audio/pcm" |} in
  let f2 := {| data := [x02]; mime_type := "audio/pcm" |} in
  let f3 := {| data := [x03]; mime_type := "audio/pcm" |} in
  let self := {| client := 0%nat; session := Some 1%nat; _session_ctx := Some 2%nat;
                 is_running := true; audio_in_queue := []; out_queue := [f1];
                 is_serverless := false |} in
  let sched := [ClientPut f2; SendPass None; ClientPut f3] in
  forwarded (relay sched (self, Looping)).2 = [f1]
  /\ forwarded (relay (sched ++ [SendPass None; SendPass None]) (self, Looping)).2
     = [f1; f2; f3].
Proof.
  intros f1 f2 f3 self sched.
  split; [reflexivity|].
  exact (proj2 (proj2 (send_loop_fifo sched self Looping)) eq_refl eq_refl eq_refl).
Defined.

End SendFacts.

(** ** The receive loop *)

Section ReceiveFacts.
Import Py Engine.

Lemma put_responses_flag (rs : list (option (list byte))) :
  forall self : AudioLoop,
    is_running (put_responses rs self) = is_running self
    /\ session (put_responses rs self) = session self.
Proof.
  induction rs as [|[data|] rs IH]; intros self; cbn [put_responses]; [auto| |apply IH].
  destruct (truthy_bytes data); [|apply IH].
  destruct (IH (set_audio_in_queue (audio_in_queue self ++ [data]) self)) as [-> ->].
  auto.
Qed.

(** A timeout: one second of sleep, the loop goes on, the flag is untouched. *)
Lemma receive_pass_timeout (turn : Turn) (e : exn) (self : AudioLoop) :
  is_running self = true -> ending turn = TurnRaises e -> is_timeout e = true ->
  receive_audio_pass turn self
  = (put_responses (responses turn) self, [EvReceive; EvSleep 1000], Looping)
  /\ is_running (put_responses (responses turn) self) = true.
Proof.
  intros Hrun Hend Ht. unfold receive_audio_pass. rewrite Hrun, Hend, Ht.
  split; [reflexivity|]. now rewrite (proj1 (put_responses_flag _ _)).
Qed.

(** Any other exception: the [break] leaves the [while] loop, the coroutine
    returns, and nothing has written the flag. *)
Lemma receive_pass_break (turn : Turn) (e : exn) (self : AudioLoop) :
  is_running self = true -> ending turn = TurnRaises e -> is_timeout e = false ->
  receive_audio_pass turn self
  = (put_responses (responses turn) self, [EvReceive], Exited)
  /\ is_running (put_responses (responses turn) self) = true.
Proof.
  intros Hrun Hend Ht. unfold receive_audio_pass. rewrite Hrun, Hend, Ht.
  split; [reflexivity|]. now rewrite (proj1 (put_responses_flag _ _)).
Qed.

(** The sibling loop does clear the flag when its upstream call raises. *)
Lemma send_pass_failure_clears_flag (e : exn) (content : Frame) (rest : list Frame)
    (self : AudioLoop) :
  is_running self = true -> out_queue self = content :: rest ->
  exists self',
    send_realtime_pass (Some e) self
    = (self', [EvSendFailed content; EvSetRunning false], Exited)
    /\ is_running self' = false.
Proof.
  intros Hrun Hq. unfold send_realtime_pass. rewrite Hrun, Hq. cbn [truthy_frame].
  eexists. split; reflexivity.
Qed.

(** C2, on the code: when a turn of a Running loop raises an exception whose
    message names no timeout, [receive_audio] leaves its loop through
    [break]: the coroutine has returned and the running flag is still true,
    no event having written it (the claim has it cleared). When the message
    names a timeout the loop sleeps one second and goes on, the flag
    untouched. *)
Theorem receive_audio_error_paths (turn : Turn) (e : exn) (self : AudioLoop) :
  is_running self = true ->
  present (session self) = true ->
  ending turn = TurnRaises e ->
  (is_timeout e = false ->
   receive_audio [turn] self
   = (put_responses (responses turn) self, [EvReceive], Exited)
   /\ is_running (receive_audio [turn] self).1.1 = true)
  /\ (is_timeout e = true ->
      receive_audio [turn] self
      = (put_responses (responses turn) self, [EvReceive; EvSleep 1000], Looping)
      /\ is_running (receive_audio [turn] self).1.1 = true).
Proof.
  intros Hrun Hsess Hend.
  assert (Henter : enter self = (self, [], Looping))
    by (unfold enter; now rewrite Hrun, Hsess).
  unfold receive_audio. rewrite Henter. cbn [receive_audio_passes].
  split; intros Ht.
  - destruct (receive_pass_break turn e self Hrun Hend Ht) as [-> Hflag].
    split; [reflexivity | exact Hflag].
  - destruct (receive_pass_timeout turn e self Hrun Hend Ht) as [-> Hflag].
    split; [reflexivity | exact Hflag].
Qed.

Lemma receive_audio_error_paths_witness :
  let self := {| client := 0%nat; session := Some 1%nat; _session_ctx := Some 2%nat;
                 is_running := true; audio_in_queue := []; out_queue := [];
                 is_serverless := false |} in
  let fatal := {| responses := [Some [x01; x02]];
                  ending := TurnRaises (Exception "connection reset by peer") |} in
  let slow := {| responses := [];
                 ending := TurnRaises (Exception "Read Timeout on stream") |} in
  (receive_audio [fatal] self
   = (set_audio_in_queue [[x01; x02]] self, [EvReceive], Exited)
   /\ is_running (receive_audio [fatal] self).1.1 = true)
  /\ (receive_audio [slow] self = (self, [EvReceive; EvSleep 1000], Looping)
      /\ is_running (receive_audio [slow] self).1.1 = true).
Proof.
  intros self fatal slow. split.
  - apply (proj1 (receive_audio_error_paths fatal
                    (Exception "connection reset by peer") self
                    eq_refl eq_refl eq_refl)).
    reflexivity.
  - apply (proj2 (receive_audio_error_paths slow
                    (Exception "Read Timeout on stream") self
                    eq_refl eq_refl eq_refl)).
    reflexivity.
Defined.

End ReceiveFacts.

(** ** The broadcast loop *)

Section BroadcastFacts.
Import Py Engine.

Lemma delivered_sent (message : WsMessage) (c : nat) (tr : list Event) :
  delivered message (EvWsSend c message :: tr) = c :: delivered message tr.
Proof.
  unfold delivered. simpl. now rewrite bool_decide_eq_true_2 by reflexivity.
Qed.

Lemma delivered_failed (message : WsMessage) (c : nat) (tr : list Event) :
  delivered message (EvWsSendFailed c message :: tr) = delivered message tr.
Proof. reflexivity. Qed.

Lemma delivered_broadcast (ws_send : nat -> option exn) (message : WsMessage)
    (clients : list nat) (ws : nat) :
  ws ∈ delivered message (broadcast ws_send clients message)
  <-> ws ∈ clients /\ ws_send ws = None.
Proof.
  induction clients as [|c clients IH]; cbn [broadcast].
  - split; [intros H|intros [H _]]; inversion H.
  - destruct (ws_send c) eqn:Hc.
    + rewrite delivered_failed, IH. split.
      * intros [Hin Hs]. split; [now right | exact Hs].
      * intros [Hin Hs]. split; [|exact Hs].
        apply elem_of_cons in Hin as [->|Hin]; [congruence | exact Hin].
    + rewrite delivered_sent, elem_of_cons, IH. split.
      * intros [->|[Hin Hs]]; [split; [now left | exact Hc] | split; [now right | exact Hs]].
      * intros [Hin Hs]. apply elem_of_cons in Hin as [->|Hin]; [now left | now right].
Qed.

Lemma delivered_broadcast_NoDup (ws_send : nat -> option exn) (message : WsMessage)
    (clients : list nat) :
  NoDup clients -> NoDup (delivered message (broadcast ws_send clients message)).
Proof.
  induction 1 as [|c clients Hnotin Hnd IH]; cbn [broadcast].
  - constructor.
  - destruct (ws_send c) eqn:Hc; [now rewrite delivered_failed|].
    rewrite delivered_sent. constructor; [|exact IH].
    intros Hin. apply (delivered_broadcast ws_send message clients c) in Hin.
    now destruct Hin.
Qed.

Lemma delivered_sleep (message : WsMessage) (tr : list Event) :
  delivered message (tr ++ [EvSleep 10]) = delivered message tr.
Proof. unfold delivered. rewrite omap_app. simpl. apply app_nil_r. Qed.

(** C9: one pass of the broadcast loop over a non-empty chunk delivers the
    envelope to exactly the registered clients whose [send] does not raise,
    once each, whatever the other clients' sends do, and leaves the registry
    as it found it. With three registered clients of which one fails, the
    chunk reaches the other two. *)
Theorem broadcast_fanout (ws_send : nat -> option exn) (ws_clients : gset nat)
    (audio_data : list byte) (rest : list (list byte)) (self : AudioLoop) :
  is_running self = true ->
  audio_in_queue self = audio_data :: rest ->
  audio_data <> [] ->
  Z.of_nat (length audio_data) <= 2 ^ 32 - 37 ->
  exists wav_data tr,
    Wav.frame_pcm audio_data = inr wav_data
    /\ play_audio_pass ws_send ws_clients self
       = (set_audio_in_queue rest self, ws_clients, tr, Looping)
    /\ (forall ws,
          ws ∈ delivered (AudioEnvelope wav_data) tr
          <-> ws ∈ ws_clients /\ ws_send ws = None)
    /\ NoDup (delivered (AudioEnvelope wav_data) tr)
    /\ (forall a b c e,
          a <> b -> a <> c -> b <> c ->
          ws_clients = {[a; b; c]} ->
          ws_send a = Some e -> ws_send b = None -> ws_send c = None ->
          delivered (AudioEnvelope wav_data) tr ≡ₚ [b; c]).
Proof.
  change (2 ^ 32 - 37) with 4294967259. intros Hrun Hq Hne HL.
  pose (wav_data := Wav.header_24k_mono16 (Z.of_nat (length audio_data)) ++ audio_data).
  assert (Hframe : Wav.frame_pcm audio_data = inr wav_data)
    by (apply frame_pcm_fits; lia).
  assert (Htruthy : truthy_bytes audio_data = true)
    by (destruct audio_data; [congruence | reflexivity]).
  assert (exists tr,
    play_audio_pass ws_send ws_clients self
    = (set_audio_in_queue rest self, ws_clients, tr, Looping)
    /\ (forall ws, ws ∈ delivered (AudioEnvelope wav_data) tr
                  <-> ws ∈ ws_clients /\ ws_send ws = None)
    /\ NoDup (delivered (AudioEnvelope wav_data) tr)) as (tr & Hpass & Hmem & Hnd).
  { unfold play_audio_pass. rewrite Hrun, Hq, Htruthy. cbn [andb].
    case_bool_decide as Hempty; cbn [negb].
    - exists [EvSleep 10]. split; [reflexivity|]. split; [|constructor].
      intros ws. subst ws_clients. split; [intros H; inversion H|].
      intros [H _]. now apply not_elem_of_empty in H.
    - rewrite Hframe. eexists. split; [reflexivity|]. rewrite delivered_sleep. split.
      + intros ws. rewrite delivered_broadcast. now rewrite elem_of_elements.
      + apply delivered_broadcast_NoDup, NoDup_elements. }
  exists wav_data, tr. repeat (split; [assumption|]).
  intros a b c e Hab Hac Hbc -> Ha Hb Hc.
  apply NoDup_Permutation; [exact Hnd | |].
  - apply NoDup_cons. split; [|apply NoDup_singleton].
    rewrite list_elem_of_singleton. exact Hbc.
  - intros ws. rewrite Hmem, !elem_of_union, !elem_of_singleton.
    rewrite elem_of_cons, list_elem_of_singleton. split.
    + intros [[[->| ->]| ->] Hs]; [congruence | now left | now right].
    + intros [->| ->]; (split; [|assumption]); [left; now right | now right].
Qed.

Lemma broadcast_fanout_witness :
  let self := {| client := 0%nat; session := Some 1%nat; _session_ctx := Some 2%nat;
                 is_running := true; audio_in_queue := [[x01; x02]]; out_queue := [];
                 is_serverless := false |} in
  let ws_send := fun ws : nat =>
                   if (ws =? 2)%nat then Some (Exception "socket closed") else None in
  exists wav_data tr,
    play_audio_pass ws_send {[2%nat; 1%nat; 3%nat]} self
    = (set_audio_in_queue [] self, {[2%nat; 1%nat; 3%nat]}, tr, Looping)
    /\ delivered (AudioEnvelope wav_data) tr ≡ₚ [1%nat; 3%nat].
Proof.
  intros self ws_send.
  destruct (broadcast_fanout ws_send {[2%nat; 1%nat; 3%nat]} [x01; x02] [] self)
    as (wav_data & tr & _ & Hpass & _ & _ & Hthree).
  - reflexivity.
  - reflexivity.
  - discriminate.
  - vm_compute. discriminate.
  - exists wav_data, tr. split; [exact Hpass|].
    apply (Hthree 2%nat 1%nat 3%nat (Exception "socket closed")); try reflexivity; lia.
Defined.

End BroadcastFacts.

(** ** The session manager *)

Section ManagerFacts.
Import Py Engine Server.

(** Past the connect phase nothing sets the running flag again. *)
Lemma serving_step_stays_stopped (self self' : AudioLoop) :
  serving_step self self' -> is_running self = false -> is_running self' = false.
Proof.
  intros Hstep Hrun. destruct Hstep as [self|o self|t self|self|w c self|f self|cr self].
  - unfold enter. now destruct (negb (present (session self)) || negb (is_running self))%bool.
  - unfold send_realtime_pass. now rewrite Hrun.
  - unfold receive_audio_pass. now rewrite Hrun.
  - unfold listen_audio_pass. now rewrite Hrun.
  - unfold play_audio_pass. now rewrite Hrun.
  - unfold offer. now rewrite Hrun.
  - apply stop_flag_cleared.
Qed.

Lemma serving_steps_stay_stopped (self self' : AudioLoop) :
  rtc serving_step self self' -> is_running self = false -> is_running self' = false.
Proof.
  induction 1 as [|x y z Hstep _ IH]; [auto|].
  intros Hrun. apply IH. eapply serving_step_stays_stopped; eauto.
Qed.

(** ... nor parts a held session from its context manager. *)
Lemma serving_step_consistent (self self' : AudioLoop) :
  serving_step self self' -> consistent self -> consistent self'.
Proof.
  intros Hstep Hc. destruct Hstep as [self|o self|t self|self|w c self|f self|cr self].
  - unfold enter. now destruct (negb (present (session self)) || negb (is_running self))%bool.
  - unfold send_realtime_pass. destruct (is_running self); [|exact Hc].
    destruct (out_queue self) as [|content rest]; [exact Hc|].
    cbn [truthy_frame]. now destruct o.
  - unfold receive_audio_pass. destruct (is_running self); [|exact Hc].
    assert (consistent (put_responses (responses t) self)) as Hput.
    { clear -Hc. revert self Hc.
      induction (responses t) as [|[data|] rs IH]; intros self Hc;
        cbn [put_responses]; [exact Hc| |now apply IH].
      destruct (truthy_bytes data); now apply IH. }
    destruct (ending t) as [| |e]; [exact Hput | exact Hput|].
    now destruct (is_timeout e).
  - unfold listen_audio_pass. now destruct (is_running self).
  - unfold play_audio_pass. destruct (is_running self); [|exact Hc].
    destruct (audio_in_queue self) as [|audio_data rest]; [exact Hc|].
    destruct (truthy_bytes audio_data && negb (bool_decide (c = ∅)))%bool; [|exact Hc].
    now destruct (Wav.frame_pcm audio_data).
  - unfold offer. now destruct (is_running self).
  - now apply stop_consistent.
Qed.

Lemma offer_consistent (content : Frame) (self : AudioLoop) :
  consistent self -> consistent (offer content self).1.
Proof. unfold offer. now destruct (is_running self). Qed.

Lemma stop_loop_lookup (env : Env) (id : nat) (obj : AudioLoop) (st : State) :
  heap st !! id = Some obj ->
  stop_loop env id st
  = (set_heap (<[id := (stop (close_raises env) obj).1]> (heap st)) st,
     EvLoop id <$> (stop (close_raises env) obj).2).
Proof.
  intros Hobj. unfold stop_loop. rewrite Hobj.
  now destruct (stop (close_raises env) obj).
Qed.

Lemma well_formed_initial (env : Env) : well_formed env initial.
Proof.
  split; simpl.
  - discriminate.
  - reflexivity.
  - intros id obj H. now rewrite lookup_empty in H.
Qed.

Lemma well_formed_not_serverless (env : Env) (st : State) (id : nat) :
  well_formed env st -> audio_loop st = Some id -> IN_VERCEL env = false.
Proof.
  intros Hwf Hloop. destruct (IN_VERCEL env) eqn:Hv; [|reflexivity].
  rewrite (wf_serverless _ _ Hwf Hv) in Hloop. discriminate.
Qed.

(** Well-formedness reads the heap and the global [audio_loop] only. *)
Lemma well_formed_ext (env : Env) (st st' : State) :
  heap st' = heap st -> audio_loop st' = audio_loop st ->
  well_formed env st -> well_formed env st'.
Proof.
  intros Hh Hl [Ha Hs Hc]. split; rewrite ?Hh, ?Hl; assumption.
Qed.

Lemma well_formed_store (env : Env) (st : State) (id : nat) (obj : AudioLoop) :
  well_formed env st -> is_Some (heap st !! id) -> consistent obj ->
  well_formed env (set_heap (<[id := obj]> (heap st)) st).
Proof.
  intros [Ha Hs Hc] Hid Hobj. split; simpl.
  - intros id' Hl. destruct (decide (id = id')) as [->|Hne].
    + rewrite lookup_insert_eq. eauto.
    + rewrite lookup_insert_ne by exact Hne. auto.
  - exact Hs.
  - intros id' obj' Hl. destruct (decide (id = id')) as [->|Hne].
    + rewrite lookup_insert_eq in Hl. now injection Hl as <-.
    + rewrite lookup_insert_ne in Hl by exact Hne. eauto.
Qed.

Lemma well_formed_forget (env : Env) (st : State) :
  well_formed env st -> well_formed env (set_audio_loop None st).
Proof.
  intros [Ha Hs Hc]. split; simpl; [discriminate | reflexivity | exact Hc].
Qed.

Lemma well_formed_stop_loop (env : Env) (id : nat) (st : State) :
  well_formed env st -> well_formed env (stop_loop env id st).1.
Proof.
  intros Hwf. unfold stop_loop. destruct (heap st !! id) as [obj|] eqn:Hobj; [|exact Hwf].
  pose proof (stop_consistent (close_raises env) obj (wf_consistent _ _ Hwf _ _ Hobj)) as Hc.
  destruct (stop (close_raises env) obj) as [obj' tr]. simpl in *.
  apply well_formed_store; eauto.
Qed.

Lemma well_formed_offer_frame (env : Env) (content : Frame) (st : State) :
  well_formed env st -> well_formed env (offer_frame content st).1.
Proof.
  intros Hwf. unfold offer_frame. destruct (audio_loop st) as [id|]; [|exact Hwf].
  destruct (heap st !! id) as [obj|] eqn:Hobj; [|exact Hwf].
  pose proof (offer_consistent content obj (wf_consistent _ _ Hwf _ _ Hobj)) as Hc.
  destruct (offer content obj) as [obj' tr]. simpl in *.
  apply well_formed_store; eauto.
Qed.

Lemma well_formed_assign (env : Env) (st : State) (created : option AudioLoop) :
  well_formed env st ->
  create_audio_loop env = inr created ->
  well_formed env (start_thread (assign_audio_loop created st).1).1.
Proof.
  intros [Ha Hs Hc] Hcreate. unfold create_audio_loop, ret in Hcreate.
  destruct (IN_VERCEL env) eqn:Hv.
  - assert (created = None) as -> by congruence.
    split; simpl; [discriminate | reflexivity | exact Hc].
  - destruct (genai_Client env) as [e|client]; cbn [bind] in Hcreate; [discriminate|].
    assert (created = Some (__init__ client (VERCEL_is_1 env))) as -> by congruence.
    split; simpl.
    + intros id [= <-]. rewrite lookup_insert_eq. eauto.
    + congruence.
    + intros id obj Hl.
      destruct (decide (fresh (dom (heap st)) = id)) as [<-|Hne].
      * rewrite lookup_insert_eq in Hl. injection Hl as <-. apply consistent_init.
      * rewrite lookup_insert_ne in Hl by exact Hne. eauto.
Qed.

Lemma well_formed_teardown (env : Env) (st : State) :
  well_formed env st -> well_formed env (teardown_existing env st).1.
Proof.
  intros Hwf. unfold teardown_existing. destruct (audio_loop st) as [id|]; [|exact Hwf].
  pose proof (well_formed_stop_loop env id st Hwf) as Hwf1.
  destruct (stop_loop env id st) as [st1 tr1]. simpl in *.
  eapply well_formed_ext; [| |apply (well_formed_forget env st1 Hwf1)]; reflexivity.
Qed.

Lemma well_formed_launch (env : Env) (request : Request) (st : State) :
  well_formed env st -> well_formed env (launch env request st).1.2.
Proof.
  intros Hwf. unfold launch.
  destruct (create_audio_loop env) as [e|created] eqn:Hcreate; [exact Hwf|].
  pose proof (well_formed_assign env st created Hwf Hcreate) as Hwf1.
  destruct (assign_audio_loop created st) as [st1 tr1].
  unfold start_thread in *. exact Hwf1.
Qed.

(** The three handlers keep the globals well formed. *)
Lemma well_formed_start_voice (env : Env) (request : Request) (st : State) :
  well_formed env st -> well_formed env (start_voice env request st).1.2.
Proof.
  intros Hwf. unfold start_voice. destruct (method request); [|exact Hwf].
  destruct (IN_VERCEL env); [exact Hwf|].
  pose proof (well_formed_teardown env st Hwf) as Hwf1.
  destruct (teardown_existing env st) as [st1 tr1]. simpl in Hwf1.
  pose proof (well_formed_launch env request st1 Hwf1) as Hwf2.
  now destruct (launch env request st1) as [[response st2] tr2].
Qed.

Lemma well_formed_terminate_voice (env : Env) (request : Request) (st : State) :
  well_formed env st -> well_formed env (terminate_voice env request st).1.2.
Proof.
  intros Hwf. unfold terminate_voice. destruct (method request); [|exact Hwf].
  destruct (IN_VERCEL env); [exact Hwf|].
  destruct (audio_loop st) as [id|]; [|exact Hwf].
  pose proof (well_formed_stop_loop env id st Hwf) as Hwf1.
  destruct (stop_loop env id st) as [st1 tr1]. simpl in *.
  eapply well_formed_ext; [| |apply (well_formed_forget env st1 Hwf1)]; reflexivity.
Qed.

Lemma well_formed_on_message (env : Env) (message : Received) (st st' : State)
    (tr : list Server.Event) :
  well_formed env st -> on_message env message st = inr (st', tr) -> well_formed env st'.
Proof.
  intros Hwf. unfold on_message, ret, raise.
  assert (Hoffer : forall content,
             inr (offer_frame content st) = @inr exn _ (st', tr) -> well_formed env st').
  { intros content [= Heq].
    pose proof (well_formed_offer_frame env content st Hwf) as H.
    now rewrite Heq in H. }
  destruct message as [|[type_ data_ format_ command_|]|raw|e]; try congruence.
  - case_bool_decide as Haudio.
    + destruct data_ as [[e|audio_bytes]|]; try congruence. apply Hoffer.
    + case_bool_decide as Hcontrol; [|congruence].
      case_bool_decide as Hstop; [|congruence].
      destruct (audio_loop st) as [id|]; [|congruence].
      intros [= Heq]. pose proof (well_formed_stop_loop env id st Hwf) as H.
      now rewrite Heq in H.
  - apply Hoffer.
Qed.

Lemma well_formed_receive_messages (env : Env) (script : list Received) :
  forall st : State,
    well_formed env st -> well_formed env (receive_messages env script st).1.
Proof.
  induction script as [|message script IH]; intros st Hwf; [exact Hwf|].
  cbn [receive_messages].
  destruct (on_message env message st) as [e|[st1 tr1]] eqn:Hmsg; [exact Hwf|].
  apply well_formed_on_message in Hmsg; [|exact Hwf].
  specialize (IH st1 Hmsg). now destruct (receive_messages env script st1).
Qed.

Lemma well_formed_audio_stream_socket (env : Env) (ws : nat) (script : list Received)
    (st : State) :
  well_formed env st -> well_formed env (audio_stream_socket env ws script st).1.
Proof.
  intros Hwf. unfold audio_stream_socket.
  assert (Hreg : well_formed env (register ws st))
    by (eapply well_formed_ext; [| |exact Hwf]; reflexivity).
  assert (Hun : forall st0, well_formed env st0 -> well_formed env (unregister ws st0)).
  { intros st0 H0. unfold unregister. case_bool_decide; [|exact H0].
    eapply well_formed_ext; [| |exact H0]; reflexivity. }
  unfold implicit_start.
  destruct (negb (has_loop (register ws st)) || negb (loop_is_running (register ws st)))%bool.
  - destruct (negb (has_loop (register ws st))).
    + destruct (create_audio_loop env) as [e|created] eqn:Hcreate; cbn [bind].
      * now apply Hun.
      * pose proof (well_formed_assign env _ created Hreg Hcreate) as Hwf1.
        destruct (assign_audio_loop created (register ws st)) as [st1 tr1].
        unfold start_thread, ret in *. cbn [fst snd] in Hwf1 |- *.
        pose proof (well_formed_receive_messages env script _ Hwf1) as Hwf2.
        destruct (receive_messages env script _). now apply Hun.
    + unfold ret.
      pose proof (well_formed_receive_messages env script _ Hreg) as Hwf2.
      destruct (receive_messages env script (register ws st)). now apply Hun.
  - unfold ret.
    pose proof (well_formed_receive_messages env script _ Hreg) as Hwf2.
    destruct (receive_messages env script (register ws st)). now apply Hun.
Qed.

Lemma running_store_stopped (st : State) (old : nat) (stopped : AudioLoop) (id : nat) :
  is_running stopped = false ->
  running (set_heap (<[old := stopped]> (heap st)) st) id ->
  running st id /\ id <> old.
Proof.
  intros Hstopped (obj & Hobj & Hrun). simpl in Hobj.
  destruct (decide (old = id)) as [->|Hne].
  - rewrite lookup_insert_eq in Hobj. congruence.
  - rewrite lookup_insert_ne in Hobj by exact Hne. split; [now exists obj | congruence].
Qed.

(** X21: a [POST /start_voice] that finds a session object whose loop
    is Running takes the session lock, runs [stop] on the old loop (its flag
    false and its session released from then on, whatever its duty cycles
    still do), joins the old thread for at most 2 s if it is alive, forgets
    both globals, sleeps 500 ms, and only then launches: when the client
    cannot be constructed nothing is created and the answer is the error
    body; otherwise the new loop is allocated at a fresh address, its thread
    is started and the answer is "started"; then the lock is given back. The
    call sets no running flag: a loop that is Running after the teardown or
    after the launch was Running before the call, and the old one is not. *)
Theorem start_voice_replaces_session (env : Env) (request : Request) (st : State)
    (old : nat) :
  well_formed env st ->
  method request = POST ->
  audio_loop st = Some old ->
  loop_is_running st = true ->
  exists old_obj stopped tr_stop st_mid response st' tr_launch,
    heap st !! old = Some old_obj
    /\ stop (close_raises env) old_obj = (stopped, tr_stop)
    /\ is_running stopped = false
    /\ session stopped = None
    /\ (forall later, rtc serving_step stopped later -> is_running later = false)
    /\ teardown_existing env st
       = (st_mid,
          (EvLoop old <$> tr_stop)
          ++ (match audio_thread st with
              | Some t => if thread_is_alive env t then [EvJoin t 2000] else []
              | None => []
              end)
          ++ [EvTimeSleep 500])
    /\ heap st_mid = <[old := stopped]> (heap st)
    /\ audio_loop st_mid = None
    /\ audio_thread st_mid = None
    /\ launch env request st_mid = (response, st', tr_launch)
    /\ start_voice env request st
       = (response, st',
          [EvLockAcquire]
          ++ ((EvLoop old <$> tr_stop)
              ++ (match audio_thread st with
                  | Some t => if thread_is_alive env t then [EvJoin t 2000] else []
                  | None => []
                  end)
              ++ [EvTimeSleep 500])
          ++ tr_launch ++ [EvLockRelease])
    /\ (forall e,
          genai_Client env = inl e ->
          tr_launch = [] /\ st' = st_mid
          /\ response
             = Jsonify (JObj [("status", JStr "error"); ("message", JStr (str e))]))
    /\ (forall client,
          genai_Client env = inr client ->
          exists new,
            (new ∉ dom (heap st)) /\ new <> old
            /\ tr_launch = [EvCreate new; EvThreadStart (ThreadObj (Some new))]
            /\ audio_loop st' = Some new
            /\ audio_thread st' = Some (ThreadObj (Some new))
            /\ heap st' = <[new := __init__ client (VERCEL_is_1 env)]> (heap st_mid)
            /\ ws_clients st' = ws_clients st
            /\ response
               = Jsonify (JObj [("status", JStr "started");
                                ("websocket",
                                 JObj [("url", JStr (websocket_url request));
                                       ("protocol", JStr "audio-stream")])]))
    /\ (forall id, running st_mid id -> running st id /\ id <> old)
    /\ (forall id, running st' id -> running st id /\ id <> old).
Proof.
  intros Hwf Hpost Hloop Hrun.
  pose proof (well_formed_not_serverless env st old Hwf Hloop) as Hv.
  destruct (wf_allocated _ _ Hwf old Hloop) as [old_obj Hobj].
  pose proof (wf_consistent _ _ Hwf old old_obj Hobj) as Hcons.
  pose proof (stop_flag_cleared (close_raises env) old_obj) as Hflag.
  pose proof (stop_session_released (close_raises env) old_obj Hcons) as Hsess.
  destruct (stop (close_raises env) old_obj) as [stopped tr_stop] eqn:Hstop.
  simpl in Hflag, Hsess.
  assert (Hteardown : teardown_existing env st
    = (set_audio_thread None (set_audio_loop None
         (set_heap (<[old := stopped]> (heap st)) st)),
       (EvLoop old <$> tr_stop)
       ++ (match audio_thread st with
           | Some t => if thread_is_alive env t then [EvJoin t 2000] else []
           | None => []
           end)
       ++ [EvTimeSleep 500])).
  { unfold teardown_existing. rewrite Hloop, (stop_loop_lookup env old old_obj st Hobj).
    rewrite Hstop. unfold join_thread. simpl. now rewrite <- app_assoc. }
  set (st_mid := set_audio_thread None (set_audio_loop None
                   (set_heap (<[old := stopped]> (heap st)) st))) in *.
  assert (Hmid : forall id, running st_mid id -> running st id /\ id <> old)
    by (intros id; apply (running_store_stopped st old stopped id Hflag)).
  destruct (launch env request st_mid) as [[response st'] tr_launch] eqn:Hlaunch.
  exists old_obj, stopped, tr_stop, st_mid, response, st', tr_launch.
  split; [exact Hobj|]. split; [exact Hstop|]. split; [exact Hflag|].
  split; [exact Hsess|].
  split; [intros later Hsteps; now apply (serving_steps_stay_stopped stopped later)|].
  split; [exact Hteardown|]. split; [reflexivity|]. split; [reflexivity|].
  split; [reflexivity|]. split; [exact Hlaunch|].
  split.
  { unfold start_voice. rewrite Hpost, Hv, Hteardown, Hlaunch. reflexivity. }
  unfold launch, create_audio_loop in Hlaunch. rewrite Hv in Hlaunch.
  destruct (genai_Client env) as [e|client]; cbn [bind ret] in Hlaunch.
  - injection Hlaunch as <- <- <-.
    split; [intros e0 He; assert (e0 = e) as -> by congruence; auto|].
    split; [intros c Hc; congruence|]. split; exact Hmid.
  - cbn [assign_audio_loop start_thread] in Hlaunch. injection Hlaunch as <- <- <-.
    set (new := fresh (dom (heap st_mid))).
    assert (Hfresh : new ∉ dom (heap st_mid)) by apply is_fresh.
    assert (Hdom : dom (heap st_mid) = dom (heap st)).
    { subst st_mid. simpl. rewrite dom_insert_L.
      assert (old ∈ dom (heap st)) by (apply elem_of_dom; eauto).
      apply set_eq. intros x. rewrite elem_of_union, elem_of_singleton.
      split; [intros [->|Hx]; assumption | now right]. }
    assert (Hnew_old : new <> old).
    { intros Heq. apply Hfresh. rewrite Heq, Hdom. apply elem_of_dom. eauto. }
    split; [intros e0 He; congruence|]. split.
    + intros c Hc. assert (c = client) as -> by congruence.
      exists new. rewrite <- Hdom.
      split; [exact Hfresh|]. split; [exact Hnew_old|]. repeat split.
    + split; [exact Hmid|].
      intros id (obj & Hl & Hr). simpl in Hl. fold new in Hl.
      destruct (decide (new = id)) as [<-|Hne].
      * rewrite lookup_insert_eq in Hl. injection Hl as <-. discriminate.
      * rewrite lookup_insert_ne in Hl by exact Hne. apply Hmid. now exists obj.
Qed.

Lemma start_voice_replaces_session_witness :
  let env := {| IN_VERCEL := false; VERCEL_is_1 := false; genai_Client := inr 3%nat;
                close_raises := fun _ => None; thread_is_alive := fun _ => true |} in
  let live := {| client := 3%nat; session := Some 1%nat; _session_ctx := Some 2%nat;
                 is_running := true; audio_in_queue := []; out_queue := [];
                 is_serverless := false |} in
  let st := {| heap := {[0%nat := live]}; audio_loop := Some 0%nat;
               audio_thread := Some (ThreadObj (Some 0%nat)); ws_clients := {[5%nat]} |} in
  let request := {| method := POST; host := "localhost:5000"; is_secure := false |} in
  exists new st',
    new <> 0%nat
    /\ start_voice env request st
       = (Jsonify (JObj [("status", JStr "started");
                         ("websocket",
                          JObj [("url", JStr "ws://localhost:5000/audio-stream");
                                ("protocol", JStr "audio-stream")])]),
          st',
          [EvLockAcquire;
           EvLoop 0%nat (EvSetRunning false); EvLoop 0%nat (EvSleep 500);
           EvLoop 0%nat (EvClose 2%nat);
           EvJoin (ThreadObj (Some 0%nat)) 2000; EvTimeSleep 500;
           EvCreate new; EvThreadStart (ThreadObj (Some new));
           EvLockRelease])
    /\ audio_loop st' = Some new
    /\ ~ running st' 0%nat.
Proof.
  intros env live st request.
  destruct (start_voice_replaces_session env request st 0%nat)
    as (old_obj & stopped & tr_stop & st_mid & response & st' & tr_launch
        & Hobj & Hstop & _ & _ & _ & _ & _ & _ & _ & _ & Hstart & _ & Hok & _ & Hrunning).
  - split.
    + intros id [= <-]. exists live. reflexivity.
    + discriminate.
    + intros id obj Hl. unfold st in Hl. simpl in Hl.
      apply lookup_singleton_Some in Hl as [_ <-].
      intros _. exists 2%nat. reflexivity.
  - reflexivity.
  - reflexivity.
  - reflexivity.
  - unfold st in Hobj. simpl in Hobj. apply lookup_singleton_Some in Hobj as [_ <-].
    cbv in Hstop. injection Hstop as <- <-.
    destruct (Hok 3%nat eq_refl) as (new & _ & Hne & -> & Hloop & _ & _ & _ & ->).
    exists new, st'. split; [exact Hne|]. split; [exact Hstart|].
    split; [exact Hloop|]. intros Hrun. now apply Hrunning in Hrun as [_ Hrun].
Defined.

(** C8, as amended: outside serverless mode, a [POST /terminate_voice] that
    finds no session object changes nothing and answers
    [{"status": "terminated"}]; one that finds a session object runs [stop]
    on it, joins its thread for at most 2 s if it is alive, closes every
    registered client, empties the registry, forgets both globals and gives
    the same answer. In serverless mode the call changes nothing and answers
    [{"status": "terminated", "vercel": true}]. *)
Theorem terminate_voice_stops_session (env : Env) (request : Request) (st : State) :
  well_formed env st ->
  method request = POST ->
  (IN_VERCEL env = false -> audio_loop st = None ->
   terminate_voice env request st
   = (Jsonify (JObj [("status", JStr "terminated")]), st,
      [EvLockAcquire; EvLockRelease]))
  /\ (IN_VERCEL env = false ->
      forall id,
        audio_loop st = Some id ->
        exists obj stopped tr_stop st',
          heap st !! id = Some obj
          /\ stop (close_raises env) obj = (stopped, tr_stop)
          /\ is_running stopped = false
          /\ session stopped = None
          /\ terminate_voice env request st
             = (Jsonify (JObj [("status", JStr "terminated")]), st',
                [EvLockAcquire]
                ++ ((EvLoop id <$> tr_stop)
                    ++ (match audio_thread st with
                        | Some t => if thread_is_alive env t then [EvJoin t 2000] else []
                        | None => []
                        end)
                    ++ (EvWsClose <$> elements (ws_clients st)))
                ++ [EvLockRelease])
          /\ heap st' = <[id := stopped]> (heap st)
          /\ audio_loop st' = None
          /\ audio_thread st' = None
          /\ ws_clients st' = ∅)
  /\ (IN_VERCEL env = true ->
      audio_loop st = None
      /\ terminate_voice env request st
         = (Jsonify (JObj [("status", JStr "terminated"); ("vercel", JBool true)]),
            st, [])).
Proof.
  intros Hwf Hpost. unfold terminate_voice. rewrite Hpost. split; [|split].
  - intros -> ->. reflexivity.
  - intros -> id Hloop. rewrite Hloop.
    destruct (wf_allocated _ _ Hwf id Hloop) as [obj Hobj].
    pose proof (wf_consistent _ _ Hwf id obj Hobj) as Hcons.
    pose proof (stop_flag_cleared (close_raises env) obj) as Hflag.
    pose proof (stop_session_released (close_raises env) obj Hcons) as Hsess.
    rewrite (stop_loop_lookup env id obj st Hobj).
    destruct (stop (close_raises env) obj) as [stopped tr_stop] eqn:Hstop.
    simpl in Hflag, Hsess. unfold join_thread. simpl.
    eexists obj, stopped, tr_stop, _.
    split; [exact Hobj|]. split; [exact Hstop|]. split; [exact Hflag|].
    split; [exact Hsess|]. split; [rewrite <- !app_assoc; reflexivity|].
    repeat split.
  - intros Hv. split; [exact (wf_serverless _ _ Hwf Hv)|]. now rewrite Hv.
Qed.

Lemma terminate_voice_stops_session_witness :
  let env := {| IN_VERCEL := false; VERCEL_is_1 := false; genai_Client := inr 3%nat;
                close_raises := fun _ => None; thread_is_alive := fun _ => true |} in
  let request := {| method := POST; host := "localhost:5000"; is_secure := false |} in
  terminate_voice env request initial
  = (Jsonify (JObj [("status", JStr "terminated")]), initial,
     [EvLockAcquire; EvLockRelease]).
Proof.
  intros env request.
  apply (proj1 (terminate_voice_stops_session env request initial
                  (well_formed_initial env) eq_refl)); reflexivity.
Defined.

(** C8, as stated, fails in serverless mode: no session exists, and the
    answer is [{"status": "terminated", "vercel": true}]. *)
Lemma terminate_voice_serverless_body :
  let env := {| IN_VERCEL := true; VERCEL_is_1 := true; genai_Client := inr 3%nat;
                close_raises := fun _ => None; thread_is_alive := fun _ => false |} in
  let request := {| method := POST; host := "dia.vercel.app"; is_secure := true |} in
  audio_loop initial = None
  /\ terminate_voice env request initial
     = (Jsonify (JObj [("status", JStr "terminated"); ("vercel", JBool true)]),
        initial, [])
  /\ (terminate_voice env request initial).1.1
     <> Jsonify (JObj [("status", JStr "terminated")]).
Proof.
  intros env request. repeat split. simpl. discriminate.
Qed.

(** ** The WebSocket endpoint *)








Lemma implicit_start_existing (env : Env) (st : State) :
  is_Some (audio_loop st) -> implicit_start env st = inr (st, []).
Proof.
  intros [id Hid]. unfold implicit_start, has_loop. rewrite Hid. simpl.
  now destruct (negb (loop_is_running st)).
Qed.





End ManagerFacts.

(** * Further properties of the code *)

(** ** The WAV framer, for any parameters *)

Section WavMore.
Import Py Wav.

Lemma to_bytes_cases (v : Z) (n : nat) :
  (0 <= v < 256 ^ Z.of_nat n /\ to_bytes v n = inr (le_bytes n v))
  \/ (~ 0 <= v < 256 ^ Z.of_nat n /\ to_bytes v n = inl OverflowError).
Proof.
  destruct (Z_lt_dec v 0) as [Hneg|Hpos].
  - right. split; [lia | now apply to_bytes_negative].
  - destruct (Z_le_dec (256 ^ Z.of_nat n) v) as [Hbig|Hfit].
    + right. split; [lia | now apply to_bytes_too_big].
    + left. split; [lia | apply to_bytes_fits; lia].
Qed.

Lemma header_layout_length (d r c w : Z) : length (header_layout d r c w) = 44%nat.
Proof.
  unfold header_layout. rewrite !length_app, !le_bytes_length. reflexivity.
Qed.

Lemma create_wav_header_cases (d r c w : Z) :
  (fields_fit d r c w -> create_wav_header d r c w = inr (header_layout d r c w))
  /\ (~ fields_fit d r c w -> create_wav_header d r c w = inl OverflowError).
Proof.
  unfold fields_fit.
  change (2 ^ 32) with 4294967296. change (2 ^ 16) with 65536.
  pose proof (to_bytes_cases (d + 36) 4) as H1.
  pose proof (to_bytes_cases c 2) as H2.
  pose proof (to_bytes_cases r 4) as H3.
  pose proof (to_bytes_cases (r * c * w) 4) as H4.
  pose proof (to_bytes_cases (c * w) 2) as H5.
  pose proof (to_bytes_cases (w * 8) 2) as H6.
  pose proof (to_bytes_cases d 4) as H7.
  change (256 ^ Z.of_nat 4) with 4294967296 in *.
  change (256 ^ Z.of_nat 2) with 65536 in *.
  unfold create_wav_header.
  change (to_bytes 16 4) with (@inr exn _ (le_bytes 4 16)).
  change (to_bytes 1 2) with (@inr exn _ (le_bytes 2 1)).
  split.
  - intros (F1 & F2 & F3 & F4 & F5 & F6 & F7).
    destruct H1 as [[_ ->]|[N _]]; [|tauto].
    destruct H2 as [[_ ->]|[N _]]; [|tauto].
    destruct H3 as [[_ ->]|[N _]]; [|tauto].
    destruct H4 as [[_ ->]|[N _]]; [|tauto].
    destruct H5 as [[_ ->]|[N _]]; [|tauto].
    destruct H6 as [[_ ->]|[N _]]; [|tauto].
    destruct H7 as [[_ ->]|[N _]]; [|tauto].
    cbn [bind ret app]. unfold header_layout. now rewrite <- !app_assoc.
  - intros Hnot.
    destruct H1 as [[F1 ->]|[_ ->]]; [cbn [bind]|reflexivity].
    destruct H2 as [[F2 ->]|[_ ->]]; [cbn [bind]|reflexivity].
    destruct H3 as [[F3 ->]|[_ ->]]; [cbn [bind]|reflexivity].
    destruct H4 as [[F4 ->]|[_ ->]]; [cbn [bind]|reflexivity].
    destruct H5 as [[F5 ->]|[_ ->]]; [cbn [bind]|reflexivity].
    destruct H6 as [[F6 ->]|[_ ->]]; [cbn [bind]|reflexivity].
    destruct H7 as [[F7 ->]|[_ ->]]; [|reflexivity].
    exfalso. apply Hnot. tauto.
Qed.

Lemma fields_fit_dec (d r c w : Z) : fields_fit d r c w \/ ~ fields_fit d r c w.
Proof. unfold fields_fit. lia. Qed.

(** Whatever the framer returns is 44 bytes long. *)
Lemma create_wav_header_returns_44 (d r c w : Z) (h : list byte) :
  create_wav_header d r c w = inr h -> length h = 44%nat.
Proof.
  intros Hh. destruct (fields_fit_dec d r c w) as [Hfit|Hnot].
  - rewrite (proj1 (create_wav_header_cases d r c w) Hfit) in Hh.
    injection Hh as <-. apply header_layout_length.
  - rewrite (proj2 (create_wav_header_cases d r c w) Hnot) in Hh. discriminate.
Qed.

(** X1: [create_wav_header] returns exactly when each of the seven
    computed fields fits the width it is written with, and then the result
    is the 44-byte canonical layout; in every other case (a negative
    argument, a product that overflows its field, a payload too long) it
    raises [OverflowError]. *)
Theorem create_wav_header_exact (d r c w : Z) :
  (fields_fit d r c w ->
   create_wav_header d r c w = inr (header_layout d r c w)
   /\ length (header_layout d r c w) = 44%nat)
  /\ (~ fields_fit d r c w -> create_wav_header d r c w = inl OverflowError).
Proof.
  split.
  - intros Hfit. split; [|apply header_layout_length].
    now apply create_wav_header_cases.
  - apply create_wav_header_cases.
Qed.

Lemma create_wav_header_exact_witness :
  (create_wav_header 2048 16000 2 2 = inr (header_layout 2048 16000 2 2)
   /\ length (header_layout 2048 16000 2 2) = 44%nat)
  /\ create_wav_header 2048 24000 1 (-2) = inl OverflowError
  /\ create_wav_header (-1) 24000 1 2 = inl OverflowError
  /\ create_wav_header 2048 24000 65536 2 = inl OverflowError.
Proof.
  split; [|split; [|split]].
  - apply (proj1 (create_wav_header_exact 2048 16000 2 2)). vm_compute.
    repeat split; discriminate.
  - apply (proj2 (create_wav_header_exact 2048 24000 1 (-2))). vm_compute.
    intros (_ & _ & _ & [H _] & _). now apply H.
  - apply (proj2 (create_wav_header_exact (-1) 24000 1 2)). vm_compute.
    intros (_ & _ & _ & _ & _ & _ & [H _]). now apply H.
  - apply (proj2 (create_wav_header_exact 2048 24000 65536 2)). vm_compute.
    intros (_ & [_ H] & _). discriminate H.
Defined.

Lemma parse_layout (a0 a1 a2 a3 c0 c1 r0 r1 r2 r3 b0 b1 b2 b3 k0 k1 s0 s1
    d0 d1 d2 d3 : byte) (payload : list byte) :
  parse_wav_header
    (lit "RIFF" ++ [a0; a1; a2; a3] ++ lit "WAVE" ++ lit "fmt "
     ++ le_bytes 4 16 ++ le_bytes 2 1 ++ [c0; c1] ++ [r0; r1; r2; r3]
     ++ [b0; b1; b2; b3] ++ [k0; k1] ++ [s0; s1]
     ++ lit "data" ++ [d0; d1; d2; d3] ++ payload)
  = Some {| riff_size := from_bytes [a0; a1; a2; a3];
            audio_format := 1;
            channels := from_bytes [c0; c1];
            sample_rate := from_bytes [r0; r1; r2; r3];
            byte_rate := from_bytes [b0; b1; b2; b3];
            block_align := from_bytes [k0; k1];
            bits_per_sample := from_bytes [s0; s1];
            data_length := from_bytes [d0; d1; d2; d3] |}.
Proof. reflexivity. Qed.

(** X2: whatever the parameters, a header the framer returns reads back
    as the values it was given: payload length, RIFF size [+ 36], channels,
    sample rate, [sample_rate * channels * sample_width],
    [channels * sample_width] and [sample_width * 8], PCM format 1. *)
Theorem wav_header_reads_back (d r c w : Z) (payload : list byte) :
  fields_fit d r c w ->
  exists header,
    create_wav_header d r c w = inr header
    /\ parse_wav_header (header ++ payload)
       = Some {| riff_size := d + 36;
                 audio_format := 1;
                 channels := c;
                 sample_rate := r;
                 byte_rate := r * c * w;
                 block_align := c * w;
                 bits_per_sample := w * 8;
                 data_length := d |}.
Proof.
  intros Hfit. exists (header_layout d r c w).
  split; [apply (proj1 (create_wav_header_cases d r c w) Hfit)|].
  destruct Hfit as (F1 & F2 & F3 & F4 & F5 & F6 & F7).
  change (2 ^ 32) with (256 ^ Z.of_nat 4) in *.
  change (2 ^ 16) with (256 ^ Z.of_nat 2) in *.
  pose proof (from_bytes_le_bytes_fits 4 _ F1) as E1.
  pose proof (from_bytes_le_bytes_fits 2 _ F2) as E2.
  pose proof (from_bytes_le_bytes_fits 4 _ F3) as E3.
  pose proof (from_bytes_le_bytes_fits 4 _ F4) as E4.
  pose proof (from_bytes_le_bytes_fits 2 _ F5) as E5.
  pose proof (from_bytes_le_bytes_fits 2 _ F6) as E6.
  pose proof (from_bytes_le_bytes_fits 4 _ F7) as E7.
  unfold header_layout. rewrite <- !app_assoc.
  cbn [le_bytes] in E1, E2, E3, E4, E5, E6, E7 |- *.
  etransitivity; [apply parse_layout|].
  now rewrite E1, E2, E3, E4, E5, E6, E7.
Qed.

Lemma wav_header_reads_back_witness :
  exists header,
    create_wav_header 640 16000 2 2 = inr header
    /\ parse_wav_header (header ++ [x0a; x0b])
       = Some {| riff_size := 676; audio_format := 1; channels := 2;
                 sample_rate := 16000; byte_rate := 64000; block_align := 4;
                 bits_per_sample := 16; data_length := 640 |}.
Proof.
  apply (wav_header_reads_back 640 16000 2 2 [x0a; x0b]). vm_compute.
  repeat split; discriminate.
Defined.

(** X3: what [play_audio] sends carries the chunk unchanged behind the 44
    header bytes: dropping them gives the chunk back, so two chunks framed
    to the same bytes are the same chunk. *)
Theorem frame_pcm_keeps_payload (audio_data other wav_data : list byte) :
  frame_pcm audio_data = inr wav_data ->
  skipn 44 wav_data = audio_data
  /\ length wav_data = (44 + length audio_data)%nat
  /\ (frame_pcm other = inr wav_data -> other = audio_data).
Proof.
  assert (Hshape : forall a w0, frame_pcm a = inr w0 ->
            exists h, length h = 44%nat /\ w0 = h ++ a).
  { intros a w0. unfold frame_pcm, RECEIVE_SAMPLE_RATE.
    destruct (create_wav_header (Z.of_nat (length a)) 24000 1 2) as [e|h] eqn:Hh;
      cbn [bind ret]; [discriminate|].
    intros [= <-]. exists h. split; [|reflexivity].
    now apply create_wav_header_returns_44 in Hh. }
  intros Hframe. destruct (Hshape _ _ Hframe) as (h & Hlen & ->).
  assert (Hskip : forall (x y : list byte), length x = 44%nat -> skipn 44 (x ++ y) = y).
  { intros x y Hx. rewrite <- Hx. rewrite skipn_app, Nat.sub_diag.
    rewrite skipn_all. reflexivity. }
  split; [now apply Hskip|]. split; [rewrite length_app; lia|].
  intros Hother. destruct (Hshape _ _ Hother) as (h' & Hlen' & Heq).
  apply (f_equal (skipn 44)) in Heq. rewrite !Hskip in Heq by assumption.
  congruence.
Qed.

Lemma frame_pcm_keeps_payload_witness :
  skipn 44 (header_24k_mono16 2 ++ [x01; x02]) = [x01; x02]
  /\ length (header_24k_mono16 2 ++ [x01; x02]) = 46%nat.
Proof.
  destruct (frame_pcm_keeps_payload [x01; x02] [] (header_24k_mono16 2 ++ [x01; x02]))
    as (Hskip & Hlen & _).
  - vm_compute. reflexivity.
  - split; [exact Hskip | exact Hlen].
Defined.

End WavMore.

(** ** The engine: connecting, stopping, starting up *)

Section EngineMore.
Import Py Engine.

Lemma prefix_append (s t : string) : String.prefix s (String.append s t) = true.
Proof.
  induction s as [|c s IH]; simpl; [now destruct t|].
  destruct (Ascii.ascii_dec c c) as [_|Hne]; [exact IH | now elim Hne].
Qed.

Lemma contains_prefix (sub s : string) :
  String.prefix sub s = true -> contains sub s = true.
Proof. intros H. destruct s; cbn [contains]; now rewrite H. Qed.

Lemma contains_append (sub pre post : string) :
  contains sub (String.append pre (String.append sub post)) = true.
Proof.
  induction pre as [|c pre IH].
  - change (contains sub (String.append sub post) = true).
    apply contains_prefix, prefix_append.
  - change (contains sub (String c (String.append pre (String.append sub post))) = true).
    change (String.prefix sub (String c (String.append pre (String.append sub post)))
            || contains sub (String.append pre (String.append sub post)) = true).
    rewrite IH. apply orb_true_r.
Qed.

Lemma lower_append (s t : string) :
  lower (String.append s t) = String.append (lower s) (lower t).
Proof. induction s as [|c s IH]; simpl; [reflexivity | now rewrite IH]. Qed.

(** X4: the test that makes a receive error recoverable ignores letter
    case and position: any exception whose message has "timeout" somewhere,
    in any mix of upper and lower case, is taken for a timeout. *)
Theorem is_timeout_any_case (pre word post : string) :
  lower word = "timeout"%string ->
  is_timeout (Exception (String.append pre (String.append word post))) = true
  /\ is_timeout (ValueError (String.append pre (String.append word post))) = true.
Proof.
  intros Hword. unfold is_timeout. cbn [str].
  rewrite !lower_append, Hword. split; apply contains_append.
Qed.

Lemma is_timeout_any_case_witness :
  is_timeout (Exception "Read TimeOut while streaming") = true
  /\ is_timeout (ValueError "Read TimeOut while streaming") = true.
Proof.
  apply (is_timeout_any_case "Read " "TimeOut" " while streaming"). reflexivity.
Defined.

Lemma attempts_cons_connect (n : Z) (tr : list Event) :
  attempts (EvConnect n :: EvSleep 1000 :: tr) = n :: attempts tr.
Proof. reflexivity. Qed.

Lemma retry_sleeps_cons (n : Z) (tr : list Event) :
  retry_sleeps (EvConnect n :: EvSleep 1000 :: tr) = S (retry_sleeps tr).
Proof. reflexivity. Qed.

(** The loop from [retry_count] when the first [n] attempts from there fail
    and the next one succeeds. *)
Lemma connect_loop_first_success (stub : Z -> ConnectOutcome) (max_retries : Z)
    (ctx : Ctx) (h : Handle) :
  forall (n fuel : nat) (retry_count : Z) (self : AudioLoop),
    retry_count + Z.of_nat n < max_retries ->
    (Z.to_nat (max_retries - retry_count) <= fuel)%nat ->
    (forall j, retry_count <= j < retry_count + Z.of_nat n -> failed (stub j) = true) ->
    stub (retry_count + Z.of_nat n) = Entered ctx h ->
    exists self' tr,
      connect_loop fuel stub max_retries retry_count self = Some (true, self', tr)
      /\ attempts tr = seqZ (retry_count + 1) (Z.of_nat n + 1)
      /\ retry_sleeps tr = n
      /\ session self' = Some h /\ _session_ctx self' = Some ctx
      /\ is_running self' = true
      /\ audio_in_queue self' = audio_in_queue self
      /\ out_queue self' = out_queue self.
Proof.
  induction n as [|n IH]; intros fuel retry_count self Hlt Hfuel Hfail Hok.
  - destruct fuel as [|fuel]; [lia|]. cbn [connect_loop].
    destruct (Z.ltb_spec retry_count max_retries); [|lia].
    rewrite Z.add_0_r in Hok. rewrite Hok.
    eexists _, _. split; [reflexivity|]. repeat split.
  - destruct fuel as [|fuel]; [lia|]. cbn [connect_loop].
    destruct (Z.ltb_spec retry_count max_retries); [|lia].
    pose proof (Hfail retry_count ltac:(lia)) as Hf.
    assert (Hrec : forall self0,
      exists self' tr,
        connect_loop fuel stub max_retries (retry_count + 1) self0 = Some (true, self', tr)
        /\ attempts tr = seqZ (retry_count + 1 + 1) (Z.of_nat n + 1)
        /\ retry_sleeps tr = n
        /\ session self' = Some h /\ _session_ctx self' = Some ctx
        /\ is_running self' = true
        /\ audio_in_queue self' = audio_in_queue self0
        /\ out_queue self' = out_queue self0).
    { intros self0. apply IH; [lia | lia | |].
      - intros j Hj. apply Hfail. lia.
      - rewrite <- Hok. f_equal. lia. }
    assert (Hseq : seqZ (retry_count + 1) (Z.of_nat (S n) + 1)
                   = (retry_count + 1) :: seqZ (retry_count + 1 + 1) (Z.of_nat n + 1)).
    { rewrite seqZ_cons by lia. f_equal. f_equal; lia. }
    destruct (stub retry_count) as [e|c e|c h0]; [| |discriminate].
    + destruct (Hrec self) as (self' & tr & -> & Ha & Hs & Hrest).
      eexists _, _. split; [reflexivity|].
      rewrite attempts_cons_connect, retry_sleeps_cons, Ha, Hs, Hseq. auto.
    + destruct (Hrec (set_session_ctx (Some c) self)) as (self' & tr & -> & Ha & Hs & Hrest).
      eexists _, _. split; [reflexivity|].
      rewrite attempts_cons_connect, retry_sleeps_cons, Ha, Hs, Hseq. auto.
Qed.

Lemma connect_loop_all_fail (stub : Z -> ConnectOutcome) (max_retries : Z) :
  forall (fuel : nat) (retry_count : Z) (self : AudioLoop),
    (Z.to_nat (max_retries - retry_count) <= fuel)%nat ->
    (forall j, retry_count <= j < max_retries -> failed (stub j) = true) ->
    exists self' tr,
      connect_loop fuel stub max_retries retry_count self = Some (false, self', tr)
      /\ attempts tr = seqZ (retry_count + 1) (max_retries - retry_count)
      /\ retry_sleeps tr = Z.to_nat (max_retries - retry_count).
Proof.
  induction fuel as [|fuel IH]; intros retry_count self Hfuel Hfail.
  - cbn [connect_loop]. destruct (Z.ltb_spec retry_count max_retries); [lia|].
    exists self, []. split; [reflexivity|].
    rewrite seqZ_nil by lia. split; [reflexivity|].
    change (retry_sleeps []) with 0%nat. lia.
  - cbn [connect_loop]. destruct (Z.ltb_spec retry_count max_retries) as [Hlt|Hge].
    + pose proof (Hfail retry_count ltac:(lia)) as Hf.
      assert (Hseq : seqZ (retry_count + 1) (max_retries - retry_count)
                     = (retry_count + 1)
                       :: seqZ (retry_count + 1 + 1) (max_retries - (retry_count + 1))).
      { rewrite seqZ_cons by lia. f_equal. f_equal; lia. }
      assert (Hcount : Z.to_nat (max_retries - retry_count)
                       = S (Z.to_nat (max_retries - (retry_count + 1)))) by lia.
      destruct (stub retry_count) as [e|c e|c h0]; [| |discriminate].
      * destruct (IH (retry_count + 1) self) as (self' & tr & -> & Ha & Hs);
          [lia | intros j Hj; apply Hfail; lia|].
        eexists _, _. split; [reflexivity|].
        now rewrite attempts_cons_connect, retry_sleeps_cons, Ha, Hs, Hseq, Hcount.
      * destruct (IH (retry_count + 1) (set_session_ctx (Some c) self))
          as (self' & tr & -> & Ha & Hs); [lia | intros j Hj; apply Hfail; lia|].
        eexists _, _. split; [reflexivity|].
        now rewrite attempts_cons_connect, retry_sleeps_cons, Ha, Hs, Hseq, Hcount.
    + exists self, []. split; [reflexivity|].
      rewrite seqZ_nil by lia. split; [reflexivity|].
    change (retry_sleeps []) with 0%nat. lia.
Qed.

(** X5: for any [max_retries], when the attempts before the [k]-th fail
    and the [k]-th (counted from 0, [k < max_retries]) succeeds,
    [connect_with_retry] returns [True] after exactly the attempts
    1 .. k+1 and [k] one-second sleeps, with the session and its context
    stored, the flag set and both queues untouched; later attempts are never
    made. *)
Theorem connect_with_retry_first_success (stub : Z -> ConnectOutcome)
    (max_retries k : Z) (ctx : Ctx) (h : Handle) (self : AudioLoop) :
  0 <= k < max_retries ->
  (forall j, 0 <= j < k -> failed (stub j) = true) ->
  stub k = Entered ctx h ->
  exists self' tr,
    connect_with_retry stub max_retries self = Some (true, self', tr)
    /\ attempts tr = seqZ 1 (k + 1)
    /\ retry_sleeps tr = Z.to_nat k
    /\ session self' = Some h /\ _session_ctx self' = Some ctx
    /\ is_running self' = true
    /\ audio_in_queue self' = audio_in_queue self
    /\ out_queue self' = out_queue self.
Proof.
  intros Hk Hfail Hok. unfold connect_with_retry.
  destruct (connect_loop_first_success stub max_retries ctx h (Z.to_nat k)
              (Z.to_nat max_retries) 0 self)
    as (self' & tr & Heq & Ha & Hs & Hrest).
  - lia.
  - lia.
  - intros j Hj. apply Hfail. lia.
  - rewrite <- Hok. f_equal. lia.
  - exists self', tr. split; [exact Heq|].
    rewrite Ha, Hs. split; [f_equal; lia|]. split; [reflexivity | exact Hrest].
Qed.

Lemma connect_with_retry_first_success_witness :
  let stub := fun n : Z => if n <? 4 then ConnectRaises (Exception "refused")
                           else Entered 8%nat 9%nat in
  exists self' tr,
    connect_with_retry stub 6 (__init__ 0%nat false) = Some (true, self', tr)
    /\ attempts tr = [1; 2; 3; 4; 5]
    /\ retry_sleeps tr = 4%nat
    /\ session self' = Some 9%nat /\ _session_ctx self' = Some 8%nat
    /\ is_running self' = true
    /\ audio_in_queue self' = []
    /\ out_queue self' = [].
Proof.
  intros stub.
  apply (connect_with_retry_first_success stub 6 4 8%nat 9%nat (__init__ 0%nat false)).
  - lia.
  - intros j Hj. unfold stub. destruct (Z.ltb_spec j 4); [reflexivity | lia].
  - reflexivity.
Defined.

(** X6: for any [max_retries], when every attempt fails
    [connect_with_retry] returns [False] after exactly [max_retries]
    attempts, each one followed by a one-second sleep (the last one too),
    leaving session, flag and queues as they were; with [max_retries <= 0]
    it returns [False] at once, without any attempt. *)
Theorem connect_with_retry_exhausted (stub : Z -> ConnectOutcome) (max_retries : Z)
    (self : AudioLoop) :
  (forall j, 0 <= j < max_retries -> failed (stub j) = true) ->
  exists self' tr,
    connect_with_retry stub max_retries self = Some (false, self', tr)
    /\ attempts tr = seqZ 1 max_retries
    /\ retry_sleeps tr = Z.to_nat max_retries
    /\ session self' = session self
    /\ is_running self' = is_running self
    /\ audio_in_queue self' = audio_in_queue self
    /\ out_queue self' = out_queue self
    /\ (max_retries <= 0 -> self' = self /\ tr = []).
Proof.
  intros Hfail. unfold connect_with_retry.
  destruct (connect_loop_all_fail stub max_retries (Z.to_nat max_retries) 0 self)
    as (self' & tr & Heq & Ha & Hs); [lia | exact Hfail|].
  exists self', tr. split; [exact Heq|].
  rewrite Z.sub_0_r in Ha, Hs. split; [exact Ha|]. split; [exact Hs|].
  destruct (connect_loop_failure_keeps _ _ _ _ _ _ _ Heq) as (H1 & H2 & H3 & H4).
  repeat (split; [assumption|]).
  intros Hle. destruct (Z.to_nat max_retries) eqn:Hn; [|lia].
  cbn [connect_loop] in Heq. destruct (Z.ltb_spec 0 max_retries); [lia|].
  now injection Heq as <- <-.
Qed.

Lemma connect_with_retry_exhausted_witness :
  let stub := fun _ : Z => EnterRaises 8%nat (Exception "quota exceeded") in
  exists self' tr,
    connect_with_retry stub 5 (__init__ 0%nat false) = Some (false, self', tr)
    /\ attempts tr = [1; 2; 3; 4; 5]
    /\ retry_sleeps tr = 5%nat
    /\ session self' = None
    /\ is_running self' = false.
Proof.
  intros stub.
  destruct (connect_with_retry_exhausted stub 5 (__init__ 0%nat false))
    as (self' & tr & Heq & Ha & Hs & Hsess & Hrun & _).
  - intros j Hj. reflexivity.
  - exists self', tr. repeat split; assumption.
Defined.

End EngineMore.

(** ** The engine: stopping twice, giving up, the inbound pipeline *)

Section LoopsMore.
Import Py Engine.

Lemma stop_again (close_raises close_raises' : Ctx -> option exn) (self : AudioLoop) :
  consistent self ->
  stop close_raises' (stop close_raises self).1
  = ((stop close_raises self).1, [EvSetRunning false; EvSleep 500])
  /\ closes (stop close_raises' (stop close_raises self).1).2 = []
  /\ (length (closes (stop close_raises self).2) <= 1)%nat.
Proof.
  intros Hc. unfold consistent in Hc.
  destruct self as [cl [h|] [ctx|] run inq outq sl]; simpl in Hc.
  - unfold stop, _clear_queues; simpl. rewrite !drain_empty.
    destruct (close_raises ctx); simpl; repeat split; lia.
  - destruct Hc as [c Hc]; [eauto | discriminate].
  - unfold stop, _clear_queues; simpl. rewrite !drain_empty.
    repeat split; simpl; lia.
  - unfold stop, _clear_queues; simpl. rewrite !drain_empty.
    repeat split; simpl; lia.
Qed.

(** X7: [stop] can be repeated: on a loop that was stopped, a second
    [stop] only clears the flag and sleeps; it closes nothing (at most one
    close is ever issued for a session) and leaves the loop exactly as the
    first [stop] left it. *)
Theorem stop_twice (close_raises close_raises' : Ctx -> option exn) (self : AudioLoop) :
  consistent self ->
  stop close_raises' (stop close_raises self).1
  = ((stop close_raises self).1, [EvSetRunning false; EvSleep 500])
  /\ closes (stop close_raises' (stop close_raises self).1).2 = []
  /\ (length (closes (stop close_raises self).2) <= 1)%nat.
Proof. apply stop_again. Qed.

Lemma stop_twice_witness :
  let self := {| client := 0%nat; session := Some 4%nat; _session_ctx := Some 5%nat;
                 is_running := true; audio_in_queue := [[x01]]; out_queue := [];
                 is_serverless := false |} in
  let ok := fun _ : Ctx => @None exn in
  closes (stop ok self).2 = [5%nat]
  /\ stop ok (stop ok self).1 = ((stop ok self).1, [EvSetRunning false; EvSleep 500]).
Proof.
  intros self ok. split; [reflexivity|].
  apply (stop_twice ok ok self). intros _. exists 5%nat. reflexivity.
Defined.

(** X8: [run] on an upstream that refuses all three attempts makes
    exactly the attempts 1, 2, 3, then clears the flag and runs [stop]; the
    thread ends with the loop idle (flag false, no session, both queues
    empty) and nothing is closed, a context whose [__aenter__] raised being
    left as it is. *)
Theorem run_gives_up (stub : Z -> ConnectOutcome) (close_raises : Ctx -> option exn)
    (self : AudioLoop) :
  session self = None ->
  (forall n, failed (stub n) = true) ->
  exists self' tr,
    run_startup stub close_raises self = Some (self', tr, Exited)
    /\ attempts tr = [1; 2; 3]
    /\ closes tr = []
    /\ is_running self' = false
    /\ session self' = None
    /\ audio_in_queue self' = []
    /\ out_queue self' = [].
Proof.
  intros Hnone Hall. unfold run_startup, connect_with_retry.
  destruct (connect_loop_all_fail stub 3 (Z.to_nat 3) 0 self)
    as (self1 & tr1 & Heq & Ha & _); [lia | intros j _; apply Hall|].
  rewrite Heq.
  destruct (connect_loop_failure_keeps _ _ _ _ _ _ _ Heq) as (Hs & _).
  rewrite Hs, Hnone. cbn [present].
  assert (Hclose : closes tr1 = []).
  { clear -Heq Hall. revert Heq. generalize (Z.to_nat 3) 0 self tr1.
    induction n as [|n IH]; intros rc s0 t0; cbn [connect_loop].
    - destruct (rc <? 3); [discriminate|]. now intros [= _ <-].
    - destruct (rc <? 3); [|now intros [= _ <-]].
      pose proof (Hall rc) as Hf.
      destruct (stub rc) as [e|c e|c h0]; [| |discriminate].
      + destruct (connect_loop n stub 3 (rc + 1) s0) as [[[r s1] t1]|] eqn:Hrec;
          [|discriminate].
        intros [= -> -> <-]. apply IH in Hrec. exact Hrec.
      + destruct (connect_loop n stub 3 (rc + 1) (set_session_ctx (Some c) s0))
          as [[[r s1] t1]|] eqn:Hrec; [|discriminate].
        intros [= -> -> <-]. apply IH in Hrec. exact Hrec. }
  unfold stop. cbn [session set_is_running _session_ctx].
  rewrite Hs, Hnone.
  eexists _, _. split.
  { destruct (_session_ctx self1); reflexivity. }
  unfold attempts, closes in *. rewrite !omap_app, Ha, Hclose.
  split; [reflexivity|]. split; [reflexivity|]. split; [reflexivity|].
  split; [simpl; congruence|]. split; simpl; apply drain_empty.
Qed.

Lemma run_gives_up_witness :
  let stub := fun _ : Z => EnterRaises 8%nat (Exception "503") in
  exists self' tr,
    run_startup stub (fun _ => None) (__init__ 0%nat false) = Some (self', tr, Exited)
    /\ attempts tr = [1; 2; 3]
    /\ closes tr = []
    /\ is_running self' = false
    /\ session self' = None
    /\ audio_in_queue self' = []
    /\ out_queue self' = [].
Proof.
  intros stub.
  apply (run_gives_up stub (fun _ => None) (__init__ 0%nat false)).
  - reflexivity.
  - intros n. reflexivity.
Defined.

Lemma put_responses_fields (rs : list (option (list byte))) :
  forall self : AudioLoop,
    audio_in_queue (put_responses rs self)
    = audio_in_queue self
      ++ omap (fun r => match r with
                        | Some data => if truthy_bytes data then Some data else None
                        | None => None
                        end) rs
    /\ out_queue (put_responses rs self) = out_queue self.
Proof.
  induction rs as [|[data|] rs IH]; intros self; cbn [put_responses omap list_omap].
  - now rewrite app_nil_r.
  - destruct (truthy_bytes data) eqn:Ht.
    + destruct (IH (set_audio_in_queue (audio_in_queue self ++ [data]) self)) as [-> ->].
      simpl. now rewrite <- app_assoc.
    + apply IH.
  - apply IH.
Qed.

Lemma receive_audio_passes_fifo (turns : list Turn) :
  forall self : AudioLoop,
    is_running self = true ->
    audio_in_queue (receive_audio_passes turns self).1.1
    = audio_in_queue self ++ concat (turn_chunks <$> consumed turns)
    /\ is_running (receive_audio_passes turns self).1.1 = true
    /\ session (receive_audio_passes turns self).1.1 = session self
    /\ out_queue (receive_audio_passes turns self).1.1 = out_queue self
    /\ ((receive_audio_passes turns self).2 = Exited <-> existsb turn_exits turns = true).
Proof.
  induction turns as [|turn rest IH]; intros self Hrun.
  - simpl. rewrite app_nil_r. repeat split; try assumption; discriminate.
  - cbn [receive_audio_passes consumed existsb fmap list_fmap].
    destruct (put_responses_flag (responses turn) self) as [Hflag Hsess].
    destruct (put_responses_fields (responses turn) self) as [Hin Hout].
    fold (turn_chunks turn) in Hin.
    unfold receive_audio_pass, turn_exits. rewrite Hrun.
    assert (Hgo : forall tr : list Event,
      let '(s, t, st) := receive_audio_passes rest (put_responses (responses turn) self) in
      audio_in_queue (s, tr ++ t, st).1.1
      = audio_in_queue self ++ concat (turn_chunks <$> turn :: consumed rest)
      /\ is_running (s, tr ++ t, st).1.1 = true
      /\ session (s, tr ++ t, st).1.1 = session self
      /\ out_queue (s, tr ++ t, st).1.1 = out_queue self
      /\ ((s, tr ++ t, st).2 = Exited <-> false || existsb turn_exits rest = true)).
    { intros tr.
      destruct (IH (put_responses (responses turn) self) ltac:(congruence))
        as (H1 & H2 & H3 & H4 & H5).
      destruct (receive_audio_passes rest (put_responses (responses turn) self))
        as [[s t] st]. simpl in *.
      rewrite H1, Hin, <- app_assoc. repeat split; try congruence; apply H5. }
    assert (Hstop : forall tr : list Event,
      audio_in_queue (put_responses (responses turn) self, tr, Exited).1.1
      = audio_in_queue self ++ concat (turn_chunks <$> [turn])
      /\ is_running (put_responses (responses turn) self, tr, Exited).1.1 = true
      /\ session (put_responses (responses turn) self, tr, Exited).1.1 = session self
      /\ out_queue (put_responses (responses turn) self, tr, Exited).1.1 = out_queue self
      /\ ((put_responses (responses turn) self, tr, Exited).2 = Exited
          <-> true || existsb turn_exits rest = true)).
    { intros tr. simpl. rewrite Hin, app_nil_r. repeat split; congruence. }
    destruct (ending turn) as [| |e].
    + specialize (Hgo [EvReceive; EvSleep 10]).
      now destruct (receive_audio_passes rest (put_responses (responses turn) self))
        as [[s t] st].
    + apply Hstop.
    + destruct (is_timeout e); cbn [negb].
      * specialize (Hgo [EvReceive; EvSleep 1000]).
        now destruct (receive_audio_passes rest (put_responses (responses turn) self))
          as [[s t] st].
      * apply Hstop.
Qed.

(** X9: the receive loop is a FIFO into [audio_in_queue]: after
    [receive_audio] the queue holds what it held, followed by the non-empty
    chunks of the turns, in the order received, up to and including the
    first turn that ends in a cancellation or a non-timeout error; empty and
    missing [data] are skipped. The coroutine has returned exactly when such
    a turn occurred, and in no case has it touched the running flag, the
    session or the outbound queue. *)
Theorem receive_audio_inbound_fifo (turns : list Turn) (self : AudioLoop) :
  is_running self = true ->
  present (session self) = true ->
  audio_in_queue (receive_audio turns self).1.1
  = audio_in_queue self ++ concat (turn_chunks <$> consumed turns)
  /\ is_running (receive_audio turns self).1.1 = true
  /\ session (receive_audio turns self).1.1 = session self
  /\ out_queue (receive_audio turns self).1.1 = out_queue self
  /\ ((receive_audio turns self).2 = Exited <-> existsb turn_exits turns = true).
Proof.
  intros Hrun Hsess.
  pose proof (receive_audio_passes_fifo turns self Hrun) as H.
  unfold receive_audio, enter. rewrite Hrun, Hsess. cbn [negb orb].
  now destruct (receive_audio_passes turns self) as [[s t] st].
Qed.

Lemma receive_audio_inbound_fifo_witness :
  let self := {| client := 0%nat; session := Some 1%nat; _session_ctx := Some 2%nat;
                 is_running := true; audio_in_queue := [[x09]]; out_queue := [];
                 is_serverless := false |} in
  let turns := [ {| responses := [Some [x01]; None; Some []; Some [x02]];
                    ending := TurnComplete |};
                 {| responses := [Some [x03]];
                    ending := TurnRaises (Exception "stream reset") |};
                 {| responses := [Some [x04]]; ending := TurnComplete |} ] in
  audio_in_queue (receive_audio turns self).1.1 = [[x09]; [x01]; [x02]; [x03]]
  /\ is_running (receive_audio turns self).1.1 = true.
Proof.
  intros self turns.
  destruct (receive_audio_inbound_fifo turns self eq_refl eq_refl) as (Hq & Hrun & _).
  split; [exact Hq | exact Hrun].
Defined.

End LoopsMore.

(** ** The broadcast loop over many passes *)

Section PlayMore.
Import Py Engine.
#[local] Set Warnings "-clear-no-such-hyp".

Lemma received_by_app (ws : nat) (tr1 tr2 : list Event) :
  received_by ws (tr1 ++ tr2) = received_by ws tr1 ++ received_by ws tr2.
Proof. apply omap_app. Qed.

Lemma received_by_broadcast (ws_send : nat -> option exn) (message : WsMessage)
    (ws : nat) (clients : list nat) :
  NoDup clients ->
  received_by ws (broadcast ws_send clients message)
  = if bool_decide (ws ∈ clients /\ ws_send ws = None) then [message] else [].
Proof.
  induction 1 as [|c clients Hnotin Hnd IH]; cbn [broadcast].
  - rewrite bool_decide_eq_false_2; [reflexivity|].
    intros [Hin _]. inversion Hin.
  - assert (Hstep : received_by ws
              (match ws_send c with
               | None => EvWsSend c message :: broadcast ws_send clients message
               | Some _ => EvWsSendFailed c message :: broadcast ws_send clients message
               end)
            = (if bool_decide (c = ws /\ ws_send c = None) then [message] else [])
              ++ received_by ws (broadcast ws_send clients message)).
    { destruct (ws_send c) eqn:Hc.
      - rewrite bool_decide_eq_false_2 by (intros [_ ?]; discriminate). reflexivity.
      - unfold received_by at 1. cbn [omap list_omap].
        destruct (decide (c = ws)) as [->|Hne].
        + rewrite !bool_decide_eq_true_2 by auto. reflexivity.
        + rewrite !bool_decide_eq_false_2 by tauto. reflexivity. }
    rewrite Hstep, IH. clear Hstep IH.
    repeat case_bool_decide; simpl; try reflexivity; exfalso;
      rewrite ?elem_of_cons in *; naive_solver.
Qed.

(** What one pass hands to the client [ws]. *)
Lemma play_audio_pass_received (ws_send : nat -> option exn) (ws_clients : gset nat)
    (self : AudioLoop) (ws : nat) :
  is_running self = true ->
  exists tr,
    play_audio_pass ws_send ws_clients self
    = (set_audio_in_queue (drop 1 (audio_in_queue self)) self, ws_clients, tr, Looping)
    /\ (ws ∈ ws_clients -> ws_send ws = None ->
        received_by ws tr = omap envelope_of (take 1 (audio_in_queue self)))
    /\ (ws ∉ ws_clients \/ ws_send ws <> None -> received_by ws tr = []).
Proof.
  intros Hrun. unfold play_audio_pass. rewrite Hrun.
  destruct self as [cl se cx run inq outq sl]. simpl in *.
  destruct inq as [|audio_data rest].
  - eexists. split; [reflexivity|]. split; intros; reflexivity.
  - unfold envelope_of. cbn [take omap list_omap drop].
    destruct (truthy_bytes audio_data) eqn:Ht; cbn [andb].
    + case_bool_decide as Hempty; cbn [negb].
      * eexists. split; [reflexivity|]. split; [|intros; reflexivity].
        intros Hin. subst ws_clients. now apply not_elem_of_empty in Hin.
      * destruct (Wav.frame_pcm audio_data) as [e|wav_data].
        -- eexists. split; [reflexivity|]. split; intros; reflexivity.
        -- eexists. split; [reflexivity|].
           rewrite received_by_app, received_by_broadcast by apply NoDup_elements.
           split.
           ++ intros Hin Hs. rewrite bool_decide_eq_true_2; [reflexivity|].
              split; [now apply elem_of_elements | exact Hs].
           ++ intros Hno. rewrite bool_decide_eq_false_2; [reflexivity|].
              intros [Hin Hs]. apply elem_of_elements in Hin. tauto.
    + eexists. split; [reflexivity|]. split; intros; reflexivity.
Qed.

Lemma play_audio_passes_fifo (ws_send : nat -> option exn) (ws_clients : gset nat)
    (ws : nat) :
  forall (n : nat) (self : AudioLoop),
    is_running self = true ->
    audio_in_queue (play_audio_passes n ws_send ws_clients self).1.1
    = drop n (audio_in_queue self)
    /\ (play_audio_passes n ws_send ws_clients self).2 = Looping
    /\ is_running (play_audio_passes n ws_send ws_clients self).1.1 = true
    /\ (ws ∈ ws_clients -> ws_send ws = None ->
        received_by ws (play_audio_passes n ws_send ws_clients self).1.2
        = omap envelope_of (take n (audio_in_queue self)))
    /\ (ws ∉ ws_clients \/ ws_send ws <> None ->
        received_by ws (play_audio_passes n ws_send ws_clients self).1.2 = []).
Proof.
  induction n as [|n IH]; intros self Hrun.
  - simpl. rewrite drop_0. auto.
  - cbn [play_audio_passes].
    destruct (play_audio_pass_received ws_send ws_clients self ws Hrun)
      as (tr & -> & Hyes & Hno).
    specialize (IH (set_audio_in_queue (drop 1 (audio_in_queue self)) self) Hrun).
    destruct (play_audio_passes n ws_send ws_clients
                (set_audio_in_queue (drop 1 (audio_in_queue self)) self))
      as [[self2 tr2] st2].
    cbn [fst snd audio_in_queue set_audio_in_queue] in IH |- *.
    destruct IH as (Hq & Hst & Hr & Hyes2 & Hno2).
    rewrite drop_drop in Hq.
    split; [exact Hq|]. split; [exact Hst|]. split; [exact Hr|].
    rewrite received_by_app. split.
    + intros Hin Hs. rewrite (Hyes Hin Hs), (Hyes2 Hin Hs), <- omap_app.
      f_equal. destruct (audio_in_queue self) as [|chunk queue];
        [simpl; now rewrite take_nil | reflexivity].
    + intros H. now rewrite (Hno H), (Hno2 H).
Qed.

(** X10: the broadcast loop is a FIFO per client. Over [n] passes of a
    Running loop with an unchanged registry, the first [n] queued chunks are
    consumed, and a registered client whose sends succeed receives, in queue
    order, one WAV envelope per non-empty chunk the framer accepts; a client
    that is not registered, or whose sends raise, receives nothing, and with
    an empty registry the chunks are consumed all the same. The loop itself
    never stops and never changes the flag. *)
Theorem play_audio_client_fifo (ws_send : nat -> option exn) (ws_clients : gset nat)
    (ws : nat) (n : nat) (self : AudioLoop) :
  is_running self = true ->
  audio_in_queue (play_audio_passes n ws_send ws_clients self).1.1
  = drop n (audio_in_queue self)
  /\ (play_audio_passes n ws_send ws_clients self).2 = Looping
  /\ is_running (play_audio_passes n ws_send ws_clients self).1.1 = true
  /\ (ws ∈ ws_clients -> ws_send ws = None ->
      received_by ws (play_audio_passes n ws_send ws_clients self).1.2
      = omap envelope_of (take n (audio_in_queue self)))
  /\ (ws ∉ ws_clients \/ ws_send ws <> None ->
      received_by ws (play_audio_passes n ws_send ws_clients self).1.2 = []).
Proof. apply play_audio_passes_fifo. Qed.

Lemma play_audio_client_fifo_witness :
  let self := {| client := 0%nat; session := Some 1%nat; _session_ctx := Some 2%nat;
                 is_running := true; audio_in_queue := [[x01]; []; [x02; x03]];
                 out_queue := []; is_serverless := false |} in
  let ws_send := fun ws : nat =>
                   if (ws =? 2)%nat then Some (Exception "socket closed") else None in
  received_by 1%nat (play_audio_passes 3 ws_send {[1%nat; 2%nat]} self).1.2
  = [AudioEnvelope (Wav.header_24k_mono16 1 ++ [x01]);
     AudioEnvelope (Wav.header_24k_mono16 2 ++ [x02; x03])]
  /\ received_by 2%nat (play_audio_passes 3 ws_send {[1%nat; 2%nat]} self).1.2 = []
  /\ audio_in_queue (play_audio_passes 3 ws_send {[1%nat; 2%nat]} self).1.1 = [].
Proof.
  intros self ws_send.
  destruct (play_audio_client_fifo ws_send {[1%nat; 2%nat]} 1%nat 3 self eq_refl)
    as (Hq & _ & _ & Hyes & _).
  destruct (play_audio_client_fifo ws_send {[1%nat; 2%nat]} 2%nat 3 self eq_refl)
    as (_ & _ & _ & _ & Hno).
  split; [|split].
  - rewrite Hyes; [reflexivity | | reflexivity].
    rewrite elem_of_union, !elem_of_singleton. now left.
  - apply Hno. right. discriminate.
  - exact Hq.
Defined.

End PlayMore.

(** ** The handlers, one call and many *)

Section ManagerMore.
Import Py Engine Server.
#[local] Set Warnings "-clear-no-such-hyp".

Lemma set_heap_same (st : State) : set_heap (heap st) st = st.
Proof. now destruct st. Qed.

Lemma offer_frame_idle (content : Frame) (st : State) :
  loop_is_running st = false -> offer_frame content st = (st, []).
Proof.
  unfold loop_is_running, offer_frame. intros Hidle.
  destruct (audio_loop st) as [id|]; [|reflexivity].
  destruct (heap st !! id) as [obj|] eqn:Hobj; [|reflexivity].
  unfold offer. rewrite Hidle. simpl.
  now rewrite (insert_id _ _ _ Hobj), set_heap_same.
Qed.

(** X11: audio that arrives while no session is Running (none exists, it
    is still connecting, or it was stopped) is dropped without a trace: a
    message on which [json.loads] raises [JSONDecodeError] (the handler takes
    it for raw audio), or a well-formed JSON audio message, leaves every
    global and every queue as it was, and the handler goes on to the next
    message. A message on which [json.loads] raises anything else (a binary
    frame that is not valid UTF-8 raises [UnicodeDecodeError]) is not dropped
    this way: the exception leaves the [while] loop, and the handler ends
    with the remaining messages unread and the state as it was. *)
Theorem idle_frames_dropped (env : Env) (st : State) (raw audio_bytes : list byte)
    (format_ command_ : option string) (e : exn) (rest : list Received) :
  loop_is_running st = false ->
  on_message env (NotJson raw) st = inr (st, [])
  /\ on_message env
       (Loads (JsonObject (Some "audio"%string) (Some (inr audio_bytes)) format_ command_)) st
     = inr (st, [])
  /\ on_message env (LoadsRaises e) st = inl e
  /\ receive_messages env (LoadsRaises e :: rest) st = (st, []).
Proof.
  intros Hidle. unfold on_message, ret.
  rewrite bool_decide_eq_true_2 by reflexivity.
  rewrite !(offer_frame_idle _ st Hidle).
  repeat split.
Qed.

Lemma idle_frames_dropped_witness :
  let env := {| IN_VERCEL := false; VERCEL_is_1 := false; genai_Client := inr 3%nat;
                close_raises := fun _ => None; thread_is_alive := fun _ => true |} in
  let st := {| heap := {[0%nat := __init__ 3%nat false]}; audio_loop := Some 0%nat;
               audio_thread := Some (ThreadObj (Some 0%nat)); ws_clients := {[7%nat]} |} in
  let undecodable := ValueError "'utf-8' codec can't decode byte 0x80 in position 0" in
  on_message env (NotJson [x01; x02]) st = inr (st, [])
  /\ on_message env
       (Loads (JsonObject (Some "audio"%string) (Some (inr [x01])) None None)) st
     = inr (st, [])
  /\ on_message env (LoadsRaises undecodable) st = inl undecodable
  /\ receive_messages env [LoadsRaises undecodable; NotJson [x01; x02]] st = (st, []).
Proof.
  intros env st undecodable.
  apply (idle_frames_dropped env st [x01; x02] [x01] None None undecodable [NotJson [x01; x02]]).
  reflexivity.
Defined.

(** X12: a [POST /start_voice] that finds no session (outside serverless
    mode, the client being constructible) tears nothing down: under the lock
    it allocates one loop at a fresh address, idle and with empty queues,
    starts one thread on it, and answers "started" with the [wss://] URL of
    the request's host when the request is secure and the [ws://] URL
    otherwise; the registry is not touched. *)
Theorem start_voice_fresh (env : Env) (request : Request) (st : State) (client : Client) :
  method request = POST ->
  IN_VERCEL env = false ->
  audio_loop st = None ->
  genai_Client env = inr client ->
  (fresh (dom (heap st)) ∉ dom (heap st))
  /\ start_voice env request st
     = (Jsonify
          (JObj [("status", JStr "started");
                 ("websocket",
                  JObj [("url",
                         JStr (String.append
                                 (if is_secure request then "wss://" else "ws://")
                                 (String.append (host request) "/audio-stream")));
                        ("protocol", JStr "audio-stream")])]),
        {| heap := <[fresh (dom (heap st)) := __init__ client (VERCEL_is_1 env)]> (heap st);
           audio_loop := Some (fresh (dom (heap st)));
           audio_thread := Some (ThreadObj (Some (fresh (dom (heap st)))));
           ws_clients := ws_clients st |},
        [EvLockAcquire; EvCreate (fresh (dom (heap st)));
         EvThreadStart (ThreadObj (Some (fresh (dom (heap st))))); EvLockRelease]).
Proof.
  intros Hpost Hv Hnone Hclient. split; [apply is_fresh|].
  unfold start_voice, teardown_existing, launch, create_audio_loop, websocket_url.
  rewrite Hpost, Hv, Hnone, Hclient. cbn [bind ret assign_audio_loop start_thread].
  now destruct (is_secure request).
Qed.

Lemma start_voice_fresh_witness :
  let env := {| IN_VERCEL := false; VERCEL_is_1 := false; genai_Client := inr 3%nat;
                close_raises := fun _ => None; thread_is_alive := fun _ => true |} in
  let request := {| method := POST; host := "dia.example"; is_secure := true |} in
  (start_voice env request initial).1.1
  = Jsonify
      (JObj [("status", JStr "started");
             ("websocket",
              JObj [("url", JStr "wss://dia.example/audio-stream");
                    ("protocol", JStr "audio-stream")])]).
Proof.
  intros env request.
  destruct (start_voice_fresh env request initial 3%nat eq_refl eq_refl eq_refl eq_refl)
    as [_ Heq].
  rewrite Heq. reflexivity.
Defined.

(** X13: when the upstream client cannot be constructed, a
    [POST /start_voice] answers [{"status": "error", "message": str(e)}]
    instead of raising, and the service is left without a session: a session
    that existed has been stopped and forgotten all the same, and the
    registry is kept. *)
Theorem start_voice_failed_launch (env : Env) (request : Request) (st : State) (e : exn) :
  method request = POST ->
  IN_VERCEL env = false ->
  genai_Client env = inl e ->
  (start_voice env request st).1.1
  = Jsonify (JObj [("status", JStr "error"); ("message", JStr (str e))])
  /\ audio_loop (start_voice env request st).1.2 = None
  /\ ws_clients (start_voice env request st).1.2 = ws_clients st
  /\ (forall id obj,
        audio_loop st = Some id -> heap st !! id = Some obj ->
        heap (start_voice env request st).1.2 !! id
        = Some (stop (close_raises env) obj).1
        /\ audio_thread (start_voice env request st).1.2 = None).
Proof.
  intros Hpost Hv Hclient.
  unfold start_voice, launch, create_audio_loop. rewrite Hpost, Hv, Hclient.
  cbn [bind]. unfold teardown_existing.
  destruct (audio_loop st) as [id|] eqn:Hloop.
  - destruct (heap st !! id) as [obj|] eqn:Hobj.
    + rewrite (stop_loop_lookup env id obj st Hobj).
      destruct (stop (close_raises env) obj) as [stopped tr] eqn:Hstop. simpl.
      split; [reflexivity|]. split; [reflexivity|]. split; [reflexivity|].
      intros id' obj' [= <-] Hobj'.
      assert (obj' = obj) as -> by congruence.
      rewrite lookup_insert_eq, Hstop. split; reflexivity.
    + unfold stop_loop. rewrite Hobj. simpl.
      split; [reflexivity|]. split; [reflexivity|]. split; [reflexivity|].
      intros id' obj' [= <-] Hobj'. congruence.
  - simpl. split; [reflexivity|]. split; [exact Hloop|]. split; [reflexivity|].
    discriminate.
Qed.

Lemma start_voice_failed_launch_witness :
  let env := {| IN_VERCEL := false; VERCEL_is_1 := false;
                genai_Client := inl (ValueError "Missing key inputs argument");
                close_raises := fun _ => None; thread_is_alive := fun _ => true |} in
  let request := {| method := POST; host := "dia.example"; is_secure := true |} in
  (start_voice env request initial).1.1
  = Jsonify (JObj [("status", JStr "error");
                   ("message", JStr "Missing key inputs argument")])
  /\ audio_loop (start_voice env request initial).1.2 = None.
Proof.
  intros env request.
  destruct (start_voice_failed_launch env request initial
              (ValueError "Missing key inputs argument") eq_refl eq_refl eq_refl)
    as (Hresp & Hloop & _).
  split; [exact Hresp | exact Hloop].
Defined.

(** X14: terminating twice is terminating once: after a
    [POST /terminate_voice], a further call to the endpoint changes no global
    and no loop, stops nothing and closes no client; all it may do is take
    and release the lock. *)
Theorem terminate_voice_twice (env : Env) (request request' : Request) (st : State) :
  method request = POST ->
  (terminate_voice env request' (terminate_voice env request st).1.2).1.2
  = (terminate_voice env request st).1.2
  /\ (forall e,
        e ∈ (terminate_voice env request' (terminate_voice env request st).1.2).2 ->
        e = EvLockAcquire \/ e = EvLockRelease).
Proof.
  intros Hpost.
  assert (Hnoop : forall st0,
            IN_VERCEL env = true \/ audio_loop st0 = None ->
            (terminate_voice env request' st0).1.2 = st0
            /\ (forall e, e ∈ (terminate_voice env request' st0).2 ->
                          e = EvLockAcquire \/ e = EvLockRelease)).
  { intros st0 Hcase. unfold terminate_voice.
    destruct (method request'); [|split; [reflexivity | intros e He; inversion He]].
    destruct (IN_VERCEL env) eqn:Hv; [split; [reflexivity | intros e He; inversion He]|].
    destruct Hcase as [Hcase|Hcase]; [discriminate|]. rewrite Hcase. simpl.
    split; [reflexivity|]. intros e He.
    apply elem_of_cons in He as [->|He]; [now left|].
    apply list_elem_of_singleton in He as ->. now right. }
  apply Hnoop. unfold terminate_voice. rewrite Hpost.
  destruct (IN_VERCEL env); [now left|]. right.
  destruct (audio_loop st) as [id|] eqn:Hloop; [|exact Hloop].
  now destruct (stop_loop env id st).
Qed.

Lemma terminate_voice_twice_witness :
  let env := {| IN_VERCEL := false; VERCEL_is_1 := false; genai_Client := inr 3%nat;
                close_raises := fun _ => None; thread_is_alive := fun _ => true |} in
  let live := {| client := 3%nat; session := Some 1%nat; _session_ctx := Some 2%nat;
                 is_running := true; audio_in_queue := []; out_queue := [];
                 is_serverless := false |} in
  let st := {| heap := {[0%nat := live]}; audio_loop := Some 0%nat;
               audio_thread := Some (ThreadObj (Some 0%nat)); ws_clients := {[5%nat]} |} in
  let request := {| method := POST; host := "localhost:5000"; is_secure := false |} in
  (terminate_voice env request (terminate_voice env request st).1.2).1.2
  = (terminate_voice env request st).1.2.
Proof.
  intros env live st request.
  apply (proj1 (terminate_voice_twice env request request st eq_refl)).
Defined.

End ManagerMore.

(** ** The handlers in sequence *)

Section ManagerSequences.
Import Py Engine Server.
#[local] Set Warnings "-clear-no-such-hyp".

(** X15: a stop command sent over the WebSocket stops the loop but
    keeps the session object: the global still names it, so a socket
    accepted afterwards starts no new session, and a later
    [POST /terminate_voice] is no no-op: it runs [stop] on the same loop once
    more (closing nothing this time), joins the thread if alive and closes
    every registered client. *)
Theorem control_stop_keeps_session_object (env : Env) (request : Request) (st : State)
    (id : nat) (obj : AudioLoop) :
  well_formed env st ->
  method request = POST ->
  audio_loop st = Some id ->
  heap st !! id = Some obj ->
  exists st1 tr1,
    on_message env (Loads (JsonObject (Some "control"%string) None None (Some "stop"%string))) st
    = inr (st1, tr1)
    /\ audio_loop st1 = Some id
    /\ heap st1 !! id = Some (stop (close_raises env) obj).1
    /\ loop_is_running st1 = false
    /\ (forall ws, implicit_start env (register ws st1) = inr (register ws st1, []))
    /\ (terminate_voice env request st1).2
       = [EvLockAcquire; EvLoop id (EvSetRunning false); EvLoop id (EvSleep 500)]
         ++ (match audio_thread st with
             | Some t => if thread_is_alive env t then [EvJoin t 2000] else []
             | None => []
             end)
         ++ (EvWsClose <$> elements (ws_clients st)) ++ [EvLockRelease].
Proof.
  intros Hwf Hpost Hloop Hobj.
  pose proof (well_formed_not_serverless env st id Hwf Hloop) as Hv.
  pose proof (wf_consistent _ _ Hwf id obj Hobj) as Hcons.
  unfold on_message.
  rewrite bool_decide_eq_false_2 by discriminate.
  rewrite !bool_decide_eq_true_2 by reflexivity.
  rewrite Hloop, (stop_loop_lookup env id obj st Hobj). unfold ret.
  eexists _, _. split; [reflexivity|].
  split; [exact Hloop|]. split; [apply lookup_insert_eq|].
  split.
  { unfold loop_is_running. simpl. rewrite Hloop, lookup_insert_eq.
    apply stop_flag_cleared. }
  split.
  { intros ws. apply implicit_start_existing. simpl. rewrite Hloop. eauto. }
  unfold terminate_voice. rewrite Hpost, Hv. cbn [audio_loop set_heap]. rewrite Hloop.
  erewrite stop_loop_lookup by apply lookup_insert_eq.
  destruct (stop_again (close_raises env) (close_raises env) obj Hcons) as (-> & _ & _).
  unfold join_thread. simpl. now rewrite <- !app_assoc.
Qed.

Lemma control_stop_keeps_session_object_witness :
  let env := {| IN_VERCEL := false; VERCEL_is_1 := false; genai_Client := inr 3%nat;
                close_raises := fun _ => None; thread_is_alive := fun _ => false |} in
  let live := {| client := 3%nat; session := Some 1%nat; _session_ctx := Some 2%nat;
                 is_running := true; audio_in_queue := []; out_queue := [];
                 is_serverless := false |} in
  let st := {| heap := {[0%nat := live]}; audio_loop := Some 0%nat;
               audio_thread := Some (ThreadObj (Some 0%nat)); ws_clients := ∅ |} in
  let request := {| method := POST; host := "localhost:5000"; is_secure := false |} in
  exists st1 tr1,
    on_message env (Loads (JsonObject (Some "control"%string) None None (Some "stop"%string))) st
    = inr (st1, tr1)
    /\ audio_loop st1 = Some 0%nat
    /\ loop_is_running st1 = false.
Proof.
  intros env live st request.
  destruct (control_stop_keeps_session_object env request st 0%nat live)
    as (st1 & tr1 & Hmsg & Hloop & _ & Hidle & _).
  - split.
    + intros id [= <-]. exists live. reflexivity.
    + discriminate.
    + intros id obj Hl. unfold st in Hl. simpl in Hl.
      apply lookup_singleton_Some in Hl as [_ <-]. intros _. exists 2%nat. reflexivity.
  - reflexivity.
  - reflexivity.
  - reflexivity.
  - exists st1, tr1. auto.
Defined.

Lemma stop_loop_registry (env : Env) (id : nat) (st : State) :
  ws_clients (stop_loop env id st).1 = ws_clients st
  /\ audio_loop (stop_loop env id st).1 = audio_loop st.
Proof.
  unfold stop_loop. destruct (heap st !! id) as [obj|]; [|auto].
  now destruct (stop (close_raises env) obj).
Qed.

Lemma offer_frame_registry (content : Frame) (st : State) :
  ws_clients (offer_frame content st).1 = ws_clients st
  /\ audio_loop (offer_frame content st).1 = audio_loop st.
Proof.
  unfold offer_frame. destruct (audio_loop st) as [id|] eqn:Hloop; [|auto].
  destruct (heap st !! id) as [obj|]; [|auto].
  now destruct (offer content obj).
Qed.

Lemma on_message_registry (env : Env) (message : Received) (st st' : State)
    (tr : list Server.Event) :
  on_message env message st = inr (st', tr) ->
  ws_clients st' = ws_clients st /\ audio_loop st' = audio_loop st.
Proof.
  unfold on_message, ret, raise.
  assert (Hoffer : forall content,
             inr (offer_frame content st) = @inr exn _ (st', tr) ->
             ws_clients st' = ws_clients st /\ audio_loop st' = audio_loop st).
  { intros content [= Heq]. pose proof (offer_frame_registry content st) as H.
    now rewrite Heq in H. }
  assert (Hsame : @inr exn _ (st, @nil Server.Event) = inr (st', tr) ->
                  ws_clients st' = ws_clients st /\ audio_loop st' = audio_loop st).
  { now intros [= <- <-]. }
  destruct message as [|[type_ data_ format_ command_|]|raw|e]; try congruence.
  - exact Hsame.
  - destruct (bool_decide (type_ = Some "audio"%string)).
    + destruct data_ as [[e|audio_bytes]|]; try congruence. apply Hoffer.
    + destruct (bool_decide (type_ = Some "control"%string)); [|exact Hsame].
      destruct (bool_decide (command_ = Some "stop"%string)); [|exact Hsame].
      destruct (audio_loop st) as [id|] eqn:Hloop; [|exact Hsame].
      intros [= Heq]. pose proof (stop_loop_registry env id st) as H.
      rewrite Heq in H. simpl in H. destruct H. split; congruence.
  - apply Hoffer.
Qed.

Lemma receive_messages_registry (env : Env) (script : list Received) :
  forall st : State,
    ws_clients (receive_messages env script st).1 = ws_clients st
    /\ audio_loop (receive_messages env script st).1 = audio_loop st.
Proof.
  induction script as [|message script IH]; intros st; [auto|].
  cbn [receive_messages].
  destruct (on_message env message st) as [e|[st1 tr1]] eqn:Hmsg; [auto|].
  apply on_message_registry in Hmsg as [Hw Hl]. specialize (IH st1).
  destruct (receive_messages env script st1) as [st2 tr2]. simpl in *.
  destruct IH. split; congruence.
Qed.

Lemma implicit_start_registry (env : Env) (st st' : State) (tr : list Server.Event) :
  implicit_start env st = inr (st', tr) -> ws_clients st' = ws_clients st.
Proof.
  unfold implicit_start, ret.
  destruct (negb (has_loop st) || negb (loop_is_running st))%bool; [|now intros [= <- <-]].
  destruct (negb (has_loop st)); [|now intros [= <- <-]].
  destruct (create_audio_loop env) as [e|[obj|]]; cbn [bind]; [discriminate| |];
    now intros [= <- <-].
Qed.

Lemma audio_stream_socket_registry_aux (env : Env) (ws : nat) (script : list Received)
    (st : State) :
  ws_clients (audio_stream_socket env ws script st).1 = ws_clients st ∖ {[ws]}.
Proof.
  unfold audio_stream_socket.
  assert (Hout : forall st0, ws_clients st0 = {[ws]} ∪ ws_clients st ->
                             ws_clients (unregister ws st0) = ws_clients st ∖ {[ws]}).
  { intros st0 H0. unfold unregister. case_bool_decide as Hin; simpl; rewrite H0.
    - set_solver.
    - exfalso. apply Hin. rewrite H0. set_solver. }
  destruct (implicit_start env (register ws st)) as [e|[st1 tr1]] eqn:Hstart.
  - now apply Hout.
  - apply implicit_start_registry in Hstart.
    pose proof (receive_messages_registry env script st1) as [Hw _].
    destruct (receive_messages env script st1) as [st2 tr2]. simpl in *.
    apply Hout. congruence.
Qed.

(** X16: whatever the peer sends, the handler of a socket changes the
    registry by its own entry only: when it returns the registry is the one
    it found, without the socket, and every other client is still
    registered (a stop command stops the session, not the other clients). *)
Theorem audio_stream_socket_registry (env : Env) (ws : nat) (script : list Received)
    (st : State) :
  ws_clients (audio_stream_socket env ws script st).1 = ws_clients st ∖ {[ws]}
  /\ (forall other, other <> ws ->
        (other ∈ ws_clients (audio_stream_socket env ws script st).1
         <-> other ∈ ws_clients st)).
Proof.
  rewrite audio_stream_socket_registry_aux. split; [reflexivity|].
  intros other Hne. rewrite elem_of_difference, elem_of_singleton. tauto.
Qed.

Lemma on_message_raises (env : Env) (message : Received) (st : State) :
  message_raises message = true -> exists e, on_message env message st = inl e.
Proof.
  unfold message_raises, on_message, raise.
  destruct message as [|[type_ data_ format_ command_|]|raw|e]; try discriminate; eauto.
  destruct (bool_decide (type_ = Some "audio"%string)); [|discriminate].
  destruct data_ as [[e|audio_bytes]|]; try discriminate; eauto.
Qed.

Lemma receive_messages_cut (env : Env) (message : Received) (post : list Received) :
  message_raises message = true ->
  forall (pre : list Received) (st : State),
    receive_messages env (pre ++ message :: post) st = receive_messages env pre st.
Proof.
  intros Hraises. induction pre as [|m pre IH]; intros st.
  - cbn [app receive_messages].
    now destruct (on_message_raises env message st Hraises) as [e ->].
  - cbn [app receive_messages].
    destruct (on_message env m st) as [e|[st1 tr1]]; [reflexivity|].
    now rewrite IH.
Qed.

(** X17: a message the handler cannot read ends the connection: when a
    message is no JSON object, or is an audio message without ["data"] or
    with data that does not decode, nothing the peer sends after it is
    processed; the handler returns in the state and with the trace it had
    before that message, the socket deregistered. *)
Theorem malformed_message_ends_handler (env : Env) (ws : nat)
    (pre post : list Received) (message : Received) (st : State) :
  message_raises message = true ->
  audio_stream_socket env ws (pre ++ message :: post) st
  = audio_stream_socket env ws pre st
  /\ (ws ∉ ws_clients (audio_stream_socket env ws (pre ++ message :: post) st).1).
Proof.
  intros Hraises.
  assert (Heq : audio_stream_socket env ws (pre ++ message :: post) st
                = audio_stream_socket env ws pre st).
  { unfold audio_stream_socket.
    destruct (implicit_start env (register ws st)) as [e|[st1 tr1]]; [reflexivity|].
    now rewrite (receive_messages_cut env message post Hraises). }
  split; [exact Heq|]. rewrite audio_stream_socket_registry_aux. set_solver.
Qed.

Lemma audio_stream_socket_registry_witness :
  let env := {| IN_VERCEL := false; VERCEL_is_1 := false; genai_Client := inr 3%nat;
                close_raises := fun _ => None; thread_is_alive := fun _ => false |} in
  let st := {| heap := ∅; audio_loop := None; audio_thread := None;
               ws_clients := {[4%nat]} |} in
  let script := [NotJson [x01];
                 Loads (JsonObject (Some "control"%string) None None (Some "stop"%string))] in
  4%nat ∈ ws_clients (audio_stream_socket env 7%nat script st).1.
Proof.
  intros env st script.
  apply (proj2 (audio_stream_socket_registry env 7%nat script st) 4%nat); [lia|].
  unfold st. cbn [ws_clients]. apply elem_of_singleton_2. reflexivity.
Defined.

Lemma malformed_message_ends_handler_witness :
  let env := {| IN_VERCEL := false; VERCEL_is_1 := false; genai_Client := inr 3%nat;
                close_raises := fun _ => None; thread_is_alive := fun _ => false |} in
  let bad := Loads (JsonObject (Some "audio"%string) None (Some "audio/pcm"%string) None) in
  let stop := Loads (JsonObject (Some "control"%string) None None (Some "stop"%string)) in
  audio_stream_socket env 7%nat ([NotJson [x01]] ++ bad :: [stop]) initial
  = audio_stream_socket env 7%nat [NotJson [x01]] initial.
Proof.
  intros env bad stop.
  apply (proj1 (malformed_message_ends_handler env 7%nat [NotJson [x01]] [stop] bad
                  initial eq_refl)).
Defined.

Lemma quiet_refl (st : State) : quiet st st.
Proof. intros id H. exact H. Qed.

Lemma quiet_trans (st1 st2 st3 : State) : quiet st1 st2 -> quiet st2 st3 -> quiet st1 st3.
Proof. intros H12 H23 id H. auto. Qed.

Lemma quiet_same_heap (st st' : State) : heap st' = heap st -> quiet st st'.
Proof. intros Hh id (obj & Hobj & Hrun). exists obj. now rewrite <- Hh. Qed.

Lemma quiet_store (st : State) (id : nat) (obj obj' : AudioLoop) :
  heap st !! id = Some obj ->
  (is_running obj' = true -> is_running obj = true) ->
  quiet st (set_heap (<[id := obj']> (heap st)) st).
Proof.
  intros Hobj Himp id' (o & Ho & Hrun). simpl in Ho.
  destruct (decide (id = id')) as [<-|Hne].
  - rewrite lookup_insert_eq in Ho. injection Ho as <-. exists obj. auto.
  - rewrite lookup_insert_ne in Ho by exact Hne. now exists o.
Qed.

Lemma quiet_stop_loop (env : Env) (id : nat) (st : State) :
  quiet st (stop_loop env id st).1.
Proof.
  unfold stop_loop. destruct (heap st !! id) as [obj|] eqn:Hobj; [|apply quiet_refl].
  pose proof (stop_flag_cleared (close_raises env) obj) as Hflag.
  destruct (stop (close_raises env) obj) as [obj' tr]. simpl in *.
  apply (quiet_store st id obj obj' Hobj). congruence.
Qed.

Lemma quiet_offer_frame (content : Frame) (st : State) :
  quiet st (offer_frame content st).1.
Proof.
  unfold offer_frame. destruct (audio_loop st) as [id|]; [|apply quiet_refl].
  destruct (heap st !! id) as [obj|] eqn:Hobj; [|apply quiet_refl].
  pose proof (proj2 (proj2 (enqueued_offer content obj))) as Hflag.
  destruct (offer content obj) as [obj' tr]. simpl in *.
  apply (quiet_store st id obj obj' Hobj). congruence.
Qed.

Lemma quiet_assign (created : option AudioLoop) (st : State) :
  (forall obj, created = Some obj -> is_running obj = false) ->
  quiet st (start_thread (assign_audio_loop created st).1).1.
Proof.
  intros Hidle. destruct created as [obj|]; simpl.
  - intros id (o & Ho & Hrun). simpl in Ho.
    destruct (decide (fresh (dom (heap st)) = id)) as [<-|Hne].
    + rewrite lookup_insert_eq in Ho. injection Ho as <-.
      rewrite (Hidle obj eq_refl) in Hrun. discriminate.
    + rewrite lookup_insert_ne in Ho by exact Hne. now exists o.
  - now apply quiet_same_heap.
Qed.

Lemma create_audio_loop_idle (env : Env) (created : option AudioLoop) :
  create_audio_loop env = inr created ->
  forall obj, created = Some obj -> is_running obj = false.
Proof.
  unfold create_audio_loop, ret. destruct (IN_VERCEL env).
  - intros H obj ->. discriminate.
  - destruct (genai_Client env) as [e|client]; cbn [bind]; [discriminate|].
    intros H obj ->. assert (obj = __init__ client (VERCEL_is_1 env)) as -> by congruence.
    reflexivity.
Qed.

Lemma quiet_on_message (env : Env) (message : Received) (st st' : State)
    (tr : list Server.Event) :
  on_message env message st = inr (st', tr) -> quiet st st'.
Proof.
  unfold on_message, ret, raise.
  assert (Hoffer : forall content,
             inr (offer_frame content st) = @inr exn _ (st', tr) -> quiet st st').
  { intros content [= Heq]. pose proof (quiet_offer_frame content st) as H.
    now rewrite Heq in H. }
  assert (Hsame : @inr exn _ (st, @nil Server.Event) = inr (st', tr) -> quiet st st').
  { intros [= <- <-]. apply quiet_refl. }
  destruct message as [|[type_ data_ format_ command_|]|raw|e];
    try exact Hsame; try discriminate.
  - destruct (bool_decide (type_ = Some "audio"%string)).
    + destruct data_ as [[e|audio_bytes]|]; try congruence. apply Hoffer.
    + destruct (bool_decide (type_ = Some "control"%string)); [|exact Hsame].
      destruct (bool_decide (command_ = Some "stop"%string)); [|exact Hsame].
      destruct (audio_loop st) as [id|]; [|exact Hsame].
      intros [= Heq]. pose proof (quiet_stop_loop env id st) as H.
      now rewrite Heq in H.
  - apply Hoffer.
Qed.

Lemma quiet_receive_messages (env : Env) (script : list Received) :
  forall st : State, quiet st (receive_messages env script st).1.
Proof.
  induction script as [|message script IH]; intros st; [apply quiet_refl|].
  cbn [receive_messages].
  destruct (on_message env message st) as [e|[st1 tr1]] eqn:Hmsg; [apply quiet_refl|].
  apply quiet_on_message in Hmsg. specialize (IH st1).
  destruct (receive_messages env script st1) as [st2 tr2]. simpl in *.
  eapply quiet_trans; eauto.
Qed.

Lemma quiet_handle (env : Env) (call : Call) (st : State) :
  quiet st (handle env call st).1.
Proof.
  destruct call as [request|request|ws script]; cbn [handle].
  - unfold start_voice. destruct (method request); [|apply quiet_refl].
    destruct (IN_VERCEL env); [apply quiet_refl|].
    assert (Htear : quiet st (teardown_existing env st).1).
    { unfold teardown_existing. destruct (audio_loop st) as [id|]; [|apply quiet_refl].
      pose proof (quiet_stop_loop env id st) as H.
      destruct (stop_loop env id st) as [st1 tr1]. simpl in *.
      eapply quiet_trans; [exact H | now apply quiet_same_heap]. }
    destruct (teardown_existing env st) as [st1 tr1]. simpl in Htear.
    unfold launch.
    destruct (create_audio_loop env) as [e|created] eqn:Hcreate; [exact Htear|].
    pose proof (quiet_assign created st1 (create_audio_loop_idle env created Hcreate)) as H.
    destruct (assign_audio_loop created st1) as [st2 tr2].
    unfold start_thread in *. simpl in *. eapply quiet_trans; eauto.
  - unfold terminate_voice. destruct (method request); [|apply quiet_refl].
    destruct (IN_VERCEL env); [apply quiet_refl|].
    destruct (audio_loop st) as [id|]; [|apply quiet_refl].
    pose proof (quiet_stop_loop env id st) as H.
    destruct (stop_loop env id st) as [st1 tr1]. simpl in *.
    eapply quiet_trans; [exact H | now apply quiet_same_heap].
  - unfold audio_stream_socket.
    assert (Hun : forall st0, quiet st0 (unregister ws st0)).
    { intros st0. unfold unregister. case_bool_decide; [|apply quiet_refl].
      now apply quiet_same_heap. }
    assert (Hreg : quiet st (register ws st)) by now apply quiet_same_heap.
    unfold implicit_start.
    destruct (negb (has_loop (register ws st)) || negb (loop_is_running (register ws st)))%bool;
      [destruct (negb (has_loop (register ws st)))|].
    + destruct (create_audio_loop env) as [e|created] eqn:Hcreate; cbn [bind].
      * eapply quiet_trans; [exact Hreg | apply Hun].
      * pose proof (quiet_assign created (register ws st)
                      (create_audio_loop_idle env created Hcreate)) as H.
        destruct (assign_audio_loop created (register ws st)) as [st1 tr1].
        unfold start_thread, ret in *. cbn [fst snd] in H |- *.
        pose proof (quiet_receive_messages env script
                      (set_audio_thread (Some (ThreadObj (audio_loop st1))) st1)) as Hm.
        destruct (receive_messages env script _) as [st2 tr2]. simpl in *.
        eapply quiet_trans; [exact Hreg|]. eapply quiet_trans; [exact H|].
        eapply quiet_trans; [exact Hm | apply Hun].
    + unfold ret. pose proof (quiet_receive_messages env script (register ws st)) as Hm.
      destruct (receive_messages env script _) as [st2 tr2]. simpl in *.
      eapply quiet_trans; [exact Hreg|]. eapply quiet_trans; [exact Hm | apply Hun].
    + unfold ret. pose proof (quiet_receive_messages env script (register ws st)) as Hm.
      destruct (receive_messages env script _) as [st2 tr2]. simpl in *.
      eapply quiet_trans; [exact Hreg|]. eapply quiet_trans; [exact Hm | apply Hun].
Qed.

(** X18: no request handler ever marks a session Running. Whatever
    sequence of start, terminate and WebSocket calls is served, a loop that is
    Running afterwards was Running before; from the initial globals none is.
    Only the connect of a background thread sets the flag. *)
Theorem handlers_never_set_running (env : Env) (calls : list Call) (st : State) (id : nat) :
  (running (serve env calls st) id -> running st id)
  /\ ~ running (serve env calls initial) id.
Proof.
  assert (Hserve : forall cs s, quiet s (serve env cs s)).
  { induction cs as [|call cs IH]; intros s; [apply quiet_refl|].
    cbn [serve]. eapply quiet_trans; [apply quiet_handle | apply IH]. }
  split; [apply Hserve|].
  intros H. apply Hserve in H. destruct H as (obj & Hobj & _).
  simpl in Hobj. now rewrite lookup_empty in Hobj.
Qed.

Lemma handlers_never_set_running_witness :
  let env := {| IN_VERCEL := false; VERCEL_is_1 := false; genai_Client := inr 3%nat;
                close_raises := fun _ => None; thread_is_alive := fun _ => false |} in
  let post := {| method := POST; host := "localhost:5000"; is_secure := false |} in
  let idle := {| heap := {[0%nat := __init__ 3%nat false]}; audio_loop := Some 0%nat;
                 audio_thread := None; ws_clients := ∅ |} in
  ~ running (serve env [CallStartVoice post; CallSocket 7%nat [NotJson [x01]]] idle) 0%nat.
Proof.
  intros env post idle Hrun.
  apply (proj1 (handlers_never_set_running env _ idle 0%nat)) in Hrun.
  destruct Hrun as (obj & Hobj & Hflag). unfold idle in Hobj. simpl in Hobj.
  apply lookup_singleton_Some in Hobj as [_ <-]. discriminate.
Defined.

Lemma well_formed_handle (env : Env) (call : Call) (st : State) :
  well_formed env st -> well_formed env (handle env call st).1.
Proof.
  intros Hwf. destruct call as [request|request|ws script]; cbn [handle].
  - pose proof (well_formed_start_voice env request st Hwf) as H.
    now destruct (start_voice env request st) as [[r s0] t0].
  - pose proof (well_formed_terminate_voice env request st Hwf) as H.
    now destruct (terminate_voice env request st) as [[r s0] t0].
  - now apply well_formed_audio_stream_socket.
Qed.

Lemma on_message_no_loop (env : Env) (message : Received) (st st' : State)
    (tr : list Server.Event) :
  audio_loop st = None -> on_message env message st = inr (st', tr) -> st' = st.
Proof.
  intros Hnone. unfold on_message, offer_frame, ret, raise. rewrite Hnone.
  destruct message as [|[type_ data_ format_ command_|]|raw|e]; try congruence.
  destruct (bool_decide (type_ = Some "audio"%string)).
  - destruct data_ as [[e|audio_bytes]|]; congruence.
  - destruct (bool_decide (type_ = Some "control"%string)); [|congruence].
    destruct (bool_decide (command_ = Some "stop"%string)); congruence.
Qed.

Lemma receive_messages_no_loop (env : Env) (script : list Received) (st : State) :
  audio_loop st = None -> (receive_messages env script st).1 = st.
Proof.
  intros Hnone. induction script as [|message script IH]; [reflexivity|].
  cbn [receive_messages].
  destruct (on_message env message st) as [e|[st1 tr1]] eqn:Hmsg; [reflexivity|].
  apply on_message_no_loop in Hmsg; [|exact Hnone]. subst st1.
  now destruct (receive_messages env script st) as [st2 tr2].
Qed.

Lemma handle_serverless (env : Env) (call : Call) (st : State) :
  IN_VERCEL env = true -> heap st = ∅ -> audio_loop st = None ->
  heap (handle env call st).1 = ∅ /\ audio_loop (handle env call st).1 = None.
Proof.
  intros Hv Hheap Hnone. destruct call as [request|request|ws script]; cbn [handle].
  - unfold start_voice. rewrite Hv. now destruct (method request).
  - unfold terminate_voice. rewrite Hv. now destruct (method request).
  - unfold audio_stream_socket, implicit_start, has_loop, create_audio_loop.
    cbn [register audio_loop set_ws_clients]. rewrite Hnone, Hv.
    cbn [present negb orb bind ret assign_audio_loop start_thread fst snd].
    match goal with
    | |- context [receive_messages env script ?s0] =>
        pose proof (receive_messages_no_loop env script s0 eq_refl) as Hrm;
        destruct (receive_messages env script s0) as [st2 tr2]
    end.
    simpl in Hrm. subst st2.
    unfold unregister. case_bool_decide; simpl; auto.
Qed.

Lemma well_formed_background (env : Env) (b : Background) (id : nat) (st : State) :
  well_formed env st -> well_formed env (background env b id st).
Proof.
  intros Hwf.
  assert (Hstep : forall obj obj', heap st !! id = Some obj -> consistent obj' ->
                    well_formed env (set_heap (<[id := obj']> (heap st)) st)).
  { intros obj obj' Hobj Hc. apply well_formed_store; eauto. }
  unfold background, thread_connect.
  destruct (heap st !! id) as [obj|] eqn:Hobj; [|now destruct b].
  pose proof (wf_consistent env st Hwf id obj Hobj) as Hc.
  destruct b as [stub| |outcome|turn| |ws_send|].
  - destruct (connect_with_retry stub 3 obj) as [[[r obj'] tr]|] eqn:Hconn; [|exact Hwf].
    apply (Hstep obj obj' eq_refl). unfold connect_with_retry in Hconn.
    exact (connect_loop_consistent stub 3 _ _ _ _ _ _ Hc Hconn).
  - apply (Hstep obj _ eq_refl). exact (serving_step_consistent _ _ (step_enter obj) Hc).
  - apply (Hstep obj _ eq_refl).
    exact (serving_step_consistent _ _ (step_send outcome obj) Hc).
  - apply (Hstep obj _ eq_refl).
    exact (serving_step_consistent _ _ (step_receive turn obj) Hc).
  - apply (Hstep obj _ eq_refl). exact (serving_step_consistent _ _ (step_listen obj) Hc).
  - apply (Hstep obj _ eq_refl).
    exact (serving_step_consistent _ _ (step_play ws_send (ws_clients st) obj) Hc).
  - apply (Hstep obj _ eq_refl). apply stop_consistent. exact Hc.
Qed.

Lemma background_serverless (env : Env) (b : Background) (id : nat) (st : State) :
  heap st = ∅ -> background env b id st = st.
Proof.
  intros Hheap. unfold background, thread_connect. rewrite Hheap, lookup_empty.
  now destruct b.
Qed.

(** X19: whatever requests are served from the initial globals, and
    whatever the threads of the loops do between them (connect, run passes
    of their duty cycles, reach the [finally] of [run]), the global
    [audio_loop], when set, names an allocated loop, and every loop that
    holds a session holds the context to close it with; in serverless mode
    no loop is ever allocated and the global stays unset, whichever endpoint
    is called. *)
Theorem perform_keeps_globals (env : Env) (history : list Activity) :
  well_formed env (perform env history initial)
  /\ (IN_VERCEL env = true ->
      heap (perform env history initial) = ∅
      /\ audio_loop (perform env history initial) = None).
Proof.
  split.
  - generalize (well_formed_initial env). generalize initial.
    induction history as [|[call|id b] history IH]; intros st Hwf; [exact Hwf| |].
    + cbn [perform]. apply IH. now apply well_formed_handle.
    + cbn [perform]. apply IH. now apply well_formed_background.
  - intros Hv.
    assert (H : heap initial = ∅ /\ audio_loop initial = None) by auto.
    revert H. generalize initial.
    induction history as [|[call|id b] history IH]; intros st [Hheap Hnone]; [auto| |].
    + cbn [perform]. apply IH. now apply handle_serverless.
    + cbn [perform]. rewrite background_serverless by exact Hheap. now apply IH.
Qed.

Lemma perform_keeps_globals_witness :
  let env := {| IN_VERCEL := false; VERCEL_is_1 := false; genai_Client := inr 3%nat;
                close_raises := fun _ => None; thread_is_alive := fun _ => true |} in
  let serverless := {| IN_VERCEL := true; VERCEL_is_1 := true; genai_Client := inr 3%nat;
                       close_raises := fun _ => None; thread_is_alive := fun _ => false |} in
  let post := {| method := POST; host := "localhost:5000"; is_secure := false |} in
  let stub := fun n : Z => if n =? 0 then EnterRaises 6%nat (Exception "handshake")
                           else Entered 8%nat 9%nat in
  let frame := Loads (JsonObject (Some "audio"%string) (Some (inr [x01; x02])) None None) in
  let history := [Req (CallStartVoice post); Bg 0%nat (BgConnect stub);
                  Req (CallSocket 7%nat [frame]); Bg 0%nat (BgSend None);
                  Bg 0%nat BgListen] in
  (exists obj,
     audio_loop (perform env history initial) = Some 0%nat
     /\ heap (perform env history initial) !! 0%nat = Some obj
     /\ is_running obj = true
     /\ session obj = Some 9%nat
     /\ is_Some (_session_ctx obj))
  /\ (heap (perform serverless history initial) = ∅
      /\ audio_loop (perform serverless history initial) = None).
Proof.
  intros env serverless post stub frame history. split.
  - destruct (heap (perform env history initial) !! 0%nat) as [obj|] eqn:Hobj;
      [|vm_compute in Hobj; discriminate].
    pose proof Hobj as Hval. vm_compute in Hval.
    exists obj. split; [vm_compute; reflexivity|]. split; [reflexivity|].
    assert (Hs : is_running obj = true /\ session obj = Some 9%nat)
      by (injection Hval as <-; split; reflexivity).
    destruct Hs as [Hr Hs]. split; [exact Hr|]. split; [exact Hs|].
    apply (wf_consistent env _ (proj1 (perform_keeps_globals env history)) 0%nat obj Hobj).
    rewrite Hs. eauto.
  - apply (proj2 (perform_keeps_globals serverless history)). reflexivity.
Defined.

Lemma thread_connect_running (stub : Z -> ConnectOutcome) (ctx : Ctx) (h : Handle)
    (id : nat) (obj : AudioLoop) (st : State) :
  stub 0 = Entered ctx h ->
  heap st !! id = Some obj ->
  exists obj',
    thread_connect stub id st = set_heap (<[id := obj']> (heap st)) st
    /\ is_running obj' = true.
Proof.
  intros Hstub Hobj. unfold thread_connect, connect_with_retry. rewrite Hobj.
  change (Z.to_nat 3) with 3%nat. cbn [connect_loop].
  change (0 <? 3) with true. cbv iota. rewrite Hstub.
  eexists. split; reflexivity.
Qed.

(** X20: the teardown of [start_voice] cannot hold back a loop that is
    still connecting. If the old loop has no session yet when
    [POST /start_voice] replaces it, [stop] finds nothing to close and the old
    thread is not interrupted; when its pending connect succeeds afterwards
    the old loop goes Running, and once the new loop has connected too, two
    sessions are Running at the same time. *)
Theorem restart_while_connecting (env : Env) (request : Request) (st : State)
    (old : nat) (obj : AudioLoop) (client : Client)
    (stub : Z -> ConnectOutcome) (ctx : Ctx) (h : Handle) :
  well_formed env st ->
  method request = POST ->
  audio_loop st = Some old ->
  heap st !! old = Some obj ->
  session obj = None ->
  is_running obj = false ->
  genai_Client env = inr client ->
  stub 0 = Entered ctx h ->
  exists new,
    audio_loop (start_voice env request st).1.2 = Some new
    /\ new <> old
    /\ closes (stop (close_raises env) obj).2 = []
    /\ running (thread_connect stub new
                  (thread_connect stub old (start_voice env request st).1.2)) old
    /\ running (thread_connect stub new
                  (thread_connect stub old (start_voice env request st).1.2)) new.
Proof.
  intros Hwf Hpost Hloop Hobj Hsess Hidle Hclient Hstub.
  pose proof (well_formed_not_serverless env st old Hwf Hloop) as Hv.
  destruct (stop (close_raises env) obj) as [stopped tr_stop] eqn:Hstop.
  set (heap1 := <[old := stopped]> (heap st)).
  set (new := fresh (dom heap1)).
  set (st1 := {| heap := <[new := __init__ client (VERCEL_is_1 env)]> heap1;
                 audio_loop := Some new;
                 audio_thread := Some (ThreadObj (Some new));
                 ws_clients := ws_clients st |}).
  assert (Hst1 : (start_voice env request st).1.2 = st1).
  { unfold start_voice, teardown_existing, launch, create_audio_loop.
    rewrite Hpost, Hv, Hloop, Hclient, (stop_loop_lookup env old obj st Hobj), Hstop.
    reflexivity. }
  rewrite Hst1.
  assert (Hnew : new <> old).
  { intros Heq. apply (is_fresh (dom heap1)). fold new. rewrite Heq.
    apply elem_of_dom. unfold heap1. rewrite lookup_insert_eq. eauto. }
  exists new. split; [reflexivity|]. split; [exact Hnew|]. split.
  { unfold stop in Hstop. cbn [session set_is_running _session_ctx] in Hstop.
    rewrite Hsess in Hstop.
    destruct (_session_ctx obj); injection Hstop as <- <-; reflexivity. }
  assert (Hold1 : heap st1 !! old = Some stopped).
  { simpl. rewrite lookup_insert_ne by exact Hnew. apply lookup_insert_eq. }
  destruct (thread_connect_running stub ctx h old stopped st1 Hstub Hold1)
    as (old' & -> & Hold').
  assert (Hnew2 : heap (set_heap (<[old := old']> (heap st1)) st1) !! new
                  = Some (__init__ client (VERCEL_is_1 env))).
  { simpl. rewrite lookup_insert_ne by congruence. apply lookup_insert_eq. }
  destruct (thread_connect_running stub ctx h new _ _ Hstub Hnew2)
    as (new' & -> & Hnew').
  split.
  - exists old'. split; [|exact Hold']. simpl.
    rewrite lookup_insert_ne by exact Hnew. apply lookup_insert_eq.
  - exists new'. split; [|exact Hnew']. simpl. apply lookup_insert_eq.
Qed.

Lemma restart_while_connecting_witness :
  let env := {| IN_VERCEL := false; VERCEL_is_1 := false; genai_Client := inr 3%nat;
                close_raises := fun _ => None; thread_is_alive := fun _ => true |} in
  let st := {| heap := {[0%nat := __init__ 3%nat false]}; audio_loop := Some 0%nat;
               audio_thread := Some (ThreadObj (Some 0%nat)); ws_clients := ∅ |} in
  let request := {| method := POST; host := "localhost:5000"; is_secure := false |} in
  let stub := fun _ : Z => Entered 8%nat 9%nat in
  exists new,
    new <> 0%nat
    /\ running (thread_connect stub new
                  (thread_connect stub 0%nat (start_voice env request st).1.2)) 0%nat
    /\ running (thread_connect stub new
                  (thread_connect stub 0%nat (start_voice env request st).1.2)) new.
Proof.
  intros env st request stub.
  destruct (restart_while_connecting env request st 0%nat (__init__ 3%nat false) 3%nat
              stub 8%nat 9%nat)
    as (new & _ & Hne & _ & Hold & Hnew); try reflexivity.
  - split.
    + intros id [= <-]. eexists. reflexivity.
    + discriminate.
    + intros id obj Hl. unfold st in Hl. simpl in Hl.
      apply lookup_singleton_Some in Hl as [_ <-]. intros [x Hx]. discriminate.
  - exists new. auto.
Defined.

Lemma running_flag (st : State) (id : nat) :
  is_running <$> (heap st !! id) = Some true -> running st id.
Proof.
  destruct (heap st !! id) as [obj|] eqn:Hobj; [|discriminate].
  intros [= Hrun]. exists obj. auto.
Qed.

Lemma stopped_flag (st : State) (id : nat) :
  is_running <$> (heap st !! id) = Some false -> ~ running st id.
Proof.
  intros Hflag (obj & Hobj & Hrun). rewrite Hobj in Hflag. simpl in Hflag. congruence.
Qed.

(** C1, on the code: a [POST /start_voice] made while a session is
    Running does stop that session before it creates the new one, but two
    sessions can be Running afterwards. (a) While [start_voice] sleeps the
    500 ms that end its teardown, a WebSocket is accepted; its handler takes
    no lock, finds no session object and launches one (loop 1); [start_voice]
    then launches its own (loop 2) and both connect. (b) After two calls in
    a row the first loop, replaced while it was connecting, connects all the
    same; the second is the active, Running session when a third call
    replaces it, and once the third loop has connected, loops 0 and 2 are
    Running together. *)
Theorem start_voice_two_running :
  let env := {| IN_VERCEL := false; VERCEL_is_1 := false; genai_Client := inr 3%nat;
                close_raises := fun _ => None; thread_is_alive := fun _ => true |} in
  let request := {| method := POST; host := "localhost:5000"; is_secure := false |} in
  let stub := fun _ : Z => Entered 8%nat 9%nat in
  let live := {| client := 3%nat; session := Some 1%nat; _session_ctx := Some 2%nat;
                 is_running := true; audio_in_queue := []; out_queue := [];
                 is_serverless := false |} in
  let st := {| heap := {[0%nat := live]}; audio_loop := Some 0%nat;
               audio_thread := Some (ThreadObj (Some 0%nat)); ws_clients := ∅ |} in
  let st_mid := (teardown_existing env st).1 in
  let st_sock := match implicit_start env (register 7%nat st_mid) with
                 | inr (s, _) => s
                 | inl _ => st_mid
                 end in
  let st_new := (launch env request st_sock).1.2 in
  let st_live := thread_connect stub 2%nat (thread_connect stub 1%nat st_new) in
  let a1 := (start_voice env request initial).1.2 in
  let a2 := thread_connect stub 1%nat
              (thread_connect stub 0%nat (start_voice env request a1).1.2) in
  let a4 := thread_connect stub 2%nat (start_voice env request a2).1.2 in
  (loop_is_running st = true
   /\ ~ running st_live 0%nat
   /\ audio_loop st_live = Some 2%nat
   /\ running st_live 1%nat
   /\ running st_live 2%nat)
  /\ (loop_is_running a2 = true
      /\ audio_loop a2 = Some 1%nat
      /\ audio_loop a4 = Some 2%nat
      /\ ~ running a4 1%nat
      /\ running a4 0%nat
      /\ running a4 2%nat).
Proof.
  intros env request stub live st st_mid st_sock st_new st_live a1 a2 a4.
  split.
  - split; [vm_compute; reflexivity|].
    split; [apply stopped_flag; vm_compute; reflexivity|].
    split; [vm_compute; reflexivity|].
    split; apply running_flag; vm_compute; reflexivity.
  - split; [vm_compute; reflexivity|].
    split; [vm_compute; reflexivity|].
    split; [vm_compute; reflexivity|].
    split; [apply stopped_flag; vm_compute; reflexivity|].
    split; apply running_flag; vm_compute; reflexivity.
Qed.

End ManagerSequences.
